(** * SnapRAID device report: reliability estimation ([cmdline/device.c])

    A shallow embedding of the SMART report of [cmdline/device.c]: the
    Backblaze calibration tables, the piecewise-linear rate lookup
    [smart_afr_value], the per-device sum [smart_afr], the Poisson tail, the
    MTTDL estimate [raid_prob_of_one_or_more_failures], the probability printer
    [printp] and the dispatcher [state_device] with its report [state_smart].

    Numbers.  The C code computes on [unsigned] (32 bits), [uint64_t] and
    [double].  Integers are [Z] with the wrap-around written out.  The embedding
    is written once, over an interface [Arith] for the operations of [double],
    and is read at two instances:
    - [float], the binary64 numbers of the kernel: bit-exact for the operations
      the C compiler emits inline (conversions, [+ - * /], comparisons);
    - [ereal], the extended reals: the special values of IEEE 754 (infinities,
      not-a-number) with exact arithmetic on the finite values, that is
      [double] without rounding, overflow and underflow.
    The functions [pow] and [exp] belong to the C library; the interface [LibM]
    stands for them. *)

From Stdlib Require Import ZArith List Bool String Ascii Sorted.
From Stdlib Require Import Floats Reals Lra Lia Psatz.
Import ListNotations.

Local Open Scope Z_scope.

(** ** Machine integers *)

(** [unsigned]: arithmetic modulo 2^32. *)
Definition wrap32 (z : Z) : Z := z mod 2 ^ 32.

(** [uint64_t]: arithmetic modulo 2^64. *)
Definition wrap64 (z : Z) : Z := z mod 2 ^ 64.

Definition UINT_MAX : Z := 2 ^ 32 - 1.
Definition UINT64_MAX : Z := 2 ^ 64 - 1.

(** A partial computation: [None] is undefined behaviour of the C program
    (a read past the end of an array). *)
Definition bind {A B : Type} (m : option A) (k : A -> option B) : option B :=
  match m with
  | Some a => k a
  | None => None
  end.

Notation "x <- m ;; k" := (bind m (fun x => k))
  (at level 61, m at next level, right associativity).

(** ** The interface of [double] *)

Class Arith (D : Type) : Type := {
  (** conversion of an unsigned integer value to [double] *)
  d_of_uint : Z -> D;
  (** the decimal floating constant [m / 10^e] of the program text *)
  dlit : Z -> Z -> D;
  dadd : D -> D -> D;
  dsub : D -> D -> D;
  dmul : D -> D -> D;
  ddiv : D -> D -> D;
  dneg : D -> D
}.

(** The two functions of [<math.h>] the program calls.  [pow] is only ever
    called with an [unsigned] exponent (converted to [double], which is exact):
    [dpow x k] stands for [pow(x, (double)k)]. *)
Class LibM (D : Type) : Type := {
  dpow : D -> Z -> D;
  dexp : D -> D
}.

Declare Scope double_scope.
Delimit Scope double_scope with D.
Infix "+" := dadd : double_scope.
Infix "-" := dsub : double_scope.
Infix "*" := dmul : double_scope.
Infix "/" := ddiv : double_scope.
Notation "- x" := (dneg x) : double_scope.

(** ** Instance: binary64 *)

(** An integer converted to the nearest binary64 number, ties to even. *)
Definition float_of_Z (z : Z) : float :=
  SF2Prim (binary_normalize prec emax z 0 false).

(** The quotient [m / d] of two non-negative integers rounded once to the
    nearest binary64 number: the quotient is truncated to at least 66 bits and
    the lost remainder is kept as a sticky last bit. *)
Definition float_of_ratio (m d : Z) : float :=
  if m =? 0 then float_of_Z 0
  else
    let s := Z.max 0 (66 + Z.log2 d - Z.log2 m) in
    let num := m * 2 ^ s in
    let q := num / d in
    let sticky := if num mod d =? 0 then 0 else 1 in
    SF2Prim (binary_normalize prec emax (Z.lor q sticky) (- s) false).

Arguments float_of_Z : simpl never.
Arguments float_of_ratio : simpl never.

#[export] Instance float_arith : Arith float := {
  d_of_uint := float_of_Z;
  dlit m e := float_of_ratio m (10 ^ e);
  dadd := PrimFloat.add;
  dsub := PrimFloat.sub;
  dmul := PrimFloat.mul;
  ddiv := PrimFloat.div;
  dneg := PrimFloat.opp
}.

(** ** Instance: extended reals *)

Inductive ereal : Type :=
| Fin (x : R)
| PInf
| NInf
| NaN.

Definition eneg (a : ereal) : ereal :=
  match a with
  | Fin x => Fin (- x)
  | PInf => NInf
  | NInf => PInf
  | NaN => NaN
  end.

Definition eadd (a b : ereal) : ereal :=
  match a, b with
  | NaN, _ | _, NaN => NaN
  | Fin x, Fin y => Fin (x + y)
  | PInf, NInf | NInf, PInf => NaN
  | PInf, _ | _, PInf => PInf
  | NInf, _ | _, NInf => NInf
  end.

Definition esub (a b : ereal) : ereal := eadd a (eneg b).

(** The infinity of the sign of [x], not-a-number for [x = 0]. *)
Definition inf_of_sign (x : R) : ereal :=
  if Rlt_dec 0 x then PInf else if Rlt_dec x 0 then NInf else NaN.

Definition emul (a b : ereal) : ereal :=
  match a, b with
  | NaN, _ | _, NaN => NaN
  | Fin x, Fin y => Fin (x * y)
  | Fin x, PInf | PInf, Fin x => inf_of_sign x
  | Fin x, NInf | NInf, Fin x => inf_of_sign (- x)
  | PInf, PInf | NInf, NInf => PInf
  | PInf, NInf | NInf, PInf => NInf
  end.

(** Division.  A zero is read as the positive zero: a finite non-zero number
    divided by zero is the infinity of its sign, [0 / 0] is not a number. *)
Definition ediv (a b : ereal) : ereal :=
  match a, b with
  | NaN, _ | _, NaN => NaN
  | Fin x, Fin y => if Req_dec_T y 0 then inf_of_sign x else Fin (x / y)
  | Fin _, (PInf | NInf) => Fin 0
  | PInf, Fin y => if Rlt_dec y 0 then NInf else PInf
  | NInf, Fin y => if Rlt_dec y 0 then PInf else NInf
  | (PInf | NInf), (PInf | NInf) => NaN
  end.

#[export] Instance ereal_arith : Arith ereal := {
  d_of_uint z := Fin (IZR z);
  dlit m e := Fin (IZR m / IZR (10 ^ e));
  dadd := eadd;
  dsub := esub;
  dmul := emul;
  ddiv := ediv;
  dneg := eneg
}.

(** [pow] with an unsigned exponent and [exp] on the extended reals, with the
    special cases of C99 annex F: [pow(x, 0)] is 1 for every [x], a
    not-a-number included. *)
Definition epow (a : ereal) (k : Z) : ereal :=
  if k =? 0 then Fin 1
  else
    match a with
    | Fin x => Fin (x ^ Z.to_nat k)
    | PInf => PInf
    | NInf => if Z.odd k then NInf else PInf
    | NaN => NaN
    end.

Definition eexp (a : ereal) : ereal :=
  match a with
  | Fin x => Fin (exp x)
  | PInf => PInf
  | NInf => Fin 0
  | NaN => NaN
  end.

#[export] Instance ereal_libm : LibM ereal := {
  dpow := epow;
  dexp := eexp
}.

(** ** Calibration tables *)

(** [struct afr_point]: the value of a SMART raw attribute and the annual
    failure rate at this value. *)
Record afr_point (D : Type) : Type := mk_afr_point {
  value : Z;
  afr : D
}.

Arguments mk_afr_point {D} _ _.
Arguments value {D} _.
Arguments afr {D} _.

Section Device.

Context {D : Type} {arith : Arith D}.

(** The initializer [{ v, 0.d1..dk }]: [m] is the digit string, [k] the number
    of decimals. *)
Definition pt (v m k : Z) : afr_point D := mk_afr_point v (dlit m k).

(** The initializer [{ v, c }] with an integer constant [c]. *)
Definition pt0 (v c : Z) : afr_point D := mk_afr_point v (d_of_uint c).

Definition AFR_5 : list (afr_point D) :=
  [ pt0 0 0;
    pt 1 (27432608477803388) 18;
    pt 4 (7501976284584981) 17;
    pt 16 (23589260654405794) 17;
    pt 70 (36193219378600433) 17;
    pt 260 (5676621428968173) 16;
    pt 1100 (15028253400346423) 16;
    pt 4500 (20659987547404763) 16;
    pt 17000 (17755385684503124) 16;
    pt0 0 0 ].

Definition AFR_187 : list (afr_point D) :=
  [ pt0 0 0;
    pt 1 (33877621175661743) 17;
    pt 3 (5014425058387142) 16;
    pt 11 (5346094598348444) 16;
    pt 20 (8428063943161636) 16;
    pt 35 (14429071005017484) 16;
    pt 65 (16190935390549661) 16;
    pt0 0 0 ].

Definition AFR_188 : list (afr_point D) :=
  [ pt0 0 0;
    pt 1 (10044174089362015) 17;
    pt 13000000000 (334030592234279) 15;
    pt 26000000000 (36724705400842445) 17;
    pt0 0 0 ].

Definition AFR_193 : list (afr_point D) :=
  [ pt0 0 0;
    pt 1300 (24800489215129725) 18;
    pt 5500 (5859661417772557) 17;
    pt 21000 (19566577603409208) 17;
    pt 90000 (2673688205712117) 16;
    pt0 0 0 ].

Definition AFR_197 : list (afr_point D) :=
  [ pt0 0 0;
    pt 1 (34196613799103254) 17;
    pt 2 (6823772508117681) 16;
    pt 16 (9564879341127684) 16;
    pt 40 (16519989942167461) 16;
    pt 100 (25137741046831956) 16;
    pt 250 (33203378817413904) 16;
    pt0 0 0 ].

Definition AFR_198 : list (afr_point D) :=
  [ pt0 0 0;
    pt 1 (8135764944275583) 16;
    pt 2 (11173469387755102) 16;
    pt 4 (13558692421991083) 16;
    pt 10 (17464114832535886) 16;
    pt 12 (26449275362318843) 16;
    pt0 0 0 ].

(** ** Rate lookup *)

(** [while (tab[i].value != 0 && tab[i].value < value) ++i;]
    The result is the index the loop stops at; a read past the end of the
    array is undefined. *)
Fixpoint afr_scan (fuel : nat) (tab : list (afr_point D)) (val : Z) (i : nat)
  : option nat :=
  match fuel with
  | O => None
  | S fuel' =>
      tab_i <- nth_error tab i ;;
      if negb (value tab_i =? 0) && (value tab_i <? val)
      then afr_scan fuel' tab val (S i)
      else Some i
  end.

(** [smart_afr_value]: the estimated annual failure rate from a set of data
    points. *)
Definition smart_afr_value (tab : list (afr_point D)) (val : Z) : option D :=
  (* if first point *)
  if val =? 0 then Some (d_of_uint 0)
  else
    i <- afr_scan (S (List.length tab)) tab val 1 ;;
    tab_i <- nth_error tab i ;;
    tab_i1 <- nth_error tab (i - 1) ;;
    (* if last point *)
    if value tab_i =? 0 then Some (afr tab_i1)
    (* if exact value *)
    else if value tab_i =? val then Some (afr tab_i)
    else
      let delta_afr := (afr tab_i - afr tab_i1)%D in
      let delta_value := d_of_uint (wrap64 (value tab_i - value tab_i1)) in
      (* linear interpolation between the two points *)
      Some (afr tab_i1
            + d_of_uint (wrap64 (val - value tab_i1)) * delta_afr / delta_value)%D.

(** [afr += smart_afr_value(tab, smart[id])] under the guard
    [smart[id] != SMART_UNASSIGNED]. *)
Definition add_attr (UNASSIGNED : Z) (smart : Z -> Z) (tab : list (afr_point D))
    (id : Z) (acc : D) : option D :=
  if smart id =? UNASSIGNED then Some acc
  else x <- smart_afr_value tab (smart id) ;; Some (acc + x)%D.

(** [smart_afr]: the estimated rate of a set of SMART attributes, the sum over
    the attributes that are assigned.  The array [smart] is a function from its
    indexes; [UNASSIGNED] is the constant [SMART_UNASSIGNED] of a header. *)
Definition smart_afr (UNASSIGNED : Z) (smart : Z -> Z) : option D :=
  afr0 <- Some (d_of_uint 0) ;;
  afr1 <- add_attr UNASSIGNED smart AFR_5 5 afr0 ;;
  afr2 <- add_attr UNASSIGNED smart AFR_187 187 afr1 ;;
  afr3 <- add_attr UNASSIGNED smart AFR_188 188 afr2 ;;
  afr4 <- add_attr UNASSIGNED smart AFR_193 193 afr3 ;;
  afr5 <- add_attr UNASSIGNED smart AFR_197 197 afr4 ;;
  add_attr UNASSIGNED smart AFR_198 198 afr5.

(** ** Poisson distribution *)

(** [while (n > 1) v *= n--;] *)
Fixpoint fact_loop (fuel : nat) (n : Z) (v : D) : D :=
  match fuel with
  | O => v
  | S fuel' =>
      if 1 <? n then fact_loop fuel' (wrap32 (n - 1)) (v * d_of_uint n)%D
      else v
  end.

(** [fact]: the factorial. *)
Definition fact (n : Z) : D := fact_loop (Z.to_nat n) n (d_of_uint 1).

(** [for (i = 0; i < bound; ++i) acc = body(i, acc);] with [unsigned i]. *)
Fixpoint for_up {A : Type} (fuel : nat) (i bound : Z) (body : Z -> A -> A)
    (acc : A) : A :=
  match fuel with
  | O => acc
  | S fuel' =>
      if i <? bound then for_up fuel' (wrap32 (i + 1)) bound body (body i acc)
      else acc
  end.

Context {libm : LibM D}.

(** [poisson_prob_n_failures]: the probability of exactly [n] events in a time
    unit of a Poisson process of rate [rate]. *)
Definition poisson_prob_n_failures (rate : D) (n : Z) : D :=
  (dpow rate n * dexp (- rate) / fact n)%D.

(** [poisson_prob_n_or_more_failures]: the probability of [n] or more events. *)
Definition poisson_prob_n_or_more_failures (rate : D) (n : Z) : D :=
  let p_neg :=
    for_up (Z.to_nat n) 0 n
      (fun i p_neg => (p_neg + poisson_prob_n_failures rate (wrap32 (n - 1 - i)))%D)
      (d_of_uint 0) in
  (d_of_uint 1 - p_neg)%D.

(** ** Data loss of the array *)

(** The value of [MTTDL] after the loop
    [for (i = 0; i < redundancy + 1; ++i) MTTDL /= n - i;]. *)
Definition mttdl_divide (n redundancy : Z) (MTTDL : D) : D :=
  let bound := wrap32 (redundancy + 1) in
  for_up (Z.to_nat bound) 0 bound
    (fun i MTTDL => (MTTDL / d_of_uint (wrap32 (n - i)))%D) MTTDL.

(** [raid_prob_of_one_or_more_failures]: the probability of a data loss in an
    array of [n] members with the given [redundancy], by the MTTDL model. *)
Definition raid_prob_of_one_or_more_failures
    (array_failure_rate replace_rate : D) (n redundancy : Z) : D :=
  (* the Mean Time Between Failure of a single disk *)
  let MTBF := (d_of_uint n / array_failure_rate)%D in
  (* the Mean Time Between Repair *)
  let MTTR := (dlit 10 1 / replace_rate)%D in
  (* the approximated MTTDL equation *)
  let MTTDL := (dpow MTBF (wrap32 (redundancy + 1)) / dpow MTTR redundancy)%D in
  let MTTDL := mttdl_divide n redundancy MTTDL in
  (* the raid failure rate is just the inverse of the MTTDL *)
  let raid_failure_rate := (dlit 10 1 / MTTDL)%D in
  (* probability of at least one RAID failure *)
  poisson_prob_n_or_more_failures raid_failure_rate 1.

End Device.

(** ** Well-formed calibration tables *)

(** A table is its leading point, its breakpoints and the sentinel that ends
    it. *)
Definition table {D : Type} (p0 : afr_point D) (body : list (afr_point D))
    (s : afr_point D) : list (afr_point D) :=
  p0 :: body ++ [s].

(** The invariant of a table: the leading point is at value 0, the values of
    the breakpoints increase strictly and fit [uint64_t], the value of the
    sentinel is 0. *)
Definition monotone_table {D : Type} (p0 : afr_point D)
    (body : list (afr_point D)) (s : afr_point D) : Prop :=
  value p0 = 0 /\
  StronglySorted Z.lt (map value (p0 :: body)) /\
  Forall (fun p => value p <= UINT64_MAX) body /\
  value s = 0.

(** The same invariant as a test. *)
Fixpoint increasing_from (prev : Z) (vs : list Z) : bool :=
  match vs with
  | [] => true
  | v :: vs' => (prev <? v) && (v <=? UINT64_MAX) && increasing_from v vs'
  end.

Definition monotone_tableb {D : Type} (p0 : afr_point D)
    (body : list (afr_point D)) (s : afr_point D) : bool :=
  (value p0 =? 0) && increasing_from 0 (map value body) && (value s =? 0).

(** The breakpoints of a table given as the array of the program: all the
    points but the leading one and the sentinel. *)
Definition breakpoints {D : Type} (tab : list (afr_point D)) : list (afr_point D) :=
  removelast (tl tab).

(** Two points of a table over the extended reals in increasing order: the
    values increase strictly, the rates are finite and do not decrease. *)
Definition pt_le (a b : afr_point ereal) : Prop :=
  value a < value b /\
  exists ra rb, afr a = Fin ra /\ afr b = Fin rb /\ (ra <= rb)%R.

(** A table whose rates do not decrease either: the invariant of the values,
    a finite non-negative rate at the leading point, and rates that do not
    decrease from one point to the next. *)
Definition increasing_table (p0 : afr_point ereal)
    (body : list (afr_point ereal)) (s : afr_point ereal) : Prop :=
  value p0 = 0 /\
  (exists r0, afr p0 = Fin r0 /\ (0 <= r0)%R) /\
  StronglySorted pt_le (p0 :: body) /\
  Forall (fun p => value p <= UINT64_MAX) body /\
  value s = 0.

(** ** The divisors of the MTTDL loop *)

(** The values of [n - i] the loop
    [for (i = 0; i < redundancy + 1; ++i) MTTDL /= n - i;] divides by, in the
    order of the iterations: the same loop, collecting the divisors. *)
Definition mttdl_divisors (n redundancy : Z) : list Z :=
  let bound := wrap32 (redundancy + 1) in
  for_up (Z.to_nat bound) 0 bound (fun i ds => ds ++ [wrap32 (n - i)]) [].

(** The integers [i], [i + 1], ... ([count] of them). *)
Fixpoint upto (i : Z) (count : nat) : list Z :=
  match count with
  | O => []
  | S count' => i :: upto (i + 1) count'
  end.

(** ** The formulas of the model, on real numbers *)

(** The sum [f 0 + f 1 + ... + f (n - 1)]. *)
Fixpoint Rsum (f : nat -> R) (n : nat) : R :=
  match n with
  | O => 0%R
  | S n' => (Rsum f n' + f n')%R
  end.

(** The Poisson probability of exactly [n] events: [rate^n * e^(-rate) / n!]. *)
Definition poisson_pmf (rate : R) (n : nat) : R :=
  (rate ^ n * exp (- rate) / INR (Factorial.fact n))%R.

(** The Poisson probability of [n] or more events:
    [1 - sum for k from 0 to n - 1 of pmf(rate, k)]. *)
Definition poisson_tail (rate : R) (n : nat) : R :=
  (1 - Rsum (poisson_pmf rate) n)%R.

(** The falling product [n * (n - 1) * ... * (n - r)]. *)
Definition falling_product (n r : Z) : Z :=
  fold_left Z.mul (map (fun i => n - i) (upto 0 (S (Z.to_nat r)))) 1.

(** The mean time to data loss:
    [MTBF^(r + 1) / MTTR^r] divided by the falling product, for
    [MTBF = n / array_failure_rate] and [MTTR = 1 / replace_rate]. *)
Definition MTTDL_formula (array_failure_rate replace_rate : R) (n r : Z) : R :=
  let MTBF := (IZR n / array_failure_rate)%R in
  let MTTR := (1 / replace_rate)%R in
  (MTBF ^ S (Z.to_nat r) / MTTR ^ Z.to_nat r / IZR (falling_product n r))%R.

(** The comparison [<] of [double] on the extended reals: a not-a-number
    compares with nothing. *)
Definition elt (a b : ereal) : Prop :=
  match a, b with
  | Fin x, Fin y => (x < y)%R
  | NInf, (Fin _ | PInf) => True
  | Fin _, PInf => True
  | _, _ => False
  end.

(** ** Printing a probability *)

(** The report is printed through [printf] of the C library.  The conversion
    [%W.Pf] of a [double] is modelled as C99 specifies it for a binary64
    number under the default rounding: the exact value is rounded to [P]
    decimals, ties to even, and the text is padded on the left to [W]
    characters.  The text of a not-a-number depends on its sign bit, which
    the binary64 numbers of the kernel do not show: it is left undefined. *)

Local Open Scope string_scope.

Definition digit_char (d : Z) : ascii := ascii_of_nat (48 + Z.to_nat d).

(** The decimal digits of a natural number, without leading zeros. *)
Fixpoint dec_digits (fuel : nat) (z : Z) (acc : string) : string :=
  match fuel with
  | O => acc
  | S fuel' =>
      let acc' := String (digit_char (z mod 10)) acc in
      if (z <? 10)%Z then acc' else dec_digits fuel' (z / 10) acc'
  end.

Definition string_of_Z (z : Z) : string :=
  dec_digits (S (Z.to_nat (Z.log2 z))) z "".

(** The last [p] decimal digits of a natural number, leading zeros included. *)
Fixpoint frac_digits (p : nat) (z : Z) (acc : string) : string :=
  match p with
  | O => acc
  | S p' => frac_digits p' (z / 10) (String (digit_char (z mod 10)) acc)
  end.

Fixpoint spaces (k : nat) : string :=
  match k with
  | O => ""
  | S k' => String " " (spaces k')
  end.

(** Padding on the left to a field of [w] characters. *)
Definition pad_left (w : nat) (s : string) : string :=
  spaces (w - String.length s)%nat ++ s.

(** [m * 2^e * 10^p] rounded to the nearest integer, ties to even. *)
Definition round_scaled (m e : Z) (p : nat) : Z :=
  let num := m * 10 ^ Z.of_nat p in
  if (0 <=? e)%Z then num * 2 ^ e
  else
    let den := 2 ^ (- e) in
    let q := num / den in
    let rem := num mod den in
    match (2 * rem ?= den)%Z with
    | Lt => q
    | Gt => q + 1
    | Eq => if Z.even q then q else q + 1
    end.

(** The digits of a non-negative number with [p] decimals. *)
Definition fixed_digits (m e : Z) (p : nat) : string :=
  let scaled := round_scaled m e p in
  let ip := string_of_Z (scaled / 10 ^ Z.of_nat p) in
  match p with
  | O => ip
  | S _ => ip ++ "." ++ frac_digits p (scaled mod 10 ^ Z.of_nat p) ""
  end.

Definition sign_string (s : bool) : string := if s then "-" else "".

(** The conversion [%w.pf]. *)
Definition format_f (w p : nat) (v : float) : option string :=
  match Prim2SF v with
  | S754_nan => None
  | S754_infinity s => Some (pad_left w (sign_string s ++ "inf"))
  | S754_zero s => Some (pad_left w (sign_string s ++ fixed_digits 0 0 p))
  | S754_finite s m e => Some (pad_left w (sign_string s ++ fixed_digits (Zpos m) e p))
  end.

(** [snprintf(buf, size, "%w.pf%s", v, s)]: the text, cut to [size - 1]
    characters. *)
Definition snprintf_f (size w p : nat) (v : float) (s : string) : option string :=
  num <- format_f w p v ;;
  Some (substring 0 (size - 1)%nat (num ++ s)).

(** [printf(str)] with the text itself as the format and no argument: [%%]
    prints a percent sign, any other conversion is undefined. *)
Fixpoint printf_text (str : string) : option string :=
  match str with
  | "" => Some ""
  | String "%" (String "%" rest) => out <- printf_text rest ;; Some (String "%" out)
  | String "%" _ => None
  | String c rest => out <- printf_text rest ;; Some (String c out)
  end.

(** [while (len < pad) { printf(" "); ++len; }] *)
Fixpoint pad_loop (fuel len pad : nat) (out : string) : string :=
  match fuel with
  | O => out
  | S fuel' =>
      if (len <? pad)%nat then pad_loop fuel' (S len) pad (out ++ " ") else out
  end.

(** [printl]: prints a string with space padding.  The result is the text
    written to the standard output. *)
Definition printl (str : string) (pad : nat) : option string :=
  out <- printf_text str ;;
  let len := String.length str in
  Some (pad_loop pad len pad out).

(** The branch [printp] takes: the field width and the number of decimals of
    its conversion. *)
Definition printp_format (v : float) : nat * nat :=
  if PrimFloat.ltb (dlit 1 1) v then (5, 2)%nat
  else if PrimFloat.ltb (dlit 1 2) v then (6, 3)%nat
  else if PrimFloat.ltb (dlit 1 3) v then (7, 4)%nat
  else if PrimFloat.ltb (dlit 1 4) v then (8, 5)%nat
  else if PrimFloat.ltb (dlit 1 5) v then (9, 6)%nat
  else if PrimFloat.ltb (dlit 1 6) v then (10, 7)%nat
  else if PrimFloat.ltb (dlit 1 7) v then (11, 8)%nat
  else if PrimFloat.ltb (dlit 1 8) v then (12, 9)%nat
  else if PrimFloat.ltb (dlit 1 9) v then (13, 10)%nat
  else if PrimFloat.ltb (dlit 1 10) v then (14, 11)%nat
  else if PrimFloat.ltb (dlit 1 11) v then (15, 12)%nat
  else if PrimFloat.ltb (dlit 1 12) v then (16, 13)%nat
  else (17, 14)%nat.

(** [printp]: prints a probability with space padding. *)
Definition printp (v : float) (pad : nat) : option string :=
  let s := " %%" in
  let '(w, p) := printp_format v in
  buf <- snprintf_f 64%nat w p v s ;;
  printl buf pad.

(** The rule of the decimals as a table: the thresholds from the largest to
    the smallest, with the number of decimals of each row. *)
Definition decimals_table : list (float * nat) :=
  [ (dlit 1 1, 2%nat); (dlit 1 2, 3%nat); (dlit 1 3, 4%nat); (dlit 1 4, 5%nat);
    (dlit 1 5, 6%nat); (dlit 1 6, 7%nat); (dlit 1 7, 8%nat); (dlit 1 8, 9%nat);
    (dlit 1 9, 10%nat); (dlit 1 10, 11%nat); (dlit 1 11, 12%nat);
    (dlit 1 12, 13%nat) ].

(** The decimals of the first row whose threshold is strictly below [v], 14
    when there is none. *)
Fixpoint decimals_of (table : list (float * nat)) (v : float) : nat :=
  match table with
  | [] => 14%nat
  | (threshold, decimals) :: table' =>
      if PrimFloat.ltb threshold v then decimals else decimals_of table' v
  end.

Local Close Scope string_scope.

(** A text without a percent sign. *)
Fixpoint plain (s : string) : Prop :=
  match s with
  | EmptyString => True
  | String c rest => c <> "%"%char /\ plain rest
  end.

(** ** Devices and the state of the array *)

(** The operations of [state_device]. *)
Inductive operation : Type :=
| DEVICE_UP
| DEVICE_DOWN
| DEVICE_LIST
| DEVICE_SMART.

(** [devinfo_t], with the fields the report reads.  The array [smart] is a
    function from its indexes; [parent] is the device record the pointer
    refers to, [None] for a null pointer. *)
#[warnings="-register-all"]
Inductive devinfo : Type := mk_devinfo {
  device : Z;
  name : string;
  mount : string;
  smart : Z -> Z;
  smart_serial : string;
  file : string;
  parent : option devinfo
}.

(** [struct snapraid_disk] and the entries of [state->parity], with the fields
    [state_device] reads. *)
Record snapraid_disk : Type := mk_disk {
  disk_name : string;
  disk_dir : string;
  disk_device : Z
}.

Record snapraid_parity : Type := mk_parity {
  parity_path : string;
  parity_device : Z
}.

Record snapraid_state : Type := mk_state {
  disklist : list snapraid_disk;
  level : Z;
  parity : Z -> snapraid_parity
}.

(** What the program does, in order: the calls of [printf] and
    [fprintf(stderr, ...)] with their format and arguments, the calls of
    [printl] and [printp], and, as a mark that prints nothing, the calls of
    [raid_prob_of_one_or_more_failures] with their arguments. *)
Inductive arg (D : Type) : Type :=
| AString (s : string)
| AUnsigned (z : Z)
| AUint64 (z : Z)
| ADouble (x : D).

Arguments AString {D} _.
Arguments AUnsigned {D} _.
Arguments AUint64 {D} _.
Arguments ADouble {D} _.

Inductive event (D : Type) : Type :=
| Printf (fmt : string) (args : list (arg D))
| FprintfStderr (fmt : string) (args : list (arg D))
| Printl (str : string) (pad : nat)
| Printp (v : D) (pad : nat)
| LossModel (array_failure_rate replace_rate : D) (n redundancy : Z).

Arguments Printf {D} _ _.
Arguments FprintfStderr {D} _ _.
Arguments Printl {D} _ _.
Arguments Printp {D} _ _.
Arguments LossModel {D} _ _ _ _.

(** Modelled from the spec: the constant [RAID_PARITY_MAX] of [raid/raid.h],
    which is not part of the sources at hand; the spec gives the maximum
    redundancy as a small fixed constant, 6. *)
Definition RAID_PARITY_MAX : Z := 6.

(** The characters written ["\n"] and ["\t"] in the program text. *)
Definition nl : string := String (ascii_of_nat 10) EmptyString.
Definition tab_char : string := String (ascii_of_nat 9) EmptyString.

(** The three bytes that follow ["     C"] in the header of the report. *)
Definition degree_bytes : string :=
  String (ascii_of_nat 239) (String (ascii_of_nat 191)
    (String (ascii_of_nat 189) EmptyString)).

Section Dispatcher.

Context {D : Type} {arith : Arith D} {libm : LibM D}.

(** Constants and macros of headers that are not part of the sources at hand:
    the sentinel of an attribute that is not assigned, the indexes of the error
    count and of the size in the array [smart], the format of a [uint64_t],
    and the macros [major] and [minor] of a device number. *)
Variable SMART_UNASSIGNED : Z.
Variable SMART_ERROR : Z.
Variable SMART_SIZE : Z.
Variable PRIu64 : string.
Variables major minor : Z -> Z.

(** Functions of other files: the name of a parity level, the bounded copy of a
    path and the cut of the file name of a path. *)
Variable lev_config_name : Z -> string.
Variable pathcpy : string -> string.
Variable pathcut : string -> string.

(** The device query of the platform: from the requested list and the
    operation, the result code and the resolved list. *)
Variable devquery : list devinfo -> operation -> Z * list devinfo.

(** [true] for the build with [_WIN32] defined. *)
Variable WIN32 : bool.

Local Open Scope string_scope.

(** The largest length of a field over the list, from 0. *)
Definition max_length (field : devinfo -> string) (low : list devinfo) : nat :=
  fold_left
    (fun pad devinfo =>
       let len := String.length (field devinfo) in
       if (pad <? len)%nat then len else pad)
    low 0%nat.

(** The row of a device, its rate [afr] computed. *)
Definition smart_row (device_pad serial_pad : nat) (devinfo : devinfo) (afr : D)
  : list (event D) :=
  [ if negb (smart devinfo 194 =? SMART_UNASSIGNED)%Z
    then Printf ("%7" ++ PRIu64) [AUint64 (smart devinfo 194)]
    else if negb (smart devinfo 190 =? SMART_UNASSIGNED)%Z
    then Printf ("%7" ++ PRIu64) [AUint64 (smart devinfo 190)]
    else Printf "      -" [];
    if negb (smart devinfo 9 =? SMART_UNASSIGNED)%Z
    then Printf ("%7" ++ PRIu64) [AUint64 (smart devinfo 9 / 24)]
    else Printf "      -" [];
    if negb (smart devinfo SMART_ERROR =? SMART_UNASSIGNED)%Z
    then Printf ("%6" ++ PRIu64) [AUint64 (smart devinfo SMART_ERROR)]
    else Printf "     -" [];
    Printf "%5.0f"
      [ADouble (poisson_prob_n_or_more_failures afr 1 * d_of_uint 100)%D];
    if negb (smart devinfo SMART_SIZE =? SMART_UNASSIGNED)%Z
    then Printf "  %2.1f"
           [ADouble (d_of_uint (smart devinfo SMART_SIZE) / dlit (10 ^ 12) 0)%D]
    else Printf "    -" [];
    Printf "  " [];
    if negb (smart_serial devinfo =? "")
    then Printl (smart_serial devinfo) serial_pad
    else Printl "-" serial_pad;
    Printf "  " [];
    if negb (file devinfo =? "")
    then Printl (file devinfo) device_pad
    else Printl "-" device_pad;
    Printf "  " [];
    if negb (name devinfo =? "")
    then Printf "%s" [AString (name devinfo)]
    else Printf "- (not in stats)" [];
    Printf nl [] ].

(** The loop over the devices of the report: the rows, and the value of
    [array_failure_rate] after the loop. *)
Fixpoint smart_rows (device_pad serial_pad : nat) (low : list devinfo)
    (array_failure_rate : D) : option (list (event D) * D) :=
  match low with
  | [] => Some ([], array_failure_rate)
  | devinfo :: rest =>
      afr <- smart_afr SMART_UNASSIGNED (smart devinfo) ;;
      (* use only afr of disks in the array *)
      let array_failure_rate :=
        match parent devinfo with
        | Some _ => (array_failure_rate + afr)%D
        | None => array_failure_rate
        end in
      rows <- smart_rows device_pad serial_pad rest array_failure_rate ;;
      Some ((smart_row device_pad serial_pad devinfo afr ++ fst rows)%list, snd rows)
  end.

(** A cell of the table of the data loss: the call of the model and the call
    of [printp] with its result, as a percentage. *)
Definition loss_cell (array_failure_rate replace_rate : D) (n redundancy : Z)
    (pad : nat) : list (event D) :=
  [ LossModel array_failure_rate replace_rate n redundancy;
    Printp (raid_prob_of_one_or_more_failures
              array_failure_rate replace_rate n redundancy * d_of_uint 100)%D pad ].

(** The body of the loop over [j]. *)
Definition loss_row (array_failure_rate : D) (n j : Z) : list (event D) :=
  let sep := "    " in
  ([ Printf "%6u" [AUnsigned (wrap32 (j + 1))]; Printf sep [] ]
   ++ loss_cell array_failure_rate (dlit 3650 1 / d_of_uint 7)%D n (wrap32 (j + 1)) 20
   ++ [ Printf sep [] ]
   ++ loss_cell array_failure_rate (dlit 3650 1 / d_of_uint 30)%D n (wrap32 (j + 1)) 18
   ++ [ Printf sep [] ]
   ++ loss_cell array_failure_rate (dlit 3650 1 / d_of_uint 90)%D n (wrap32 (j + 1)) 14
   ++ [ Printf nl [] ])%list.

(** [state_smart]: the SMART report for [n] members of the array and the
    resolved list [low]. *)
Definition state_smart (n : Z) (low : list devinfo) : option (list (event D)) :=
  (* compute lengths for padding *)
  let device_pad := max_length file low in
  let serial_pad := max_length smart_serial low in
  let header : list (event D) :=
    [ Printf ("SnapRAID SMART report:" ++ nl) [];
      Printf nl [];
      Printf "   Temp" [];
      Printf "  Power" [];
      Printf "  Error" [];
      Printf " AFP" [];
      Printf " Size" [];
      Printf nl [];
      Printf ("     C" ++ degree_bytes) [];
      Printf " OnDays" [];
      Printf "  Count" [];
      Printf "   %%" [];
      Printf "   TB" [];
      Printf "  " []; Printl "Serial" serial_pad;
      Printf "  " []; Printl "Device" device_pad;
      Printf "  Disk" [];
      Printf nl [];
      Printf (" -----------------------------------------------------------------------" ++ nl) [] ] in
  rows <- smart_rows device_pad serial_pad low (d_of_uint 0) ;;
  let array_failure_rate := snd rows in
  let p_at_least_one_failure :=
    poisson_prob_n_or_more_failures array_failure_rate 1 in
  let summary : list (event D) :=
    [ Printf nl [];
      Printf ("The AFP (Annual Failure Probability) is the probability that the disk is" ++ nl) [];
      Printf ("going to fail in the next year." ++ nl) [];
      Printf nl [];
      Printf ("Probability of at least one disk failure in the next year is: %.0f %%" ++ nl)
        [ADouble (p_at_least_one_failure * d_of_uint 100)%D];
      Printf nl [];
      Printf ("Probability of data loss in the next year for different parity and" ++ nl) [];
      Printf ("scrub/repair times:" ++ nl) [];
      Printf nl [];
      Printf ("  Parity  1 Week                 1 Month              3 Months" ++ nl) [];
      Printf (" -----------------------------------------------------------------------" ++ nl) [] ] in
  let loss_table :=
    for_up (Z.to_nat RAID_PARITY_MAX) 0 RAID_PARITY_MAX
      (fun j out => (out ++ loss_row array_failure_rate n j)%list) [] in
  let footer : list (event D) :=
    [ Printf nl [];
      Printf ("These are the probabilities that in the next year you'll have a sequence" ++ nl) [];
      Printf ("of failures that the parity WONT be able to recover, assuming that you" ++ nl) [];
      Printf ("regularly scrub and repair the full array in the specified time." ++ nl) [] ] in
  Some (header ++ fst rows ++ summary ++ loss_table ++ footer)%list.

(** A zeroed [devinfo_t] with its device, name and mount set. *)
Definition high_entry (dev : Z) (entry_name entry_mount : string) : devinfo :=
  mk_devinfo dev entry_name entry_mount (fun _ => 0%Z) "" "" None.

(** The requested list: the disks, then the parities. *)
Definition high_list (state : snapraid_state) : list devinfo :=
  let disks :=
    map (fun disk =>
           high_entry (disk_device disk) (pathcpy (disk_name disk))
             (pathcpy (disk_dir disk)))
        (disklist state) in
  for_up (Z.to_nat (level state)) 0 (level state)
    (fun j high =>
       (high ++ [ high_entry (parity_device (parity state j))
                    (pathcpy (lev_config_name j))
                    (* remove the parity file *)
                    (pathcut (pathcpy (parity_path (parity state j)))) ])%list)
    disks.

(** The name of the operation in the diagnostic. *)
Definition operation_name (op : operation) : string :=
  match op with
  | DEVICE_UP => "Spinup"
  | DEVICE_DOWN => "Spindown"
  | DEVICE_LIST => "List"
  | DEVICE_SMART => "SMART"
  end.

(** The line of a device in the list of the devices; it reads the fields of
    the parent without a test of the pointer. *)
Definition list_line (devinfo : devinfo) : option (event D) :=
  parent <- parent devinfo ;;
  Some (Printf ("%u:%u" ++ tab_char ++ "%s" ++ tab_char ++ "%u:%u" ++ tab_char
                ++ "%s" ++ tab_char ++ "%s" ++ nl)
          [ AUnsigned (major (device devinfo)); AUnsigned (minor (device devinfo));
            AString (file devinfo);
            AUnsigned (major (device parent)); AUnsigned (minor (device parent));
            AString (file parent); AString (name parent) ]).

Fixpoint list_lines (low : list devinfo) : option (list (event D)) :=
  match low with
  | [] => Some []
  | devinfo :: rest =>
      line <- list_line devinfo ;;
      lines <- list_lines rest ;;
      Some (line :: lines)
  end.

(** The count of the logical disks forming the array:
    [count = state->level; for (...) ++count;]. *)
Definition member_count (state : snapraid_state) : Z :=
  fold_left (fun count _ => wrap32 (count + 1)) (disklist state) (level state).

(** [state_device]. *)
Definition state_device (state : snapraid_state) (op : operation)
  : option (list (event D)) :=
  let start : list (event D) :=
    match op with
    | DEVICE_UP => [ Printf ("Spinup..." ++ nl) [] ]
    | DEVICE_DOWN => [ Printf ("Spindown..." ++ nl) [] ]
    | _ => []
    end in
  let high := high_list state in
  let '(rc, low) := devquery high op in
  let diagnostic : list (event D) :=
    if negb (rc =? 0)%Z
    then [ FprintfStderr (operation_name op) [];
           FprintfStderr (" unsupported in this platform." ++ nl) [] ]
    else [] in
  listing <-
    (if negb WIN32
     then match op with
          | DEVICE_LIST => list_lines low
          | _ => Some []
          end
     else Some []) ;;
  report <-
    (match op with
     | DEVICE_SMART =>
         (* count the logical disks forming the array *)
         state_smart (member_count state) low
     | _ => Some []
     end) ;;
  Some (start ++ diagnostic ++ listing ++ report)%list.

End Dispatcher.

(** ** Observations on a run *)

(** The calls of the model of the data loss in a run, in order: the array
    failure rate, the repair rate, the number of members and the redundancy. *)
Fixpoint loss_calls {D : Type} (trace : list (event D)) : list (D * D * Z * Z) :=
  match trace with
  | [] => []
  | LossModel a rr n r :: rest => (a, rr, n, r) :: loss_calls rest
  | _ :: rest => loss_calls rest
  end.

(** What a run writes to the standard error: formats and arguments. *)
Fixpoint stderr_calls {D : Type} (trace : list (event D))
  : list (string * list (arg D)) :=
  match trace with
  | [] => []
  | FprintfStderr fmt args :: rest => (fmt, args) :: stderr_calls rest
  | _ :: rest => stderr_calls rest
  end.

(** What a run does on the standard output: all the events but the
    diagnostics and the marks of the calls of the model. *)
Fixpoint stdout_events {D : Type} (trace : list (event D)) : list (event D) :=
  match trace with
  | [] => []
  | FprintfStderr _ _ :: rest => stdout_events rest
  | LossModel _ _ _ _ :: rest => stdout_events rest
  | e :: rest => e :: stdout_events rest
  end.

(** The rates of the logical records of a resolved list, the records whose
    parent is set, in the order of the list. *)
Fixpoint logical_rates {D : Type} {arith : Arith D} (SMART_UNASSIGNED : Z)
    (low : list devinfo) : option (list D) :=
  match low with
  | [] => Some []
  | devinfo :: rest =>
      afr <- smart_afr SMART_UNASSIGNED (smart devinfo) ;;
      rates <- logical_rates SMART_UNASSIGNED rest ;;
      Some (match parent devinfo with
            | Some _ => afr :: rates
            | None => rates
            end)
  end.

(** The calls of the model the report makes for the redundancy [r]: a repair
    a week, a month and 3 months. *)
Definition loss_calls_of {D : Type} {arith : Arith D} (a : D) (n r : Z)
  : list (D * D * Z * Z) :=
  [ (a, (dlit 3650 1 / d_of_uint 7)%D, n, r);
    (a, (dlit 3650 1 / d_of_uint 30)%D, n, r);
    (a, (dlit 3650 1 / d_of_uint 90)%D, n, r) ].

(** An event that prints on the standard output. *)
Definition prints {D : Type} (e : event D) : Prop :=
  match e with
  | Printf _ _ | Printl _ _ | Printp _ _ => True
  | FprintfStderr _ _ | LossModel _ _ _ _ => False
  end.

(** The diagnostic [state_device] writes for the result code [rc] of the
    device query. *)
Definition diagnostic_of {D : Type} (op : operation) (rc : Z) : list (event D) :=
  if negb (rc =? 0)
  then [ FprintfStderr (operation_name op) [];
         FprintfStderr (" unsupported in this platform." ++ nl)%string [] ]
  else [].

(** A record of a resolved list is logical when its parent is set. *)
Definition is_logical (d : devinfo) : bool :=
  match parent d with
  | Some _ => true
  | None => false
  end.

(** ** A sample run *)

(** An array of one data disk and one parity, and sample values for what the
    headers and the platform provide.  They serve to run the dispatcher on a
    concrete input. *)
Definition sample_state : snapraid_state :=
  mk_state [ mk_disk "d1" "/mnt/d1/" 2049 ] 1
    (fun _ => mk_parity "/mnt/p/parity" 2065).

Definition sample_physical : devinfo :=
  mk_devinfo 2048 "" "" (fun _ => UINT64_MAX) "S1" "/dev/sda" None.

Definition sample_logical : devinfo :=
  mk_devinfo 2049 "d1" "/mnt/d1/"
    (fun id => if id =? 5 then 16 else UINT64_MAX) "S1" "/dev/sda1"
    (Some sample_physical).

(** A platform that resolves the array to one physical and one logical
    record, and a platform without support. *)
Definition sample_query (high : list devinfo) (op : operation)
  : Z * list devinfo :=
  (0, [ sample_physical; sample_logical ]).

Definition unsupported_query (high : list devinfo) (op : operation)
  : Z * list devinfo :=
  (-1, []).

(** The dispatcher on the sample values, over the extended reals. *)
Definition sample_run (query : list devinfo -> operation -> Z * list devinfo)
    (op : operation) : option (list (event ereal)) :=
  state_device UINT64_MAX 256 257 "lu" (fun d => d / 256) (fun d => d mod 256)
    (fun _ => "parity"%string) (fun s => s) (fun s => s) query false
    sample_state op.

(** ** Further observations *)

(** The attributes [smart_afr] looks at. *)
Definition monitored_attributes : list Z := [5; 187; 188; 193; 197; 198].

(** The points of a table over the extended reals have finite rates between
    [lo] and [hi]. *)
Definition rates_within (lo hi : R) (pts : list (afr_point ereal)) : Prop :=
  Forall (fun p => exists r, afr p = Fin r /\ (lo <= r <= hi)%R) pts.

(** The sum of the largest rates of the six tables, rounded up:
    2.0659... + 1.6190... + 0.3672... + 0.2673... + 3.3203... + 2.6449... *)
Definition AFR_MAX : R := (1029 / 100)%R.


(** The value of the variable [raid_failure_rate] of
    [raid_prob_of_one_or_more_failures], the inverse of the MTTDL. *)
Definition raid_failure_rate {D : Type} {arith : Arith D} {libm : LibM D}
    (array_failure_rate replace_rate : D) (n redundancy : Z) : D :=
  let MTBF := (d_of_uint n / array_failure_rate)%D in
  let MTTR := (dlit 10 1 / replace_rate)%D in
  let MTTDL := (dpow MTBF (wrap32 (redundancy + 1)) / dpow MTTR redundancy)%D in
  let MTTDL := mttdl_divide n redundancy MTTDL in
  (dlit 10 1 / MTTDL)%D.

(** The calls of [printp] in a run, in order: the value and the width. *)
Fixpoint printp_calls {D : Type} (trace : list (event D)) : list (D * nat) :=
  match trace with
  | [] => []
  | Printp v pad :: rest => (v, pad) :: printp_calls rest
  | _ :: rest => printp_calls rest
  end.

(** The calls of [printp] the report makes for the redundancy [r]: the
    estimate as a percentage for a repair a week, a month and 3 months, in
    columns of 20, 18 and 14 characters. *)
Definition printp_calls_of {D : Type} {arith : Arith D} {libm : LibM D}
    (a : D) (n r : Z) : list (D * nat) :=
  [ ((raid_prob_of_one_or_more_failures a (dlit 3650 1 / d_of_uint 7) n r
      * d_of_uint 100)%D, 20%nat);
    ((raid_prob_of_one_or_more_failures a (dlit 3650 1 / d_of_uint 30) n r
      * d_of_uint 100)%D, 18%nat);
    ((raid_prob_of_one_or_more_failures a (dlit 3650 1 / d_of_uint 90) n r
      * d_of_uint 100)%D, 14%nat) ].

(** An event of [printf] or [printl]: it prints, and not through
    [printp]. *)
Definition printf_or_printl {D : Type} (e : event D) : Prop :=
  match e with
  | Printf _ _ | Printl _ _ => True
  | _ => False
  end.

(** * The Windows layer ([mingw.c]) *)

(** ** Conversion of names to UTF-16 *)

(** A [wchar_t] is a UTF-16 code unit; a buffer of [wchar_t] is the list of
    the units written to it, the terminating 0 included. *)
Abbreviation wchar_t := Z (only parsing).

(** The wide character constant [L'c'] of an ASCII character. *)
Definition L (c : ascii) : wchar_t := Z.of_N (N_of_ascii c).

Definition backslash : ascii := ascii_of_nat 92.
Definition slash : ascii := ascii_of_nat 47.
Definition question : ascii := ascii_of_nat 63.
Definition colon : ascii := ascii_of_nat 58.

(** Number of conversion buffers. *)
Definition CONV_ROLL : Z := 4.

(** The static variables [conv_utf16] and [conv_utf16_buffer]: the index of
    the buffer used last, and what each buffer holds.  A pointer to a buffer,
    as the conversions return it, is the index of the buffer. *)
Record conv_state : Type := mk_conv {
  conv_utf16 : Z;
  conv_utf16_buffer : Z -> list wchar_t
}.

(** A function that either returns or ends the process after a message on
    the standard error ([fprintf(stderr, ...); exit(EXIT_FAILURE)]). *)
Inductive outcome (A : Type) : Type :=
| Returns (a : A)
| Exits (message : string).

Arguments Returns {A} _.
Arguments Exits {A} _.

(** [src[i]] of a C string: the terminator is read as 0.  The tests of
    [convert] read [src[i + 1]] only where [src[i]] is not the terminator. *)
Definition char_at (src : string) (i : nat) : ascii :=
  match String.get i src with
  | Some c => c
  | None => Ascii.zero
  end.

(** [src + n] of a C string of at least [n] characters. *)
Definition advance (n : nat) (src : string) : string :=
  substring n (String.length src - n) src.

(** [if (++conv_utf16 == CONV_ROLL) conv_utf16 = 0;] on an [unsigned]. *)
Definition roll (index : Z) : Z :=
  let index := wrap32 (index + 1) in
  if index =? CONV_ROLL then 0 else index.

(** The buffer [index] overwritten. *)
Definition store (buffers : Z -> list wchar_t) (index : Z) (content : list wchar_t)
  : Z -> list wchar_t :=
  fun k => if k =? index then content else buffers k.

(** The loop that converts any [/] to [\], up to the terminator. *)
Fixpoint slash_loop (dst : list wchar_t) : list wchar_t :=
  match dst with
  | [] => []
  | w :: rest =>
      if w =? 0 then dst
      else (if w =? L slash then L backslash else w) :: slash_loop rest
  end.

(** What the loop does to one unit. *)
Definition to_backslash (w : wchar_t) : wchar_t :=
  if w =? L slash then L backslash else w.

(** The wide string a buffer holds: the units before the first 0. *)
Fixpoint wcs (buffer : list wchar_t) : list wchar_t :=
  match buffer with
  | [] => []
  | w :: rest => if w =? 0 then [] else w :: wcs rest
  end.

(** The prefixes [\\?\UNC\] and [\\?\] as [convert] writes them. *)
Definition unc_prefix : list wchar_t :=
  [L backslash; L backslash; L question; L backslash;
   L "U"%char; L "N"%char; L "C"%char; L backslash].

Definition long_prefix : list wchar_t :=
  [L backslash; L backslash; L question; L backslash].

Section Conversion.

(** The size of a buffer, from the headers of the platform. *)
Variable PATH_MAX : Z.

(** [MultiByteToWideChar(CP_UTF8, 0, src, -1, dst, size)] of Windows, for a
    positive [size]: [Some ws] when the call returns a positive number,
    having written the units [ws] and the terminating 0 to [dst]; [None]
    when it returns 0. *)
Variable MultiByteToWideChar : string -> Z -> option (list wchar_t).

Definition u8tou16 (src : string) (st : conv_state)
  : outcome (Z * conv_state) :=
  let index := roll (conv_utf16 st) in
  match MultiByteToWideChar src PATH_MAX with
  | Some ws =>
      Returns (index,
               mk_conv index (store (conv_utf16_buffer st) index (ws ++ [0])))
  | None =>
      Exits ("Error converting name '" ++ src ++ "' from UTF-8 to UTF-16" ++ nl)
  end.

(** The characters [convert] writes before the converted name, and the
    name it converts: the [if] chain on the first characters of [src]. *)
Definition convert_prefix (src : string) : list wchar_t * string :=
  if Ascii.eqb (char_at src 0) backslash && Ascii.eqb (char_at src 1) backslash
     && Ascii.eqb (char_at src 2) question && Ascii.eqb (char_at src 3) backslash
  then ([], src)
  else if Ascii.eqb (char_at src 0) backslash && Ascii.eqb (char_at src 1) backslash
  then (unc_prefix, advance 2 src)
  else if negb (Ascii.eqb (char_at src 0) Ascii.zero)
          && Ascii.eqb (char_at src 1) colon
          && (Ascii.eqb (char_at src 2) backslash || Ascii.eqb (char_at src 2) slash)
  then (long_prefix, src)
  else ([], src).

Definition convert (src : string) (st : conv_state)
  : outcome (Z * conv_state) :=
  let index := roll (conv_utf16 st) in
  let '(dst, src) := convert_prefix src in
  let count := Z.of_nat (List.length dst) in
  match MultiByteToWideChar src (PATH_MAX - count) with
  | Some ws =>
      Returns (index,
               mk_conv index
                 (store (conv_utf16_buffer st) index
                    (dst ++ slash_loop (ws ++ [0]))))
  | None =>
      Exits ("Error converting name '" ++ src ++ "' from UTF-8 to UTF-16" ++ nl)
  end.

(** A call of one of the two conversions to UTF-16. *)
Inductive conversion : Type :=
| Convert (src : string)
| U8tou16 (src : string).

Definition run_conversion (c : conversion) (st : conv_state)
  : outcome (Z * conv_state) :=
  match c with
  | Convert src => convert src st
  | U8tou16 src => u8tou16 src st
  end.

(** Calls in sequence: the pointers returned and the final state. *)
Fixpoint run_conversions (cs : list conversion) (st : conv_state)
  : outcome (list Z * conv_state) :=
  match cs with
  | [] => Returns ([], st)
  | c :: cs =>
      match run_conversion c st with
      | Exits message => Exits message
      | Returns (index, st) =>
          match run_conversions cs st with
          | Exits message => Exits message
          | Returns (indexes, st) => Returns (index :: indexes, st)
          end
      end
  end.

(** [MoveFileExW(convert(a), u8tou16(b), MOVEFILE_REPLACE_EXISTING)] of
    [windows_rename]: the two names the call receives.  C leaves the order
    in which the two arguments are evaluated to the compiler;
    [convert_first] tells whether [convert(a)] is evaluated first. *)
Definition windows_rename_names (convert_first : bool) (a b : string)
    (st : conv_state)
  : outcome (list wchar_t * list wchar_t * conv_state) :=
  if convert_first then
    match convert a st with
    | Exits message => Exits message
    | Returns (pa, st) =>
        match u8tou16 b st with
        | Exits message => Exits message
        | Returns (pb, st) =>
            Returns (wcs (conv_utf16_buffer st pa),
                     wcs (conv_utf16_buffer st pb), st)
        end
    end
  else
    match u8tou16 b st with
    | Exits message => Exits message
    | Returns (pb, st) =>
        match convert a st with
        | Exits message => Exits message
        | Returns (pa, st) =>
            Returns (wcs (conv_utf16_buffer st pa),
                     wcs (conv_utf16_buffer st pb), st)
        end
    end.

End Conversion.

(** The state at the start of the process. *)
Definition conv_init : conv_state := mk_conv 0 (fun _ => []).

(** A sample of [MultiByteToWideChar], for names of ASCII characters: one
    unit for each character, when the units and the terminator fit. *)
Definition ascii_to_wide (src : string) (size : Z) : option (list wchar_t) :=
  if Z.of_nat (String.length src) + 1 <=? size
  then Some (map L (list_ascii_of_string src))
  else None.

(** ** Times and sizes *)

Record FILETIME : Type := mk_filetime {
  dwLowDateTime : Z;
  dwHighDateTime : Z
}.

Record timeval : Type := mk_timeval {
  tv_sec : Z;
  tv_usec : Z
}.

(** [long] of Windows: 32 bits. *)
Definition LONG_MIN : Z := - 2 ^ 31.
Definition LONG_MAX : Z := 2 ^ 31 - 1.

(** The number of 100-nanosecond intervals from 1601 to 1970, the constant
    of the two conversions of times. *)
Definition FILETIME_EPOCH : Z := 116444736000000000.

(** The conversion to the time of Windows in [windows_futimes]: [mtime] is a
    [uint64_t]; [tv_usec * 10] is computed in [long], where an overflow is
    undefined ([None]). *)
Definition futimes_filetime (tv0 : timeval) : option FILETIME :=
  let mtime := wrap64 (tv_sec tv0) in
  let mtime := wrap64 (mtime * 10000000) in
  let usec := tv_usec tv0 * 10 in
  if (LONG_MIN <=? usec) && (usec <=? LONG_MAX) then
    let mtime := wrap64 (mtime + usec) in
    let mtime := wrap64 (mtime + FILETIME_EPOCH) in
    Some (mk_filetime (wrap32 mtime) (wrap32 (Z.shiftr mtime 32)))
  else None.

Record BY_HANDLE_FILE_INFORMATION : Type := mk_info {
  dwFileAttributes : Z;
  ftLastWriteTime : FILETIME;
  dwVolumeSerialNumber : Z;
  nFileSizeHigh : Z;
  nFileSizeLow : Z;
  nNumberOfLinks : Z;
  nFileIndexHigh : Z;
  nFileIndexLow : Z
}.

(** The fields of [WIN32_FIND_DATAW] that the conversions read; the name is
    the wide string that [cFileName] holds. *)
Record WIN32_FIND_DATAW : Type := mk_finddata {
  fd_dwFileAttributes : Z;
  fd_ftLastWriteTime : FILETIME;
  fd_nFileSizeHigh : Z;
  fd_nFileSizeLow : Z;
  cFileName : list wchar_t
}.

(** The file types the conversions assign to [st_mode]. *)
Inductive mode_t : Type := S_IFBLK | S_IFCHR | S_IFDIR | S_IFREG.

(** [struct windows_stat].  Its declaration is in [mingw.h]: [st_size] and
    [st_mtime] are taken as signed 64-bit fields, [st_ino] as an unsigned
    one. *)
Record windows_stat : Type := mk_stat {
  st_mode : mode_t;
  st_desc : string;
  st_hidden : Z;
  st_size : Z;
  st_mtime : Z;
  st_ino : Z;
  st_nlink : Z;
  st_dev : Z
}.

(** [x = high; x <<= 32; x |= low;] on a signed 64-bit [x], for two [DWORD]:
    the shift is undefined ([None]) when its result is not representable. *)
Definition shift_or (high low : Z) : option Z :=
  if Z.shiftl high 32 <=? 2 ^ 63 - 1
  then Some (Z.lor (Z.shiftl high 32) low)
  else None.

Section Stat.

(** The attributes of a file, from the headers of Windows. *)
Variables FILE_ATTRIBUTE_DEVICE FILE_ATTRIBUTE_SYSTEM
          FILE_ATTRIBUTE_REPARSE_POINT FILE_ATTRIBUTE_OFFLINE
          FILE_ATTRIBUTE_TEMPORARY FILE_ATTRIBUTE_DIRECTORY
          FILE_ATTRIBUTE_HIDDEN : Z.

(** The chain that converts the special attributes. *)
Definition special_attributes (attributes : Z) : mode_t * string :=
  if negb (Z.land attributes FILE_ATTRIBUTE_DEVICE =? 0)
  then (S_IFBLK, "device"%string)
  else if negb (Z.land attributes FILE_ATTRIBUTE_SYSTEM =? 0)
  then (S_IFCHR, "system"%string)
  else if negb (Z.land attributes FILE_ATTRIBUTE_REPARSE_POINT =? 0)
  then (S_IFCHR, "reparse-point"%string)
  else if negb (Z.land attributes FILE_ATTRIBUTE_OFFLINE =? 0)
  then (S_IFCHR, "offline"%string)
  else if negb (Z.land attributes FILE_ATTRIBUTE_TEMPORARY =? 0)
  then (S_IFCHR, "temporary"%string)
  else if negb (Z.land attributes FILE_ATTRIBUTE_DIRECTORY =? 0)
  then (S_IFDIR, "directory"%string)
  else (S_IFREG, "regular"%string).

(** [(st_mtime - 116444736000000000LL) / 10000000], a signed division. *)
Definition unix_time (filetime : Z) : Z :=
  Z.quot (filetime - FILETIME_EPOCH) 10000000.

Definition windows_info2stat (info : BY_HANDLE_FILE_INFORMATION)
  : option windows_stat :=
  let '(mode, desc) := special_attributes (dwFileAttributes info) in
  let hidden :=
    if negb (Z.land (dwFileAttributes info) FILE_ATTRIBUTE_HIDDEN =? 0)
    then 1 else 0 in
  size <- shift_or (nFileSizeHigh info) (nFileSizeLow info) ;;
  mtime <- shift_or (dwHighDateTime (ftLastWriteTime info))
             (dwLowDateTime (ftLastWriteTime info)) ;;
  let mtime := unix_time mtime in
  let ino :=
    Z.lor (wrap64 (Z.shiftl (nFileIndexHigh info) 32)) (nFileIndexLow info) in
  Some (mk_stat mode desc hidden size mtime ino
          (nNumberOfLinks info) (dwVolumeSerialNumber info)).

Definition windows_finddata2stat (info : WIN32_FIND_DATAW)
  : option windows_stat :=
  let '(mode, desc) := special_attributes (fd_dwFileAttributes info) in
  let hidden :=
    if negb (Z.land (fd_dwFileAttributes info) FILE_ATTRIBUTE_HIDDEN =? 0)
    then 1 else 0 in
  size <- shift_or (fd_nFileSizeHigh info) (fd_nFileSizeLow info) ;;
  mtime <- shift_or (dwHighDateTime (fd_ftLastWriteTime info))
             (dwLowDateTime (fd_ftLastWriteTime info)) ;;
  let mtime := unix_time mtime in
  Some (mk_stat mode desc hidden size mtime 0 0 0).

End Stat.

(** The values of the attributes in the headers of Windows, for the sample
    runs. *)
Definition sample_info2stat : BY_HANDLE_FILE_INFORMATION -> option windows_stat :=
  windows_info2stat 64 4 1024 4096 256 16 2.

Definition sample_finddata2stat : WIN32_FIND_DATAW -> option windows_stat :=
  windows_finddata2stat 64 4 1024 4096 256 16 2.

(** ** Directories *)

(** [struct windows_dirent]: the name of an entry. *)
Record windows_dirent : Type := mk_dirent {
  d_name : string
}.

(** [windows_dir]: the handle of the search ([None] is
    [INVALID_HANDLE_VALUE]), the flags, and the two buffers, which hold
    nothing ([None]) until they are written. *)
Record windows_dir : Type := mk_dir {
  h : option Z;
  flags : Z;
  data : option WIN32_FIND_DATAW;
  buffer : option windows_dirent
}.

(** The static variables [conv_utf8] and [conv_utf8_buffer]; a buffer is the
    string it holds. *)
Record conv8_state : Type := mk_conv8 {
  conv_utf8 : Z;
  conv_utf8_buffer : Z -> string
}.

Definition store8 (buffers : Z -> string) (index : Z) (content : string)
  : Z -> string :=
  fun k => if k =? index then content else buffers k.

(** What the functions of the directories read and write besides their
    arguments: the buffers of the conversions, [errno], the calls of
    [fprintf] on the standard error (format and argument), and the state of
    Windows. *)
Record process (W : Type) : Type := mk_process {
  utf16 : conv_state;
  utf8 : conv8_state;
  errno : Z;
  stderr : list (string * list Z);
  world : W
}.

Arguments mk_process {W} _ _ _ _ _.
Arguments utf16 {W} _.
Arguments utf8 {W} _.
Arguments errno {W} _.
Arguments stderr {W} _.
Arguments world {W} _.

Definition set_errno {W : Type} (e : Z) (p : process W) : process W :=
  mk_process (utf16 p) (utf8 p) e (stderr p) (world p).

Definition set_world {W : Type} (w : W) (p : process W) : process W :=
  mk_process (utf16 p) (utf8 p) (errno p) (stderr p) w.

Definition set_utf16 {W : Type} (st : conv_state) (p : process W) : process W :=
  mk_process st (utf8 p) (errno p) (stderr p) (world p).

Definition set_utf8 {W : Type} (st : conv8_state) (p : process W) : process W :=
  mk_process (utf16 p) st (errno p) (stderr p) (world p).

Definition fprintf_stderr {W : Type} (fmt : string) (args : list Z)
    (p : process W) : process W :=
  mk_process (utf16 p) (utf8 p) (errno p) (stderr p ++ [(fmt, args)]) (world p).

Section Directory.

(** Sizes from the headers: of a conversion buffer and of the field
    [d_name]. *)
Variables PATH_MAX D_NAME_SIZE : Z.

(** The errors of Windows and the values of [errno], from the headers. *)
Variables ERROR_INVALID_HANDLE ERROR_FILE_NOT_FOUND ERROR_ACCESS_DENIED
          ERROR_BUFFER_OVERFLOW ERROR_NOT_ENOUGH_MEMORY ERROR_NO_MORE_FILES : Z.
Variables EBADF ENOENT EACCES ENAMETOOLONG ENOMEM EIO : Z.

(** The conversions of Windows.  [WideCharToMultiByte(CP_UTF8, 0, src, -1,
    dst, size, 0, 0)] is given the string that [dst] holds before the call
    and gives the number it returns and the string that [dst] holds after
    the call. *)
Variable MultiByteToWideChar : string -> Z -> option (list wchar_t).
Variable WideCharToMultiByte : list wchar_t -> Z -> string -> Z * string.

(** How [fwprintf] writes a wide string. *)
Variable narrow : list wchar_t -> string.

(** The state of Windows and the calls that read and change it: the
    allocation of a directory stream ([true]: a block was allocated), and the
    three calls of a search.  A call that fails gives the error that
    [GetLastError] returns after it. *)
Variable W : Type.
Variable malloc : W -> bool * W.
Variable FindFirstFileW : list wchar_t -> W -> (Z * WIN32_FIND_DATAW + Z) * W.
Variable FindNextFileW : option Z -> W -> (WIN32_FIND_DATAW + Z) * W.
Variable FindClose : Z -> W -> option Z * W.

Definition u16tou8 (src : list wchar_t) (st : conv8_state)
  : outcome (Z * conv8_state) :=
  let index := roll (conv_utf8 st) in
  let '(ret, content) :=
    WideCharToMultiByte src PATH_MAX (conv_utf8_buffer st index) in
  if ret <? 0 then
    Exits ("Error converting name " ++ narrow src ++ " from UTF-16 to UTF-8" ++ nl)
  else
    Returns (index, mk_conv8 index (store8 (conv_utf8_buffer st) index content)).

Definition windows_finddata2dirent (info : WIN32_FIND_DATAW) (st : conv8_state)
  : outcome (windows_dirent * conv8_state) :=
  match u16tou8 (cFileName info) st with
  | Exits message => Exits message
  | Returns (name, st) =>
      let len := Z.of_nat (String.length (conv_utf8_buffer st name)) in
      if len + 1 >=? D_NAME_SIZE then Exits ("Name too long" ++ nl)
      else Returns (mk_dirent (conv_utf8_buffer st name), st)
  end.

Definition windows_errno (error : Z) (p : process W) : process W :=
  if error =? ERROR_INVALID_HANDLE then set_errno EBADF p
  else if error =? ERROR_FILE_NOT_FOUND then set_errno ENOENT p
  else if error =? ERROR_ACCESS_DENIED then set_errno EACCES p
  else if error =? ERROR_BUFFER_OVERFLOW then set_errno ENAMETOOLONG p
  else if error =? ERROR_NOT_ENOUGH_MEMORY then set_errno ENOMEM p
  else set_errno EIO
         (fprintf_stderr ("Unexpected Windows error %d." ++ nl) [error] p).

(** [add final / and *]: the pattern that [windows_opendir] writes in place
    over the converted name [wdir]; [None] when a unit would be written past
    the end of the buffer. *)
Definition opendir_pattern (wdir : list wchar_t) : option (list wchar_t) :=
  let len := Z.of_nat (List.length wdir) in
  let pattern :=
    if negb (len =? 0) && negb (last wdir 0 =? L backslash)
    then wdir ++ [L backslash; L "*"%char]
    else wdir ++ [L "*"%char] in
  if Z.of_nat (List.length pattern) + 1 <=? PATH_MAX then Some pattern else None.

(** [windows_opendir]: [None] is undefined behaviour; a stream [None] is the
    null pointer. *)
Definition windows_opendir (dir : string) (p : process W)
  : option (outcome (option windows_dir * process W)) :=
  let '(allocated, w) := malloc (world p) in
  if negb allocated then Some (Exits ("Low memory" ++ nl))
  else
    match convert PATH_MAX MultiByteToWideChar dir (utf16 p) with
    | Exits message => Some (Exits message)
    | Returns (wdir, st) =>
        match opendir_pattern (wcs (conv_utf16_buffer st wdir)) with
        | None => None
        | Some pattern =>
            let st :=
              mk_conv (conv_utf16 st)
                (store (conv_utf16_buffer st) wdir (pattern ++ [0])) in
            let p := set_utf16 st p in
            match FindFirstFileW pattern w with
            | (inr error, w) =>
                let p := set_world w p in
                if error =? ERROR_FILE_NOT_FOUND
                then Some (Returns (Some (mk_dir None (-1) None None), p))
                else Some (Returns (None, windows_errno error p))
            | (inl (handle, found), w) =>
                let p := set_world w p in
                match windows_finddata2dirent found (utf8 p) with
                | Exits message => Some (Exits message)
                | Returns (dirent, st8) =>
                    Some (Returns
                            (Some (mk_dir (Some handle) 1 (Some found) (Some dirent)),
                             set_utf8 st8 p))
                end
            end
        end
    end.

(** [windows_readdir]: the entry returned is what [&dirstream->buffer] holds
    at the return; [None] is the null pointer. *)
Definition windows_readdir (dirstream : windows_dir) (p : process W)
  : outcome (option windows_dirent * windows_dir * process W) :=
  if flags dirstream =? -1 then
    Returns (None, dirstream, set_errno 0 p)
  else if flags dirstream =? 1 then
    let dirstream :=
      mk_dir (h dirstream) 0 (data dirstream) (buffer dirstream) in
    Returns (buffer dirstream, dirstream, p)
  else
    match FindNextFileW (h dirstream) (world p) with
    | (inr error, w) =>
        let p := set_world w p in
        if error =? ERROR_NO_MORE_FILES
        then Returns (None, dirstream, set_errno 0 p)
        else Returns (None, dirstream, windows_errno error p)
    | (inl found, w) =>
        let p := set_world w p in
        match windows_finddata2dirent found (utf8 p) with
        | Exits message => Exits message
        | Returns (dirent, st8) =>
            Returns (Some dirent,
                     mk_dir (h dirstream) (flags dirstream) (Some found)
                       (Some dirent),
                     set_utf8 st8 p)
        end
    end.

Definition windows_closedir (dirstream : windows_dir) (p : process W)
  : Z * process W :=
  match h dirstream with
  | Some handle =>
      match FindClose handle (world p) with
      | (Some error, w) => (-1, windows_errno error (set_world w p))
      | (None, w) => (0, set_world w p)
      end
  | None => (0, p)
  end.

(** The conversion of Windows makes [name] of the name of the entry [found],
    whatever the buffer holds before the call, and [name] fits in
    [d_name]. *)
Definition converts (found : WIN32_FIND_DATAW) (name : string) : Prop :=
  (forall before, exists ret,
     0 <= ret /\
     WideCharToMultiByte (cFileName found) PATH_MAX before = (ret, name)) /\
  Z.of_nat (String.length name) + 1 < D_NAME_SIZE.

(** A caller that reads a directory to its end: the entries that
    [windows_readdir] returns before the first null pointer, at most [fuel]
    of them. *)
Fixpoint read_entries (fuel : nat) (dirstream : windows_dir) (p : process W)
  : outcome (list windows_dirent * bool * windows_dir * process W) :=
  match fuel with
  | O => Returns ([], false, dirstream, p)
  | S fuel =>
      match windows_readdir dirstream p with
      | Exits message => Exits message
      | Returns (None, dirstream, p) => Returns ([], true, dirstream, p)
      | Returns (Some entry, dirstream, p) =>
          match read_entries fuel dirstream p with
          | Exits message => Exits message
          | Returns (entries, ended, dirstream, p) =>
              Returns (entry :: entries, ended, dirstream, p)
          end
      end
  end.

(** Windows answers the next calls of [FindNextFileW] on [handle] with the
    entries [found], and the call after them with an error. *)
Fixpoint answers (handle : option Z) (found : list WIN32_FIND_DATAW)
    (error : Z) (w : W) : Prop :=
  match found with
  | [] => fst (FindNextFileW handle w) = inr error
  | entry :: found =>
      fst (FindNextFileW handle w) = inl entry /\
      answers handle found error (snd (FindNextFileW handle w))
  end.

End Directory.

(** *** A sample of Windows *)

(** A state of Windows for the sample runs: the entries of the one
    directory that are still to be found. *)
Definition sample_world : Type := list WIN32_FIND_DATAW.

Definition sample_malloc (w : sample_world) : bool * sample_world := (true, w).

Definition sample_FindFirstFileW (pattern : list wchar_t) (w : sample_world)
  : (Z * WIN32_FIND_DATAW + Z) * sample_world :=
  match w with
  | [] => (inr 2, [])
  | entry :: w => (inl (7, entry), w)
  end.

Definition sample_FindNextFileW (handle : option Z) (w : sample_world)
  : (WIN32_FIND_DATAW + Z) * sample_world :=
  match w with
  | [] => (inr 18, [])
  | entry :: w => (inl entry, w)
  end.

Definition sample_FindClose (handle : Z) (w : sample_world)
  : option Z * sample_world := (None, w).

(** Names of ASCII characters back from UTF-16. *)
Definition wide_to_ascii (src : list wchar_t) (size : Z) (before : string)
  : Z * string :=
  if Z.of_nat (List.length src) + 1 <=? size
  then (Z.of_nat (List.length src) + 1,
        string_of_list_ascii (map (fun w => ascii_of_N (Z.to_N w)) src))
  else (0, before).

Definition sample_entry (name : string) : WIN32_FIND_DATAW :=
  mk_finddata 32 (mk_filetime 3577643008 29389701) 0 10
    (map L (list_ascii_of_string name)).

Definition sample_process (w : sample_world) : process sample_world :=
  mk_process conv_init (mk_conv8 0 (fun _ => EmptyString)) 0 [] w.

(** The functions of the directories on the sample of Windows, with the
    values of the headers of Windows: buffers of 260 units, the errors 6, 2,
    5, 111, 8 and 18. *)
Definition sample_opendir (dir : string) (p : process sample_world)
  : option (outcome (option windows_dir * process sample_world)) :=
  windows_opendir 260 260 6 2 5 111 8 9 2 13 38 12 5 ascii_to_wide wide_to_ascii
    (fun _ => EmptyString) sample_world sample_malloc sample_FindFirstFileW dir p.

Definition sample_read_entries (fuel : nat) (dirstream : windows_dir)
    (p : process sample_world)
  : outcome (list windows_dirent * bool * windows_dir * process sample_world) :=
  read_entries 260 260 6 2 5 111 8 18 9 2 13 38 12 5 wide_to_ascii
    (fun _ => EmptyString) sample_world sample_FindNextFileW fuel dirstream p.

(** * Properties *)

(** ** Machine integers *)

Lemma wrap32_small (z : Z) : 0 <= z <= UINT_MAX -> wrap32 z = z.
Proof. unfold wrap32, UINT_MAX. intros H. apply Z.mod_small. lia. Qed.

Lemma wrap64_small (z : Z) : 0 <= z <= UINT64_MAX -> wrap64 z = z.
Proof. unfold wrap64, UINT64_MAX. intros H. apply Z.mod_small. lia. Qed.

Lemma bind_some {A B : Type} (a : A) (k : A -> option B) :
  bind (Some a) k = k a.
Proof. reflexivity. Qed.

(** ** Sorted lists *)

Lemma sorted_nth {A : Type} (R : A -> A -> Prop) (l : list A) :
  StronglySorted R l ->
  forall i j a b, (i < j)%nat ->
    nth_error l i = Some a -> nth_error l j = Some b -> R a b.
Proof.
  induction 1 as [|x l Hs IH Hall]; intros i j a b Hij Hi Hj.
  - destruct i; discriminate.
  - destruct j as [|j]; [lia|].
    destruct i as [|i]; simpl in Hi, Hj.
    + injection Hi as <-.
      rewrite Forall_forall in Hall. apply Hall.
      eapply nth_error_In; eauto.
    + apply (IH i j); auto. lia.
Qed.

Lemma increasing_from_sorted (prev : Z) (vs : list Z) :
  increasing_from prev vs = true ->
  StronglySorted Z.lt (prev :: vs) /\ Forall (fun v => v <= UINT64_MAX) vs.
Proof.
  revert prev; induction vs as [|v vs IH]; intros prev H; simpl in H.
  - split; repeat constructor.
  - apply andb_prop in H as [H H3]. apply andb_prop in H as [H1 H2].
    apply Z.ltb_lt in H1. apply Z.leb_le in H2.
    destruct (IH _ H3) as [Hs Hb]. split.
    + constructor; auto. constructor; auto.
      inversion Hs as [|? ? _ Hall]; subst.
      eapply Forall_impl; [|exact Hall]. simpl; intros; lia.
    + constructor; auto.
Qed.

Lemma monotone_tableb_ok {D : Type} (p0 : afr_point D) body s :
  monotone_tableb p0 body s = true -> monotone_table p0 body s.
Proof.
  unfold monotone_tableb, monotone_table. intros H.
  apply andb_prop in H as [H H3]. apply andb_prop in H as [H1 H2].
  apply Z.eqb_eq in H1. apply Z.eqb_eq in H3.
  destruct (increasing_from_sorted _ _ H2) as [Hs Hb].
  repeat split; auto.
  - simpl. rewrite H1. exact Hs.
  - rewrite Forall_map in Hb. exact Hb.
Qed.

(** ** Lists *)

Lemma last_nonempty {A : Type} (l : list A) (d d' : A) :
  l <> [] -> last l d = last l d'.
Proof.
  induction l as [|a l IH]; intros Hne; [congruence|].
  destruct l as [|b l]; [reflexivity|].
  change (last (b :: l) d = last (b :: l) d'). apply IH. discriminate.
Qed.

Lemma nth_error_last {A : Type} (l : list A) (d : A) :
  nth_error (d :: l) (List.length l) = Some (last l d).
Proof.
  revert d; induction l as [|a l IH]; intros d; [reflexivity|].
  simpl List.length. change (nth_error (a :: l) (List.length l) = Some (last (a :: l) d)).
  rewrite IH. destruct l as [|b l]; [reflexivity|].
  f_equal. change (last (a :: b :: l) d) with (last (b :: l) d).
  apply last_nonempty. discriminate.
Qed.

(** ** The rate lookup [smart_afr_value] *)

Section Lookup.

Context {D : Type} {arith : Arith D}.

(** The scan stops at the first index [k >= i] whose point is the sentinel or
    is not below the value looked up. *)
Lemma afr_scan_stop (tab : list (afr_point D)) (val : Z) (k : nat) (tk : afr_point D) :
  nth_error tab k = Some tk ->
  (value tk = 0 \/ val <= value tk) ->
  forall fuel i,
    (i <= k)%nat -> (k - i < fuel)%nat ->
    (forall j p, (i <= j < k)%nat -> nth_error tab j = Some p ->
                 value p <> 0 /\ value p < val) ->
    afr_scan fuel tab val i = Some k.
Proof.
  intros Hk Hstop. induction fuel as [|fuel IH]; intros i Hik Hfuel Hbelow.
  - lia.
  - simpl. destruct (Nat.eq_dec i k) as [->|Hne].
    + rewrite Hk. simpl.
      replace (negb (value tk =? 0) && (value tk <? val)) with false; [reflexivity|].
      symmetry. destruct Hstop as [H0|Hge].
      * rewrite H0. reflexivity.
      * apply andb_false_iff. right. apply Z.ltb_ge. exact Hge.
    + assert (Hlt : (i < List.length tab)%nat).
      { apply Nat.lt_le_trans with (S k); [lia|].
        apply Nat.le_succ_l. apply nth_error_Some. congruence. }
      destruct (nth_error tab i) as [p|] eqn:Hi.
      2:{ apply nth_error_None in Hi. lia. }
      simpl. destruct (Hbelow i p) as [Hnz Hb]; [lia|exact Hi|].
      replace (negb (value p =? 0) && (value p <? val)) with true.
      * apply IH; [lia|lia|]. intros j q Hj. apply Hbelow. lia.
      * symmetry. apply andb_true_iff. split.
        -- apply negb_true_iff. apply Z.eqb_neq. exact Hnz.
        -- apply Z.ltb_lt. exact Hb.
Qed.

Variables (p0 : afr_point D) (body : list (afr_point D)) (s : afr_point D).
Hypothesis Hwf : monotone_table p0 body s.

Let tab := table p0 body s.

Lemma table_nth_head (j : nat) :
  (j <= List.length body)%nat ->
  nth_error tab j = nth_error (p0 :: body) j.
Proof.
  intros Hj. unfold tab, table.
  change (p0 :: body ++ [s]) with ((p0 :: body) ++ [s]).
  apply nth_error_app1. simpl. lia.
Qed.

Lemma table_nth_sentinel : nth_error tab (S (List.length body)) = Some s.
Proof.
  unfold tab, table. simpl. rewrite nth_error_app2 by lia.
  rewrite Nat.sub_diag. reflexivity.
Qed.

Lemma table_length : List.length tab = S (S (List.length body)).
Proof. unfold tab, table. simpl. rewrite length_app. simpl. lia. Qed.

(** The values of the points before the sentinel increase with the index. *)
Lemma table_values_lt (i j : nat) (a b : afr_point D) :
  (i < j)%nat ->
  nth_error (p0 :: body) i = Some a -> nth_error (p0 :: body) j = Some b ->
  value a < value b.
Proof.
  intros Hij Ha Hb. destruct Hwf as (_ & Hs & _).
  apply (sorted_nth Z.lt _ Hs i j); auto.
  - rewrite nth_error_map, Ha. reflexivity.
  - rewrite nth_error_map, Hb. reflexivity.
Qed.

Lemma table_value_pos (j : nat) (p : afr_point D) :
  (1 <= j)%nat -> nth_error (p0 :: body) j = Some p -> 0 < value p.
Proof.
  intros Hj Hp. destruct Hwf as (H0 & _). rewrite <- H0.
  apply (table_values_lt 0 j); auto.
Qed.

Lemma table_value_max (j : nat) (p : afr_point D) :
  nth_error (p0 :: body) j = Some p -> value p <= UINT64_MAX.
Proof.
  intros Hp. destruct Hwf as (H0 & _ & Hb & _). destruct j as [|j]; simpl in Hp.
  - injection Hp as <-. rewrite H0. unfold UINT64_MAX. lia.
  - rewrite Forall_forall in Hb. apply Hb. eapply nth_error_In; eauto.
Qed.

(** Where the scan stops, for a value that is not 0: at the first point from
    index 1 on that is the sentinel or whose value is not below [val]. *)
Lemma afr_scan_table (val : Z) (k : nat) (tk : afr_point D) :
  (1 <= k)%nat ->
  nth_error tab k = Some tk ->
  (value tk = 0 \/ val <= value tk) ->
  (forall p, nth_error (p0 :: body) (k - 1) = Some p -> value p < val) ->
  afr_scan (S (List.length tab)) tab val 1 = Some k.
Proof.
  intros Hk Htk Hstop Hprev.
  assert (Hklen : (k < List.length tab)%nat) by (apply nth_error_Some; congruence).
  rewrite table_length in Hklen.
  apply (afr_scan_stop tab val k tk Htk Hstop); [lia|rewrite table_length; lia|].
  intros j p Hj Hp. rewrite table_nth_head in Hp by lia.
  split.
  - pose proof (table_value_pos j p ltac:(lia) Hp). lia.
  - destruct (Nat.eq_dec j (k - 1)) as [->|Hne]; [auto|].
    destruct (nth_error (p0 :: body) (k - 1)) as [q|] eqn:Hq.
    + pose proof (table_values_lt j (k - 1) p q ltac:(lia) Hp Hq).
      specialize (Hprev q eq_refl). lia.
    + apply nth_error_None in Hq. simpl in Hq. lia.
Qed.

(** Flat extrapolation: a value above every breakpoint gets the rate of the
    last point before the sentinel. *)
Lemma smart_afr_value_above (val : Z) :
  (forall p, In p (p0 :: body) -> value p < val) ->
  smart_afr_value tab val = Some (afr (last body p0)).
Proof.
  intros Habove.
  assert (Hlast : nth_error (p0 :: body) (List.length body) = Some (last body p0)).
  { apply nth_error_last. }
  assert (Hv0 : val <> 0).
  { destruct Hwf as (H0 & _). specialize (Habove p0 (or_introl eq_refl)). lia. }
  unfold smart_afr_value. apply Z.eqb_neq in Hv0. rewrite Hv0.
  rewrite (afr_scan_table val (S (List.length body)) s);
    [|lia|apply table_nth_sentinel|left; apply Hwf|].
  - rewrite bind_some. rewrite table_nth_sentinel. rewrite bind_some.
    replace (S (List.length body) - 1)%nat with (List.length body) by lia.
    rewrite table_nth_head by lia. rewrite Hlast. rewrite bind_some.
    destruct Hwf as (_ & _ & _ & Hs). rewrite Hs. reflexivity.
  - replace (S (List.length body) - 1)%nat with (List.length body) by lia.
    rewrite Hlast. intros p [= <-]. apply Habove.
    eapply nth_error_In; eauto.
Qed.

(** The last point before the sentinel has the largest value. *)
Lemma table_value_le_last (p : afr_point D) :
  In p (p0 :: body) -> value p <= value (last body p0).
Proof.
  intros Hp. apply In_nth_error in Hp as [i Hi].
  assert (Hlen : (i < List.length (p0 :: body))%nat) by (apply nth_error_Some; congruence).
  simpl in Hlen. pose proof (nth_error_last body p0) as Hl.
  destruct (Nat.eq_dec i (List.length body)) as [->|Hne].
  - rewrite Hl in Hi. injection Hi as <-. lia.
  - pose proof (table_values_lt i (List.length body) p (last body p0)
                  ltac:(lia) Hi Hl). lia.
Qed.

(** A value above the last breakpoint is above every breakpoint. *)
Lemma smart_afr_value_above_last (val : Z) :
  value (last body p0) < val ->
  smart_afr_value tab val = Some (afr (last body p0)).
Proof.
  intros Hlast. apply smart_afr_value_above.
  intros p Hp. pose proof (table_value_le_last p Hp). lia.
Qed.

(** A value that is the value of a breakpoint gets the rate of the
    breakpoint. *)
Lemma smart_afr_value_exact (p : afr_point D) :
  In p body -> smart_afr_value tab (value p) = Some (afr p).
Proof.
  intros Hin. apply In_nth_error in Hin as [j Hj].
  assert (Hjlen : (j < List.length body)%nat) by (apply nth_error_Some; congruence).
  assert (Hp : nth_error (p0 :: body) (S j) = Some p) by exact Hj.
  pose proof (table_value_pos (S j) p ltac:(lia) Hp) as Hpos.
  unfold smart_afr_value.
  replace (value p =? 0) with false by (symmetry; apply Z.eqb_neq; lia).
  rewrite (afr_scan_table (value p) (S j) p);
    [|lia|rewrite table_nth_head by lia; exact Hp|right; lia|].
  - rewrite bind_some. rewrite table_nth_head by lia. rewrite Hp. rewrite bind_some.
    rewrite table_nth_head by lia.
    destruct (nth_error (p0 :: body) (S j - 1)) as [q|] eqn:Hq.
    2:{ apply nth_error_None in Hq. simpl in Hq. lia. }
    rewrite bind_some.
    replace (value p =? 0) with false by (symmetry; apply Z.eqb_neq; lia).
    rewrite Z.eqb_refl. reflexivity.
  - intros q Hq. apply (table_values_lt (S j - 1) (S j) q p); auto. lia.
Qed.

(** Between two consecutive points the rate is interpolated linearly, and the
    two subtractions on [uint64_t] do not wrap. *)
Lemma smart_afr_value_between (pre post : list (afr_point D))
    (lo hi : afr_point D) (val : Z) :
  p0 :: body = pre ++ lo :: hi :: post ->
  value lo < val < value hi ->
  smart_afr_value tab val =
    Some (afr lo + d_of_uint (val - value lo) * (afr hi - afr lo)
                   / d_of_uint (value hi - value lo))%D.
Proof.
  intros Hsplit [Hlo Hhi].
  set (k := S (List.length pre)).
  assert (Hnlo : nth_error (p0 :: body) (List.length pre) = Some lo).
  { rewrite Hsplit, nth_error_app2 by lia. rewrite Nat.sub_diag. reflexivity. }
  assert (Hnhi : nth_error (p0 :: body) k = Some hi).
  { rewrite Hsplit. unfold k. rewrite nth_error_app2 by lia.
    replace (S (List.length pre) - List.length pre)%nat with 1%nat by lia.
    reflexivity. }
  assert (Hklen : (k <= List.length body)%nat).
  { assert (k < List.length (p0 :: body))%nat by (apply nth_error_Some; congruence).
    simpl in H. lia. }
  assert (Hlo0 : 0 <= value lo).
  { destruct (List.length pre) as [|n] eqn:Hn.
    - simpl in Hnlo. injection Hnlo as <-. destruct Hwf as (H0 & _). lia.
    - pose proof (table_value_pos (S n) lo ltac:(lia) Hnlo). lia. }
  pose proof (table_value_max k hi Hnhi) as Hmax.
  unfold smart_afr_value.
  replace (val =? 0) with false by (symmetry; apply Z.eqb_neq; lia).
  rewrite (afr_scan_table val k hi);
    [|unfold k; lia|rewrite table_nth_head by lia; exact Hnhi|right; lia|].
  - rewrite bind_some. rewrite table_nth_head by lia. rewrite Hnhi. rewrite bind_some.
    rewrite table_nth_head by lia.
    replace (k - 1)%nat with (List.length pre) by (unfold k; lia).
    rewrite Hnlo. rewrite bind_some.
    replace (value hi =? 0) with false by (symmetry; apply Z.eqb_neq; lia).
    replace (value hi =? val) with false by (symmetry; apply Z.eqb_neq; lia).
    rewrite !wrap64_small by lia. reflexivity.
  - replace (k - 1)%nat with (List.length pre) by (unfold k; lia).
    rewrite Hnlo. intros p [= <-]. exact Hlo.
Qed.

End Lookup.

(** The decimal constants of the program are read as the compiler reads them:
    the binary64 number nearest to the decimal value. *)
Lemma dlit_binary64 :
  dlit (D := float) 1 1 = 0x1.999999999999ap-4%float /\
  dlit (D := float) 1 2 = 0x1.47ae147ae147bp-7%float /\
  dlit (D := float) 1 12 = 0x1.19799812dea11p-40%float /\
  dlit (D := float) 27432608477803388 18 = 0x1.c174b31064903p-6%float /\
  dlit (D := float) 20659987547404763 16 = 0x1.0872a5ae97f1fp+1%float /\
  dlit (D := float) 17755385684503124 16 = 0x1.c689b21447df3p+0%float /\
  dlit (D := float) 3650 1 = 0x1.6dp+8%float.
Proof. repeat split; vm_compute; reflexivity. Qed.

Lemma compiled_tables_shape {D : Type} {arith : Arith D} (tab : list (afr_point D)) :
  In tab [AFR_5; AFR_187; AFR_188; AFR_193; AFR_197; AFR_198] ->
  tab = table (pt0 0 0) (breakpoints tab) (pt0 0 0).
Proof.
  simpl. intros [<-|[<-|[<-|[<-|[<-|[<-|[]]]]]]]; reflexivity.
Qed.

(** The six compiled-in tables satisfy the invariant. *)
Lemma compiled_tables_monotone {D : Type} {arith : Arith D} (tab : list (afr_point D)) :
  In tab [AFR_5; AFR_187; AFR_188; AFR_193; AFR_197; AFR_198] ->
  monotone_table (pt0 0 0) (breakpoints tab) (pt0 0 0).
Proof.
  simpl. intros [<-|[<-|[<-|[<-|[<-|[<-|[]]]]]]];
    apply monotone_tableb_ok; reflexivity.
Qed.

(** C4.  For every table that satisfies the invariant: the value 0 gets the
    rate 0; a value above the last breakpoint gets the rate of the last point
    before the sentinel; the value of a breakpoint gets the rate of this
    breakpoint; a value strictly between two consecutive points [lo] and [hi]
    gets [afr lo + (val - value lo) * (afr hi - afr lo) / (value hi - value lo)],
    the differences of the values being taken without wrap-around.  The
    statement holds for every arithmetic, the binary64 one included. *)
Theorem smart_afr_value_interpolates {D : Type} {arith : Arith D}
    (p0 : afr_point D) (body : list (afr_point D)) (s : afr_point D) :
  monotone_table p0 body s ->
  smart_afr_value (table p0 body s) 0 = Some (d_of_uint 0) /\
  (forall val, value (last body p0) < val ->
     smart_afr_value (table p0 body s) val = Some (afr (last body p0))) /\
  (forall p, In p body ->
     smart_afr_value (table p0 body s) (value p) = Some (afr p)) /\
  (forall pre lo hi post val,
     p0 :: body = pre ++ lo :: hi :: post ->
     value lo < val < value hi ->
     smart_afr_value (table p0 body s) val =
       Some (afr lo + d_of_uint (val - value lo) * (afr hi - afr lo)
                      / d_of_uint (value hi - value lo))%D).
Proof.
  intros Hwf. split; [reflexivity|]. split; [|split].
  - intros val. apply smart_afr_value_above_last; assumption.
  - intros p. apply smart_afr_value_exact; assumption.
  - intros pre lo hi post val. apply smart_afr_value_between; assumption.
Qed.

(** The theorem at the table of attribute 5 in binary64: the values 0, 20000
    (above the last breakpoint 17000), 16 (a breakpoint) and 100 (between the
    breakpoints 70 and 260). *)
Lemma smart_afr_value_interpolates_witness :
  monotone_table (D := float) (pt0 0 0) (breakpoints AFR_5) (pt0 0 0) /\
  smart_afr_value (D := float) AFR_5 0 = Some (float_of_Z 0) /\
  smart_afr_value (D := float) AFR_5 20000 = Some (dlit 17755385684503124 16) /\
  smart_afr_value (D := float) AFR_5 16 = Some (dlit 23589260654405794 17) /\
  smart_afr_value (D := float) AFR_5 100 =
    Some (dlit 36193219378600433 17
          + float_of_Z 30 * (dlit 5676621428968173 16 - dlit 36193219378600433 17)
            / float_of_Z 190)%D.
Proof.
  assert (Hwf : monotone_table (D := float) (pt0 0 0) (breakpoints AFR_5) (pt0 0 0)).
  { apply monotone_tableb_ok. reflexivity. }
  split; [exact Hwf|].
  destruct (smart_afr_value_interpolates _ _ _ Hwf) as (H0 & Habove & Hexact & Hbetween).
  set (p16 := pt (D := float) 16 23589260654405794 17).
  set (p70 := pt (D := float) 70 36193219378600433 17).
  set (p260 := pt (D := float) 260 5676621428968173 16).
  split; [exact H0|]. split; [|split].
  - change (smart_afr_value (table (pt0 0 0) (breakpoints AFR_5) (pt0 0 0)) 20000
            = Some (afr (last (breakpoints AFR_5) (pt0 (D := float) 0 0)))).
    apply Habove. cbv [breakpoints AFR_5 removelast tl last value pt]. lia.
  - change (smart_afr_value (table (pt0 0 0) (breakpoints AFR_5) (pt0 0 0)) (value p16)
            = Some (afr p16)).
    apply Hexact. cbv [breakpoints AFR_5 removelast tl In]. tauto.
  - change (smart_afr_value (table (pt0 0 0) (breakpoints AFR_5) (pt0 0 0)) 100
            = Some (afr p70 + d_of_uint (100 - value p70) * (afr p260 - afr p70)
                              / d_of_uint (value p260 - value p70))%D).
    apply (Hbetween [pt0 0 0; pt 1 27432608477803388 18; pt 4 7501976284584981 17;
                     pt 16 23589260654405794 17]
                    p70 p260
                    [pt 1100 15028253400346423 16; pt 4500 20659987547404763 16;
                     pt 17000 17755385684503124 16] 100).
    + reflexivity.
    + cbv [value pt p70 p260]. lia.
Defined.

(** ** Monotony of the lookup *)

(** Where a value that is not 0 falls in a list of points that starts below
    it. *)
Lemma locate_value {D : Type} (val : Z) (body : list (afr_point D)) :
  forall p0 : afr_point D,
  value p0 < val ->
  (forall p, In p (p0 :: body) -> value p < val) \/
  (exists p, In p body /\ value p = val) \/
  (exists pre lo hi post,
     p0 :: body = pre ++ lo :: hi :: post /\ value lo < val < value hi).
Proof.
  induction body as [|b body IH]; intros p0 Hp0.
  - left. intros p [<-|[]]. exact Hp0.
  - destruct (Z.lt_trichotomy val (value b)) as [Hlt|[Heq|Hgt]].
    + right; right. exists [], p0, b, body. split; [reflexivity|lia].
    + right; left. exists b. split; [left; reflexivity|congruence].
    + destruct (IH b Hgt) as [Habove|[(p & Hin & Hp)|(pre & lo & hi & post & Hsplit & Hb)]].
      * left. intros p [<-|Hin]; auto.
      * right; left. exists p. split; [right; exact Hin|exact Hp].
      * right; right. exists (p0 :: pre), lo, hi, post. split; [|exact Hb].
        simpl. rewrite Hsplit. reflexivity.
Qed.

Lemma sorted_app_inv {A : Type} (R : A -> A -> Prop) (pre : list A) (x : A)
    (rest : list A) :
  StronglySorted R (pre ++ x :: rest) ->
  Forall (fun y => R y x) pre /\ StronglySorted R (x :: rest).
Proof.
  induction pre as [|a pre IH]; simpl; intros Hs.
  - split; [constructor|exact Hs].
  - inversion Hs as [|? ? Hs' Hall]; subst. destruct (IH Hs') as [Hf Hr].
    split; [|exact Hr]. constructor; [|exact Hf].
    rewrite Forall_forall in Hall. apply Hall. apply in_or_app. right. left. reflexivity.
Qed.

Lemma pt_le_trans (a b c : afr_point ereal) : pt_le a b -> pt_le b c -> pt_le a c.
Proof.
  intros [Hv (ra & rb & Ha & Hb & Hr)] [Hv' (rb' & rc & Hb' & Hc & Hr')].
  split; [lia|]. exists ra, rc. repeat split; auto.
  rewrite Hb in Hb'. injection Hb' as <-. lra.
Qed.

Lemma increasing_table_monotone p0 body s :
  increasing_table p0 body s -> monotone_table p0 body s.
Proof.
  intros (H0 & _ & Hs & Hb & Hsent). repeat split; auto.
  clear - Hs. remember (p0 :: body) as l eqn:El. clear El.
  induction Hs as [|a l Hs IH Hall]; simpl; constructor; auto.
  rewrite Forall_map. eapply Forall_impl; [|exact Hall].
  intros b [Hv _]. exact Hv.
Qed.

Section Monotone.

Variables (p0 : afr_point ereal) (body : list (afr_point ereal)) (s : afr_point ereal).
Hypothesis Hinc : increasing_table p0 body s.

Lemma increasing_is_monotone : monotone_table p0 body s.
Proof. exact (increasing_table_monotone _ _ _ Hinc). Qed.

(** Every point before the sentinel has a finite rate, not below the rate of
    the leading point. *)
Lemma rate_finite (p : afr_point ereal) :
  In p (p0 :: body) -> exists r, afr p = Fin r /\ (0 <= r)%R.
Proof.
  destruct Hinc as (_ & (r0 & Hr0 & Hpos) & Hs & _).
  intros [E|Hin]; [rewrite <- E; exists r0; auto|].
  inversion Hs as [|? ? _ Hall]; subst.
  rewrite Forall_forall in Hall. destruct (Hall p Hin) as [_ (ra & rb & Ha & Hb & Hle)].
  exists rb. split; [exact Hb|]. rewrite Hr0 in Ha. injection Ha as <-. lra.
Qed.

(** Two points before the sentinel compare by their values as by their
    rates. *)
Lemma rate_le_of_value_le (p q : afr_point ereal) (rp rq : R) :
  In p (p0 :: body) -> In q (p0 :: body) ->
  afr p = Fin rp -> afr q = Fin rq ->
  value p <= value q -> (rp <= rq)%R.
Proof.
  destruct Hinc as (_ & _ & Hs & _).
  intros Hp Hq Erp Erq Hv.
  apply in_split in Hp as (l1 & l2 & El).
  rewrite El in Hs, Hq. apply sorted_app_inv in Hs as [Hbefore Hafter].
  apply in_app_or in Hq as [Hq|[<-|Hq]].
  - rewrite Forall_forall in Hbefore. destruct (Hbefore q Hq) as [Hlt _]. lia.
  - rewrite Erp in Erq. injection Erq as <-. lra.
  - inversion Hafter as [|? ? _ Hall]; subst. rewrite Forall_forall in Hall.
    destruct (Hall q Hq) as [_ (ra & rb & Ha & Hb & Hle)].
    rewrite Erp in Ha. rewrite Erq in Hb. injection Ha as <-. injection Hb as <-.
    exact Hle.
Qed.

(** The interpolated rate over the extended reals is the real number of the
    formula. *)
Lemma interpolation_finite (vlo vhi val : Z) (rlo rhi : R) :
  vlo < vhi ->
  (Fin rlo + d_of_uint (val - vlo) * (Fin rhi - Fin rlo) / d_of_uint (vhi - vlo))%D
  = Fin (rlo + IZR (val - vlo) * (rhi - rlo) / IZR (vhi - vlo)).
Proof.
  intros Hlt. simpl. unfold esub. simpl.
  destruct (Req_dec_T (IZR (vhi - vlo)) 0) as [E|_].
  - apply eq_IZR_R0 in E. lia.
  - reflexivity.
Qed.

Lemma interpolation_bounds (vlo vhi val : Z) (rlo rhi : R) :
  vlo <= val <= vhi -> vlo < vhi -> (rlo <= rhi)%R ->
  (rlo <= rlo + IZR (val - vlo) * (rhi - rlo) / IZR (vhi - vlo) <= rhi)%R.
Proof.
  intros [Hl Hh] Hlt Hr.
  assert (Hd : (0 < IZR (vhi - vlo))%R) by (apply IZR_lt; lia).
  assert (Ht0 : (0 <= IZR (val - vlo))%R) by (apply IZR_le; lia).
  assert (Ht1 : (IZR (val - vlo) <= IZR (vhi - vlo))%R) by (apply IZR_le; lia).
  set (t := IZR (val - vlo)) in *. set (d := IZR (vhi - vlo)) in *.
  assert (Hq : (0 <= t * (rhi - rlo) / d <= rhi - rlo)%R).
  { split.
    - apply Rmult_le_pos; [nra|]. apply Rlt_le, Rinv_0_lt_compat, Hd.
    - apply Rmult_le_reg_r with d; [exact Hd|].
      unfold Rdiv. rewrite Rmult_assoc, Rinv_l by lra. nra. }
  lra.
Qed.

Lemma interpolation_monotone (vlo vhi v1 v2 : Z) (rlo rhi : R) :
  v1 <= v2 -> vlo < vhi -> (rlo <= rhi)%R ->
  (rlo + IZR (v1 - vlo) * (rhi - rlo) / IZR (vhi - vlo)
   <= rlo + IZR (v2 - vlo) * (rhi - rlo) / IZR (vhi - vlo))%R.
Proof.
  intros Hv Hlt Hr.
  assert (Hd : (0 < / IZR (vhi - vlo))%R).
  { apply Rinv_0_lt_compat, IZR_lt. lia. }
  assert (Ht : (IZR (v1 - vlo) <= IZR (v2 - vlo))%R) by (apply IZR_le; lia).
  unfold Rdiv. apply Rplus_le_compat_l. apply Rmult_le_compat_r; [lra|]. nra.
Qed.

(** The rate of the last point before the sentinel is the largest. *)
Lemma rate_le_last (p : afr_point ereal) (rp rl : R) :
  In p (p0 :: body) -> afr p = Fin rp -> afr (last body p0) = Fin rl -> (rp <= rl)%R.
Proof.
  intros Hp Erp Erl. destruct Hinc as (_ & _ & Hs & _).
  apply In_nth_error in Hp as [i Hi].
  assert (Hlen : (i < List.length (p0 :: body))%nat) by (apply nth_error_Some; congruence).
  simpl in Hlen. pose proof (nth_error_last body p0) as Hl.
  destruct (Nat.eq_dec i (List.length body)) as [->|Hne].
  - rewrite Hl in Hi. injection Hi as <-. rewrite Erp in Erl. injection Erl as <-. lra.
  - destruct (sorted_nth pt_le _ Hs i (List.length body) p (last body p0))
      as [_ (ra & rb & Ha & Hb & Hle)]; auto; [lia|].
    rewrite Erp in Ha. rewrite Erl in Hb. injection Ha as <-. injection Hb as <-.
    exact Hle.
Qed.

(** A value that is not 0 gets a finite rate, which is not below the rate of
    any point at or below the value. *)
Lemma smart_afr_value_lower (val : Z) :
  0 < val ->
  exists b, smart_afr_value (table p0 body s) val = Some (Fin b) /\
    forall p rp, In p (p0 :: body) -> afr p = Fin rp -> value p <= val -> (rp <= b)%R.
Proof.
  intros Hpos.
  assert (Hp0 : value p0 < val) by (destruct increasing_is_monotone as (H0 & _); lia).
  destruct (locate_value val body p0 Hp0)
    as [Habove|[(q & Hin & Hq)|(pre & lo & hi & post & Hsplit & Hb)]].
  - assert (Hlast : In (last body p0) (p0 :: body)).
    { pose proof (nth_error_last body p0) as Hl. eapply nth_error_In; eauto. }
    destruct (rate_finite _ Hlast) as (rl & Erl & _).
    exists rl. split.
    + rewrite (smart_afr_value_above p0 body s increasing_is_monotone val Habove). rewrite Erl. reflexivity.
    + intros p rp Hp Erp _. apply (rate_le_last p); auto.
  - destruct (rate_finite q (or_intror Hin)) as (rq & Erq & _).
    exists rq. split.
    + rewrite <- Hq. rewrite (smart_afr_value_exact p0 body s increasing_is_monotone q Hin).
      rewrite Erq. reflexivity.
    + intros p rp Hp Erp Hv. apply (rate_le_of_value_le p q); auto.
      * right; exact Hin.
      * lia.
  - assert (Hlo : In lo (p0 :: body)).
    { rewrite Hsplit. apply in_or_app. right. left. reflexivity. }
    assert (Hhi : In hi (p0 :: body)).
    { rewrite Hsplit. apply in_or_app. right. right. left. reflexivity. }
    destruct (rate_finite lo Hlo) as (rlo & Erlo & _).
    destruct (rate_finite hi Hhi) as (rhi & Erhi & _).
    assert (Hr : (rlo <= rhi)%R).
    { apply (rate_le_of_value_le lo hi); auto. lia. }
    exists (rlo + IZR (val - value lo) * (rhi - rlo) / IZR (value hi - value lo))%R.
    split.
    + rewrite (smart_afr_value_between p0 body s increasing_is_monotone pre post lo hi val Hsplit Hb).
      rewrite Erlo, Erhi. rewrite interpolation_finite by lia. reflexivity.
    + intros p rp Hp Erp Hv.
      apply Rle_trans with rlo.
      * apply (rate_le_of_value_le p lo); auto.
        destruct Hinc as (_ & _ & Hs & _). rewrite Hsplit in Hs, Hp.
        apply sorted_app_inv in Hs as [Hbefore Hafter].
        apply in_app_or in Hp as [Hp|[<-|[<-|Hp]]]; try lia.
        -- rewrite Forall_forall in Hbefore. destruct (Hbefore p Hp) as [Hlt _]. lia.
        -- inversion Hafter as [|? ? Hafter' _]; subst.
           inversion Hafter' as [|? ? _ Hall]; subst.
           rewrite Forall_forall in Hall. destruct (Hall p Hp) as [Hlt _]. lia.
      * apply interpolation_bounds; [lia|lia|exact Hr].
Qed.

(** The lookup does not decrease on a table whose rates do not decrease. *)
Lemma smart_afr_value_nondecreasing (v1 v2 : Z) :
  0 <= v1 <= v2 ->
  exists a b,
    smart_afr_value (table p0 body s) v1 = Some (Fin a) /\
    smart_afr_value (table p0 body s) v2 = Some (Fin b) /\
    (a <= b)%R.
Proof.
  intros [H1 H12].
  destruct (Z.eq_dec v1 0) as [->|Hnz].
  - exists 0%R. destruct (Z.eq_dec v2 0) as [->|Hnz2].
    + exists 0%R. split; [reflexivity|]. split; [reflexivity|]. lra.
    + destruct (smart_afr_value_lower v2 ltac:(lia)) as (b & Eb & Hlow).
      exists b. repeat split; auto.
      destruct Hinc as (H0 & (r0 & Er0 & Hr0) & _).
      apply Rle_trans with r0; [exact Hr0|].
      apply (Hlow p0 r0); [left; reflexivity|exact Er0|lia].
  - assert (Hp0 : value p0 < v1) by (destruct increasing_is_monotone as (H0 & _); lia).
    destruct (smart_afr_value_lower v2 ltac:(lia)) as (b & Eb & Hlow).
    destruct (locate_value v1 body p0 Hp0)
      as [Habove|[(q & Hin & Hq)|(pre & lo & hi & post & Hsplit & Hb)]].
    + exists b, b. repeat split; auto; [|lra].
      rewrite <- Eb.
      rewrite (smart_afr_value_above p0 body s increasing_is_monotone v1 Habove).
      rewrite (smart_afr_value_above p0 body s increasing_is_monotone v2); [reflexivity|].
      intros p Hp. specialize (Habove p Hp). lia.
    + destruct (rate_finite q (or_intror Hin)) as (rq & Erq & _).
      exists rq, b. repeat split; auto.
      * rewrite <- Hq. rewrite (smart_afr_value_exact p0 body s increasing_is_monotone q Hin).
        rewrite Erq. reflexivity.
      * apply (Hlow q rq); [right; exact Hin|exact Erq|lia].
    + assert (Hlo : In lo (p0 :: body)).
      { rewrite Hsplit. apply in_or_app. right. left. reflexivity. }
      assert (Hhi : In hi (p0 :: body)).
      { rewrite Hsplit. apply in_or_app. right. right. left. reflexivity. }
      destruct (rate_finite lo Hlo) as (rlo & Erlo & _).
      destruct (rate_finite hi Hhi) as (rhi & Erhi & _).
      assert (Hr : (rlo <= rhi)%R).
      { apply (rate_le_of_value_le lo hi); auto. lia. }
      exists (rlo + IZR (v1 - value lo) * (rhi - rlo) / IZR (value hi - value lo))%R.
      assert (E1 : smart_afr_value (table p0 body s) v1 =
                   Some (Fin (rlo + IZR (v1 - value lo) * (rhi - rlo)
                                    / IZR (value hi - value lo)))).
      { rewrite (smart_afr_value_between p0 body s increasing_is_monotone pre post lo hi v1 Hsplit Hb).
        rewrite Erlo, Erhi. rewrite interpolation_finite by lia. reflexivity. }
      destruct (Z_lt_le_dec v2 (value hi)) as [Hin2|Hout2].
      * exists (rlo + IZR (v2 - value lo) * (rhi - rlo) / IZR (value hi - value lo))%R.
        repeat split; auto.
        -- rewrite (smart_afr_value_between p0 body s increasing_is_monotone pre post lo hi v2 Hsplit)
             by lia.
           rewrite Erlo, Erhi. rewrite interpolation_finite by lia. reflexivity.
        -- apply interpolation_monotone; [lia|lia|exact Hr].
      * exists b. repeat split; auto.
        apply Rle_trans with rhi.
        -- apply interpolation_bounds; [lia|lia|exact Hr].
        -- apply (Hlow hi rhi); auto.
Qed.

End Monotone.

Ltac eval_pow10 :=
  repeat match goal with
  | |- context [IZR (10 ^ ?k)] =>
      let v := eval vm_compute in (10 ^ k) in change (10 ^ k) with v
  end.

(** The tables of the attributes 187, 188, 193, 197 and 198 have rates that do
    not decrease; the table of attribute 5 has not: its rate falls from the
    breakpoint 4500 to the breakpoint 17000. *)
Lemma compiled_tables_increasing (tab : list (afr_point ereal)) :
  In tab [AFR_187; AFR_188; AFR_193; AFR_197; AFR_198] ->
  increasing_table (pt0 0 0) (breakpoints tab) (pt0 0 0).
Proof.
  simpl. intros [<-|[<-|[<-|[<-|[<-|[]]]]]];
    (split; [reflexivity|]);
    (split; [exists 0%R; split; [reflexivity|lra]|]);
    (split; [|split; [repeat constructor; simpl; unfold UINT64_MAX; lia|reflexivity]]);
    repeat (constructor;
            [|repeat (constructor;
                      [split; [reflexivity|];
                       eexists; eexists; split; [reflexivity|]; split; [reflexivity|];
                       eval_pow10; lra|])]);
    constructor.
Qed.

(** C5 (amended).  Over the extended reals, that is without rounding: for
    every table that satisfies the invariant and whose rates are finite, not
    negative and do not decrease from one point to the next, the lookup does
    not decrease: [v1 <= v2] gives [smart_afr_value tab v1 <= smart_afr_value
    tab v2]. *)
Theorem smart_afr_value_monotone
    (p0 : afr_point ereal) (body : list (afr_point ereal)) (s : afr_point ereal)
    (v1 v2 : Z) :
  increasing_table p0 body s ->
  0 <= v1 <= v2 ->
  exists a b,
    smart_afr_value (table p0 body s) v1 = Some (Fin a) /\
    smart_afr_value (table p0 body s) v2 = Some (Fin b) /\
    (a <= b)%R.
Proof.
  intros Hinc Hv. apply smart_afr_value_nondecreasing; assumption.
Qed.

(** The theorem at the table of attribute 198, for the values 3 and 11. *)
Lemma smart_afr_value_monotone_witness :
  increasing_table (pt0 0 0) (breakpoints AFR_198) (pt0 0 0) /\
  0 <= 3 <= 11 /\
  exists a b,
    smart_afr_value (D := ereal) AFR_198 3 = Some (Fin a) /\
    smart_afr_value (D := ereal) AFR_198 11 = Some (Fin b) /\
    (a <= b)%R.
Proof.
  assert (Hinc : increasing_table (pt0 0 0) (breakpoints AFR_198) (pt0 0 0)).
  { apply compiled_tables_increasing. simpl. tauto. }
  assert (Hv : 0 <= 3 <= 11) by lia.
  split; [exact Hinc|]. split; [exact Hv|].
  exact (smart_afr_value_monotone _ _ _ 3 11 Hinc Hv).
Defined.

(** C5, as stated, fails in binary64 on the compiled-in table of attribute 5,
    which satisfies the invariant of the values: the value 4500 gets the rate
    2.0659987547404763 and the larger value 17000 gets the smaller rate
    1.7755385684503124. *)
Lemma smart_afr_value_AFR_5_not_monotone :
  ~ (forall (p0 : afr_point float) body s,
       monotone_table p0 body s ->
       forall v1 v2, 0 <= v1 <= v2 ->
       exists a b,
         smart_afr_value (table p0 body s) v1 = Some a /\
         smart_afr_value (table p0 body s) v2 = Some b /\
         PrimFloat.leb a b = true).
Proof.
  intros H.
  assert (Hwf : monotone_table (D := float) (pt0 0 0) (breakpoints AFR_5) (pt0 0 0)).
  { apply compiled_tables_monotone. simpl. tauto. }
  destruct (H _ _ _ Hwf 4500 17000 ltac:(lia)) as (a & b & Ea & Eb & Hle).
  vm_compute in Ea. vm_compute in Eb.
  injection Ea as <-. injection Eb as <-.
  vm_compute in Hle. discriminate Hle.
Qed.

(** ** Counting loops *)

(** A loop whose bound fits [unsigned] and whose fuel is the distance to the
    bound runs its body at [i], [i + 1], ..., [bound - 1]. *)
Lemma for_up_fold {A : Type} (body : Z -> A -> A) (bound : Z) :
  bound <= UINT_MAX ->
  forall fuel i acc,
    0 <= i -> i + Z.of_nat fuel = bound ->
    for_up fuel i bound body acc = fold_left (fun a k => body k a) (upto i fuel) acc.
Proof.
  intros Hb. induction fuel as [|fuel IH]; intros i acc Hi Hsum; [reflexivity|].
  simpl. replace (i <? bound) with true by (symmetry; apply Z.ltb_lt; lia).
  rewrite wrap32_small by lia. apply IH; lia.
Qed.

(** Such a loop leaves by its test: more fuel does not change its result. *)
Lemma for_up_fuel {A : Type} (body : Z -> A -> A) (bound : Z) :
  bound <= UINT_MAX ->
  forall fuel extra i acc,
    0 <= i -> i + Z.of_nat fuel = bound ->
    for_up (fuel + extra) i bound body acc = for_up fuel i bound body acc.
Proof.
  intros Hb. induction fuel as [|fuel IH]; intros extra i acc Hi Hsum.
  - simpl. destruct extra as [|extra]; [reflexivity|]. simpl.
    replace (i <? bound) with false by (symmetry; apply Z.ltb_ge; lia). reflexivity.
  - simpl. replace (i <? bound) with true by (symmetry; apply Z.ltb_lt; lia).
    rewrite wrap32_small by lia. apply IH; lia.
Qed.

Lemma upto_length (count : nat) : forall i, List.length (upto i count) = count.
Proof. induction count as [|c IH]; intros i; simpl; [reflexivity|]. rewrite IH. reflexivity. Qed.

Lemma upto_range (count : nat) :
  forall i k, In k (upto i count) -> i <= k < i + Z.of_nat count.
Proof.
  induction count as [|c IH]; intros i k; simpl; [tauto|].
  intros [<-|Hin]; [lia|]. apply IH in Hin. lia.
Qed.

Lemma fold_left_snoc_list {A B : Type} (g : B -> A) (l : list B) :
  forall acc : list A,
    fold_left (fun ds k => ds ++ [g k]) l acc = acc ++ map g l.
Proof.
  induction l as [|b l IH]; intros acc; simpl.
  - rewrite app_nil_r. reflexivity.
  - rewrite IH. rewrite <- app_assoc. reflexivity.
Qed.

(** ** The MTTDL loop *)

Lemma for_up_divisors {D : Type} {arith : Arith D} (n bound : Z) (m : D) :
  forall fuel i ds,
    for_up fuel i bound (fun i x => (x / d_of_uint (wrap32 (n - i)))%D)
      (fold_left (fun x d => (x / d_of_uint d)%D) ds m)
    = fold_left (fun x d => (x / d_of_uint d)%D)
        (for_up fuel i bound (fun i ds => ds ++ [wrap32 (n - i)]) ds) m.
Proof.
  induction fuel as [|fuel IH]; intros i ds; simpl; [reflexivity|].
  destruct (i <? bound); [|reflexivity].
  rewrite <- IH. rewrite fold_left_app. reflexivity.
Qed.

(** The loop of [raid_prob_of_one_or_more_failures] divides by the values of
    [mttdl_divisors], one after the other. *)
Lemma mttdl_divide_divisors {D : Type} {arith : Arith D} (n redundancy : Z) (m : D) :
  mttdl_divide n redundancy m =
  fold_left (fun x d => (x / d_of_uint d)%D) (mttdl_divisors n redundancy) m.
Proof.
  unfold mttdl_divide, mttdl_divisors.
  rewrite <- for_up_divisors. reflexivity.
Qed.

Lemma mttdl_divisors_no_wrap (n redundancy : Z) :
  0 <= redundancy < n -> n <= UINT_MAX ->
  mttdl_divisors n redundancy
  = map (fun i => n - i) (upto 0 (S (Z.to_nat redundancy))).
Proof.
  intros Hr Hn. unfold mttdl_divisors.
  rewrite wrap32_small by lia.
  rewrite for_up_fold by (unfold UINT_MAX in *; lia).
  rewrite fold_left_snoc_list. simpl app.
  replace (Z.to_nat (redundancy + 1)) with (S (Z.to_nat redundancy)) by lia.
  apply map_ext_in. intros k Hk. apply upto_range in Hk.
  apply wrap32_small. lia.
Qed.

(** For every arithmetic of [double]: with [0 <= redundancy < n] the function
    divides [pow(MTBF, redundancy + 1) / pow(MTTR, redundancy)] by [n], [n - 1],
    ..., [n - redundancy] in turn, and returns the Poisson tail at 1 of the
    inverse. *)
Lemma raid_prob_generic {D : Type} {arith : Arith D} {libm : LibM D}
    (array_failure_rate replace_rate : D) (n redundancy : Z) :
  0 <= redundancy < n -> n <= UINT_MAX ->
  raid_prob_of_one_or_more_failures array_failure_rate replace_rate n redundancy
  = poisson_prob_n_or_more_failures
      (dlit 10 1
       / fold_left (fun x d => x / d_of_uint d)
           (map (fun i => (n - i)%Z) (upto 0 (S (Z.to_nat redundancy))))
           (dpow (d_of_uint n / array_failure_rate) (redundancy + 1)%Z
            / dpow (dlit 10 1 / replace_rate) redundancy))%D 1.
Proof.
  intros Hr Hn. unfold raid_prob_of_one_or_more_failures.
  rewrite mttdl_divide_divisors, mttdl_divisors_no_wrap by assumption.
  rewrite wrap32_small by lia. reflexivity.
Qed.

(** C10.  For [0 <= redundancy < n] (and [n] an [unsigned]), the loop divides
    by [n - i] for [i] from 0 to [redundancy]: [redundancy + 1] divisors, none
    of which wraps around, each at least 1. *)
Theorem mttdl_divisors_positive (n redundancy : Z) :
  0 <= redundancy < n -> n <= UINT_MAX ->
  mttdl_divisors n redundancy
    = map (fun i => n - i) (upto 0 (S (Z.to_nat redundancy))) /\
  List.length (mttdl_divisors n redundancy) = S (Z.to_nat redundancy) /\
  Forall (fun d => 1 <= d <= n) (mttdl_divisors n redundancy) /\
  (forall (D : Type) (arith : Arith D) (m : D),
     mttdl_divide n redundancy m
     = fold_left (fun x d => (x / d_of_uint d)%D) (mttdl_divisors n redundancy) m).
Proof.
  intros Hr Hn. pose proof (mttdl_divisors_no_wrap n redundancy Hr Hn) as E.
  split; [exact E|]. split; [|split].
  - rewrite E, length_map, upto_length. reflexivity.
  - rewrite E. apply Forall_forall. intros d Hd.
    apply in_map_iff in Hd as (k & <- & Hk). apply upto_range in Hk. lia.
  - intros D arith m. apply mttdl_divide_divisors.
Qed.

(** The theorem for an array of 4 members and 2 parities: the divisors are 4,
    3 and 2. *)
Lemma mttdl_divisors_positive_witness :
  mttdl_divisors 4 2 = [4; 3; 2] /\
  Forall (fun d => 1 <= d <= 4) (mttdl_divisors 4 2).
Proof.
  assert (Hr : 0 <= 2 < 4) by lia.
  assert (Hn : 4 <= UINT_MAX) by (unfold UINT_MAX; lia).
  destruct (mttdl_divisors_positive 4 2 Hr Hn) as (E & _ & Hall & _).
  split; [exact E|exact Hall].
Defined.

(** ** The arithmetic of the extended reals on finite numbers *)

Lemma ediv_fin (x y : R) : y <> 0%R -> ediv (Fin x) (Fin y) = Fin (x / y).
Proof.
  intros Hy. unfold ediv. destruct (Req_dec_T y 0) as [E|_]; [contradiction|reflexivity].
Qed.

Lemma dlit_one : dlit (D := ereal) 10 1 = Fin 1.
Proof.
  unfold dlit; simpl. change (10 ^ 1) with 10. f_equal. field.
Qed.

Lemma d_of_uint_fin (z : Z) : d_of_uint (D := ereal) z = Fin (IZR z).
Proof. reflexivity. Qed.

Lemma epow_fin (x : R) (k : Z) : 0 <= k -> epow (Fin x) k = Fin (x ^ Z.to_nat k).
Proof.
  intros Hk. unfold epow. destruct (k =? 0) eqn:E; [|reflexivity].
  apply Z.eqb_eq in E. subst k. reflexivity.
Qed.

(** ** Factorial and Poisson distribution *)

(** The loop of [fact] multiplies by [k], [k - 1], ..., 2. *)
Lemma fact_loop_fin (k : nat) :
  Z.of_nat k <= UINT_MAX ->
  forall fuel v, (k <= fuel)%nat ->
    fact_loop fuel (Z.of_nat k) (Fin v) = Fin (v * INR (Factorial.fact k)).
Proof.
  induction k as [|k IH]; intros Hk fuel v Hfuel.
  - destruct fuel; simpl; f_equal; lra.
  - destruct fuel as [|fuel]; [lia|].
    destruct k as [|k].
    + simpl. f_equal. lra.
    + cbn [fact_loop].
      replace (1 <? Z.of_nat (S (S k))) with true by (symmetry; apply Z.ltb_lt; lia).
      rewrite wrap32_small by lia.
      replace (Z.of_nat (S (S k)) - 1) with (Z.of_nat (S k)) by lia.
      rewrite d_of_uint_fin. cbn [dmul ereal_arith emul].
      rewrite IH by lia. f_equal.
      rewrite <- INR_IZR_INZ.
      change (Factorial.fact (S (S k))) with (S (S k) * Factorial.fact (S k))%nat.
      rewrite mult_INR. ring.
Qed.

Lemma fact_fin (k : nat) :
  Z.of_nat k <= UINT_MAX -> fact (D := ereal) (Z.of_nat k) = Fin (INR (Factorial.fact k)).
Proof.
  intros Hk. unfold fact. rewrite d_of_uint_fin, Nat2Z.id.
  rewrite fact_loop_fin by auto. f_equal. lra.
Qed.

Lemma poisson_prob_n_failures_fin (rate : R) (k : nat) :
  Z.of_nat k <= UINT_MAX ->
  poisson_prob_n_failures (Fin rate) (Z.of_nat k) = Fin (poisson_pmf rate k).
Proof.
  intros Hk. unfold poisson_prob_n_failures, poisson_pmf.
  rewrite fact_fin by auto. cbn [dpow ereal_libm dexp dneg ereal_arith dmul ddiv].
  rewrite epow_fin by lia. rewrite Nat2Z.id. cbn [eneg eexp emul].
  apply ediv_fin. apply INR_fact_neq_0.
Qed.

(** The sum of the loop of [poisson_prob_n_or_more_failures], which runs from
    the last term to the first. *)
Lemma poisson_sum_fin (rate : R) (k : nat) :
  Z.of_nat k <= UINT_MAX ->
  forall c i acc, (i + c = k)%nat ->
    fold_left
      (fun p_neg j =>
         (p_neg + poisson_prob_n_failures (Fin rate) (wrap32 (Z.of_nat k - 1 - j)))%D)
      (upto (Z.of_nat i) c) (Fin acc)
    = Fin (acc + Rsum (poisson_pmf rate) c).
Proof.
  intros Hk. induction c as [|c IH]; intros i acc Hic.
  - simpl. f_equal. lra.
  - cbn [upto fold_left].
    rewrite wrap32_small by lia.
    replace (Z.of_nat k - 1 - Z.of_nat i) with (Z.of_nat c) by lia.
    rewrite poisson_prob_n_failures_fin by lia.
    cbn [dadd ereal_arith eadd].
    replace (Z.of_nat i + 1) with (Z.of_nat (S i)) by lia.
    rewrite IH by lia. f_equal. simpl. lra.
Qed.

Lemma poisson_prob_n_or_more_failures_fin (rate : R) (k : nat) :
  Z.of_nat k <= UINT_MAX ->
  poisson_prob_n_or_more_failures (Fin rate) (Z.of_nat k) = Fin (poisson_tail rate k).
Proof.
  intros Hk. unfold poisson_prob_n_or_more_failures, poisson_tail.
  rewrite for_up_fold by (rewrite ?Nat2Z.id; lia).
  rewrite Nat2Z.id. rewrite !d_of_uint_fin.
  pose proof (poisson_sum_fin rate k Hk k 0%nat 0%R ltac:(lia)) as E.
  change (Z.of_nat 0) with 0 in E. rewrite E.
  cbn [dsub ereal_arith esub eneg eadd]. f_equal. lra.
Qed.

Lemma poisson_tail_1 (rate : R) : poisson_tail rate 1 = (1 - exp (- rate))%R.
Proof.
  unfold poisson_tail, poisson_pmf. simpl. field.
Qed.

Lemma poisson_prob_one_or_more_fin (rate : R) :
  poisson_prob_n_or_more_failures (Fin rate) 1 = Fin (1 - exp (- rate)).
Proof.
  change 1 with (Z.of_nat 1).
  rewrite poisson_prob_n_or_more_failures_fin by (unfold UINT_MAX; simpl; lia).
  rewrite poisson_tail_1. reflexivity.
Qed.

(** In binary64, whatever the C library computes: the tail at 0 is 1. *)
Lemma poisson_tail_at_0_binary64 (libm : LibM float) (rate : float) :
  poisson_prob_n_or_more_failures rate 0 = float_of_Z 1.
Proof. vm_compute. reflexivity. Qed.

(** In binary64, for a C library that follows annex F of C99 ([pow(x, 0)] is
    1 and [exp(-0)] is 1): the tail of the rate 0 at 1 is 0. *)
Lemma poisson_tail_of_0_binary64 (libm : LibM float) :
  dpow (float_of_Z 0) 0 = float_of_Z 1 ->
  dexp (PrimFloat.opp (float_of_Z 0)) = float_of_Z 1 ->
  poisson_prob_n_or_more_failures (float_of_Z 0) 1 = float_of_Z 0.
Proof.
  intros Hpow Hexp. unfold poisson_prob_n_or_more_failures.
  change (Z.to_nat 1) with 1%nat. cbn [for_up]. change (0 <? 1) with true. cbv iota.
  change (wrap32 (1 - 1 - 0)) with 0. unfold poisson_prob_n_failures.
  cbn [dneg dmul ddiv dadd dsub d_of_uint float_arith].
  rewrite Hpow, Hexp. vm_compute. reflexivity.
Qed.

(** C6.  Over the extended reals, for a finite rate and a count [n] that is an
    [unsigned]: [fact n] is [n!]; [poisson_prob_n_failures rate n] is
    [rate^n * e^(-rate) / n!]; [poisson_prob_n_or_more_failures rate n] is
    [1 - sum for k from 0 to n - 1 of pmf(rate, k)]; the tail at 0 is 1, for
    every rate; the tail of the rate 0 at 1 is 0.  The tail at 0 is 1 in
    binary64 as well, for every rate and every C library. *)
Theorem poisson_formulas (rate : R) (n : nat) :
  Z.of_nat n <= UINT_MAX ->
  fact (D := ereal) (Z.of_nat n) = Fin (INR (Factorial.fact n)) /\
  poisson_prob_n_failures (Fin rate) (Z.of_nat n)
    = Fin (rate ^ n * exp (- rate) / INR (Factorial.fact n)) /\
  poisson_prob_n_or_more_failures (Fin rate) (Z.of_nat n)
    = Fin (1 - Rsum (fun k => rate ^ k * exp (- rate) / INR (Factorial.fact k))%R n) /\
  poisson_prob_n_or_more_failures (Fin rate) 0 = Fin 1 /\
  poisson_prob_n_or_more_failures (Fin 0) 1 = Fin 0 /\
  (forall (libm : LibM float) (x : float),
     poisson_prob_n_or_more_failures x 0 = float_of_Z 1).
Proof.
  intros Hn. split; [apply fact_fin; exact Hn|].
  split; [apply poisson_prob_n_failures_fin; exact Hn|].
  split; [apply poisson_prob_n_or_more_failures_fin; exact Hn|].
  split; [|split].
  - unfold poisson_prob_n_or_more_failures. simpl. f_equal. lra.
  - rewrite poisson_prob_one_or_more_fin. f_equal.
    rewrite Ropp_0, exp_0. lra.
  - apply poisson_tail_at_0_binary64.
Qed.

(** The theorem for the rate 2 and the count 3. *)
Lemma poisson_formulas_witness :
  poisson_prob_n_failures (Fin 2) 3 = Fin (2 ^ 3 * exp (- 2) / INR (Factorial.fact 3)) /\
  poisson_prob_n_or_more_failures (Fin 2) 0 = Fin 1.
Proof.
  assert (Hn : Z.of_nat 3 <= UINT_MAX) by (unfold UINT_MAX; simpl; lia).
  destruct (poisson_formulas 2 3 Hn) as (_ & Hpmf & _ & H0 & _ & _).
  split; [exact Hpmf|exact H0].
Defined.

(** ** The MTTDL estimate *)

Lemma upto_snoc (c : nat) : forall i, upto i (S c) = upto i c ++ [i + Z.of_nat c].
Proof.
  induction c as [|c IH]; intros i.
  - simpl. rewrite Z.add_0_r. reflexivity.
  - change (upto i (S (S c))) with (i :: upto (i + 1) (S c)).
    rewrite IH. simpl. do 3 f_equal. lia.
Qed.

Lemma fold_left_mul_pos (ds : list Z) :
  Forall (fun d => 1 <= d) ds -> forall p, 1 <= p -> 1 <= fold_left Z.mul ds p.
Proof.
  induction 1 as [|d ds Hd _ IH]; intros p Hp; simpl; [exact Hp|].
  apply IH. nia.
Qed.

Lemma falling_product_pos (n r : Z) : 0 <= r < n -> 1 <= falling_product n r.
Proof.
  intros Hr. unfold falling_product. apply fold_left_mul_pos; [|lia].
  apply Forall_forall. intros d Hd. apply in_map_iff in Hd as (k & <- & Hk).
  apply upto_range in Hk. lia.
Qed.

Lemma falling_product_succ (n r : Z) :
  0 <= r -> falling_product n (r + 1) = falling_product n r * (n - (r + 1)).
Proof.
  intros Hr. unfold falling_product.
  replace (Z.to_nat (r + 1)) with (S (Z.to_nat r)) by lia.
  rewrite (upto_snoc (S (Z.to_nat r))). rewrite map_app, fold_left_app. simpl fold_left at 1.
  f_equal. lia.
Qed.

(** Dividing a finite number by positive integers, one after the other, divides
    it by their product. *)
Lemma fold_left_ediv (ds : list Z) :
  Forall (fun d => 1 <= d) ds ->
  forall (m : R) (p : Z), 1 <= p ->
    fold_left (fun x d => (x / d_of_uint d)%D) ds (Fin (m / IZR p))
    = Fin (m / IZR (fold_left Z.mul ds p)).
Proof.
  induction 1 as [|d ds Hd _ IH]; intros m p Hp; [reflexivity|].
  cbn [fold_left ddiv d_of_uint ereal_arith].
  assert (Hd0 : IZR d <> 0%R) by (apply not_0_IZR; lia).
  assert (Hp0 : IZR p <> 0%R) by (apply not_0_IZR; lia).
  rewrite ediv_fin by exact Hd0.
  replace (m / IZR p / IZR d)%R with (m / IZR (p * d))%R
    by (rewrite mult_IZR; field; auto).
  apply IH. nia.
Qed.

Lemma mttdl_divide_fin (n r : Z) (m : R) :
  0 <= r < n -> n <= UINT_MAX ->
  mttdl_divide n r (Fin m) = Fin (m / IZR (falling_product n r)).
Proof.
  intros Hr Hn. rewrite mttdl_divide_divisors, mttdl_divisors_no_wrap by assumption.
  replace m with (m / IZR 1)%R at 1 by field.
  rewrite fold_left_ediv; [reflexivity| |lia].
  apply Forall_forall. intros d Hd. apply in_map_iff in Hd as (k & <- & Hk).
  apply upto_range in Hk. lia.
Qed.

Section Raid.

Variables (array_failure_rate replace_rate : R) (n r : Z).
Hypothesis Hafr : (0 < array_failure_rate)%R.
Hypothesis Hrr : (0 < replace_rate)%R.
Hypothesis Hr : 0 <= r < n.
Hypothesis Hn : n <= UINT_MAX.

Lemma MTBF_pos : (0 < IZR n / array_failure_rate)%R.
Proof.
  apply Rdiv_lt_0_compat; [|exact Hafr]. apply IZR_lt. lia.
Qed.

Lemma MTTR_pos : (0 < 1 / replace_rate)%R.
Proof. apply Rdiv_lt_0_compat; [lra|exact Hrr]. Qed.

Lemma MTTDL_formula_pos : (0 < MTTDL_formula array_failure_rate replace_rate n r)%R.
Proof.
  unfold MTTDL_formula.
  apply Rdiv_lt_0_compat; [apply Rdiv_lt_0_compat|].
  - apply pow_lt, MTBF_pos.
  - apply pow_lt, MTTR_pos.
  - apply IZR_lt. pose proof (falling_product_pos n r Hr). lia.
Qed.

(** The failure rate of the array the function computes: the inverse of the
    mean time to data loss of the formula. *)
Lemma raid_prob_fin :
  raid_prob_of_one_or_more_failures (Fin array_failure_rate) (Fin replace_rate) n r
  = poisson_prob_n_or_more_failures
      (Fin (1 / MTTDL_formula array_failure_rate replace_rate n r)) 1.
Proof.
  unfold raid_prob_of_one_or_more_failures.
  rewrite dlit_one, d_of_uint_fin. cbn [ddiv dpow ereal_arith ereal_libm].
  rewrite (ediv_fin (IZR n)) by lra.
  rewrite (ediv_fin 1) by lra.
  rewrite wrap32_small by lia.
  rewrite !epow_fin by lia.
  replace (Z.to_nat (r + 1)) with (S (Z.to_nat r)) by lia.
  rewrite ediv_fin by (apply pow_nonzero; pose proof MTTR_pos; lra).
  rewrite mttdl_divide_fin by assumption.
  fold (MTTDL_formula array_failure_rate replace_rate n r).
  rewrite ediv_fin by (pose proof MTTDL_formula_pos; lra).
  reflexivity.
Qed.

Lemma raid_prob_value :
  raid_prob_of_one_or_more_failures (Fin array_failure_rate) (Fin replace_rate) n r
  = Fin (1 - exp (- (1 / MTTDL_formula array_failure_rate replace_rate n r))).
Proof. rewrite raid_prob_fin. apply poisson_prob_one_or_more_fin. Qed.

End Raid.

(** C1.  For [0 <= r < n]: in every arithmetic of [double], binary64 included,
    the function returns the Poisson tail at 1 of the inverse of
    [pow(MTBF, r + 1) / pow(MTTR, r)] divided in turn by [n], [n - 1], ...,
    [n - r], for [MTBF = n / array_failure_rate] and [MTTR = 1 / replace_rate].
    Over the extended reals, for a finite array failure rate and a finite
    repair rate, both positive, these divisions are one division by the
    falling product: the function returns the Poisson tail at 1 of the rate
    [1 / MTTDL], where [MTTDL] is [MTBF^(r + 1) / MTTR^r] divided by
    [n * (n - 1) * ... * (n - r)]; this is [1 - e^(-1 / MTTDL)]. *)
Theorem raid_prob_is_poisson_of_MTTDL (array_failure_rate replace_rate : R) (n r : Z) :
  (0 < array_failure_rate)%R -> (0 < replace_rate)%R ->
  0 <= r < n -> n <= UINT_MAX ->
  let MTBF := (IZR n / array_failure_rate)%R in
  let MTTR := (1 / replace_rate)%R in
  let MTTDL :=
    (MTBF ^ S (Z.to_nat r) / MTTR ^ Z.to_nat r / IZR (falling_product n r))%R in
  raid_prob_of_one_or_more_failures (Fin array_failure_rate) (Fin replace_rate) n r
    = poisson_prob_n_or_more_failures (Fin (1 / MTTDL)) 1 /\
  raid_prob_of_one_or_more_failures (Fin array_failure_rate) (Fin replace_rate) n r
    = Fin (1 - exp (- (1 / MTTDL))) /\
  (forall (D : Type) (arith : Arith D) (libm : LibM D) (a q : D),
     raid_prob_of_one_or_more_failures a q n r
     = poisson_prob_n_or_more_failures
         (dlit 10 1
          / fold_left (fun x d => x / d_of_uint d)
              (map (fun i => (n - i)%Z) (upto 0 (S (Z.to_nat r))))
              (dpow (d_of_uint n / a) (r + 1)%Z / dpow (dlit 10 1 / q) r))%D 1).
Proof.
  intros Hafr Hrr Hr Hn. split; [|split].
  - apply raid_prob_fin; assumption.
  - apply raid_prob_value; assumption.
  - intros D arith libm a q. apply raid_prob_generic; assumption.
Qed.

(** The theorem for an array of 4 members and 2 parities, one failure in 50
    years and a repair a week. *)
Lemma raid_prob_is_poisson_of_MTTDL_witness :
  raid_prob_of_one_or_more_failures (Fin (1 / 50)) (Fin (365 / 7)) 4 2
  = poisson_prob_n_or_more_failures
      (Fin (1 / ((4 / (1 / 50)) ^ 3 / (1 / (365 / 7)) ^ 2 / IZR (falling_product 4 2)))) 1.
Proof.
  assert (Hafr : (0 < 1 / 50)%R) by lra.
  assert (Hrr : (0 < 365 / 7)%R) by lra.
  assert (Hr : 0 <= 2 < 4) by lia.
  assert (Hn : 4 <= UINT_MAX) by (unfold UINT_MAX; lia).
  exact (proj1 (raid_prob_is_poisson_of_MTTDL _ _ 4 2 Hafr Hrr Hr Hn)).
Defined.

(** ** How the estimate varies *)

Lemma pow_lt_strict (x y : R) (k : nat) :
  (0 < x < y)%R -> (0 < k)%nat -> (x ^ k < y ^ k)%R.
Proof.
  intros [Hx Hxy] Hk. induction k as [|k IH]; [lia|].
  destruct k as [|k].
  - simpl. lra.
  - specialize (IH ltac:(lia)).
    assert (0 < x ^ S k)%R by (apply pow_lt; lra).
    change (x ^ S (S k))%R with (x * x ^ S k)%R.
    change (y ^ S (S k))%R with (y * y ^ S k)%R. nra.
Qed.

(** The result grows strictly with the failure rate of the array. *)
Lemma one_minus_exp_lt (x y : R) :
  elt (Fin (1 - exp (- x))) (Fin (1 - exp (- y))) <-> (x < y)%R.
Proof.
  simpl. split; intros H.
  - assert (He : (exp (- y) < exp (- x))%R) by lra.
    apply exp_lt_inv in He. lra.
  - assert (He : (exp (- y) < exp (- x))%R) by (apply exp_increasing; lra).
    lra.
Qed.



Section Vary.

Variables (array_failure_rate replace_rate : R) (n r : Z).
Hypothesis Hafr : (0 < array_failure_rate)%R.
Hypothesis Hrr : (0 < replace_rate)%R.
Hypothesis Hr : 0 <= r < n.
Hypothesis Hn : n <= UINT_MAX.

(** One more parity multiplies the failure rate of the array by
    [(n - r - 1) * array_failure_rate / (n * replace_rate)]. *)
Lemma raid_rate_succ :
  r + 1 < n ->
  (1 / MTTDL_formula array_failure_rate replace_rate n (r + 1)
   = 1 / MTTDL_formula array_failure_rate replace_rate n r
     * (IZR (n - r - 1) * array_failure_rate / (IZR n * replace_rate)))%R.
Proof.
  intros Hr1. unfold MTTDL_formula.
  replace (Z.to_nat (r + 1)) with (S (Z.to_nat r)) by lia.
  rewrite falling_product_succ by lia. rewrite mult_IZR.
  replace (n - (r + 1)) with (n - r - 1) by lia.
  pose proof (falling_product_pos n r Hr) as HF.
  assert (HF0 : IZR (falling_product n r) <> 0%R) by (apply not_0_IZR; lia).
  assert (Hd0 : IZR (n - r - 1) <> 0%R) by (apply not_0_IZR; lia).
  assert (Hn0 : IZR n <> 0%R) by (apply not_0_IZR; lia).
  pose proof (MTBF_pos array_failure_rate n r Hafr Hr) as Hx.
  pose proof (MTTR_pos replace_rate Hrr) as Hy.
  assert (Ha : ((IZR n / array_failure_rate) ^ Z.to_nat r <> 0)%R)
    by (apply pow_nonzero; lra).
  assert (Hb : ((1 / replace_rate) ^ Z.to_nat r <> 0)%R)
    by (apply pow_nonzero; lra).
  set (k := Z.to_nat r) in *.
  change ((IZR n / array_failure_rate) ^ S (S k))%R
    with (IZR n / array_failure_rate * (IZR n / array_failure_rate * (IZR n / array_failure_rate) ^ k))%R.
  change ((IZR n / array_failure_rate) ^ S k)%R
    with (IZR n / array_failure_rate * (IZR n / array_failure_rate) ^ k)%R.
  change ((1 / replace_rate) ^ S k)%R
    with (1 / replace_rate * (1 / replace_rate) ^ k)%R.
  set (a := ((IZR n / array_failure_rate) ^ k)%R) in *.
  set (b := ((1 / replace_rate) ^ k)%R) in *.
  field. repeat split; auto; lra.
Qed.

Lemma raid_rate_pos :
  (0 < 1 / MTTDL_formula array_failure_rate replace_rate n r)%R.
Proof.
  apply Rdiv_lt_0_compat; [lra|].
  apply MTTDL_formula_pos; assumption.
Qed.

(** One more parity lowers the estimate exactly when
    [(n - r - 1) * array_failure_rate < n * replace_rate]. *)
Lemma raid_prob_redundancy :
  r + 1 < n ->
  elt (raid_prob_of_one_or_more_failures
         (Fin array_failure_rate) (Fin replace_rate) n (r + 1))
      (raid_prob_of_one_or_more_failures
         (Fin array_failure_rate) (Fin replace_rate) n r)
  <-> (IZR (n - r - 1) * array_failure_rate < IZR n * replace_rate)%R.
Proof.
  intros Hr1.
  rewrite !raid_prob_value by (assumption || lia).
  rewrite one_minus_exp_lt. rewrite raid_rate_succ by exact Hr1.
  pose proof raid_rate_pos as Hpos.
  set (rho := (1 / MTTDL_formula array_failure_rate replace_rate n r)%R) in *.
  assert (Hden : (0 < IZR n * replace_rate)%R).
  { apply Rmult_lt_0_compat; [apply IZR_lt; lia|exact Hrr]. }
  set (num := (IZR (n - r - 1) * array_failure_rate)%R).
  set (den := (IZR n * replace_rate)%R) in *.
  assert (Hq : (num / den * den = num)%R) by (field; lra).
  split; intros H.
  - assert (Hlt : (num / den < 1)%R) by nra. nra.
  - assert (Hlt : (num / den < 1)%R).
    { apply Rmult_lt_reg_r with den; [exact Hden|]. lra. }
    nra.
Qed.




Lemma fold_left_ediv_PInf (ds : list Z) :
  Forall (fun d => 0 <= d) ds ->
  fold_left (fun x d => (x / d_of_uint d)%D) ds PInf = PInf.
Proof.
  induction 1 as [|d ds Hd _ IH]; [reflexivity|].
  cbn [fold_left ddiv d_of_uint ereal_arith ediv].
  destruct (Rlt_dec (IZR d) 0) as [Hneg|_]; [|exact IH].
  apply lt_IZR in Hneg. lia.
Qed.






End Vary.

Lemma upto_app (a : nat) :
  forall (b : nat) (i : Z), upto i (a + b) = upto i a ++ upto (i + Z.of_nat a) b.
Proof.
  induction a as [|a IH]; intros b i.
  - simpl. rewrite Z.add_0_r. reflexivity.
  - simpl plus. cbn [upto app]. rewrite IH. do 3 f_equal. lia.
Qed.

(** A redundancy that is not below the number of members.  The loop divides
    by [n - n = 0], which makes the mean time to data loss infinite, and then
    by values of [n - i] that wrap around; the estimate is 0. *)
Lemma raid_prob_redundancy_ge_members (array_failure_rate replace_rate : R) (n r : Z) :
  (0 < array_failure_rate)%R -> (0 < replace_rate)%R ->
  1 <= n <= r -> r < UINT_MAX ->
  raid_prob_of_one_or_more_failures (Fin array_failure_rate) (Fin replace_rate) n r
  = Fin 0.
Proof.
  intros Hafr Hrr Hn Hr. unfold UINT_MAX in Hr.
  unfold raid_prob_of_one_or_more_failures.
  rewrite dlit_one, d_of_uint_fin. cbn [ddiv dpow ereal_arith ereal_libm].
  rewrite (ediv_fin (IZR n)) by lra.
  rewrite (ediv_fin 1) by lra.
  rewrite wrap32_small by (unfold UINT_MAX; lia).
  rewrite !epow_fin by lia.
  assert (Hx : (0 < IZR n / array_failure_rate)%R).
  { apply Rdiv_lt_0_compat; [apply IZR_lt; lia|exact Hafr]. }
  assert (Hy : (0 < 1 / replace_rate)%R) by (apply MTTR_pos; exact Hrr).
  assert (Hyk : (0 < (1 / replace_rate) ^ Z.to_nat r)%R) by (apply pow_lt; exact Hy).
  rewrite ediv_fin by lra.
  set (m := ((IZR n / array_failure_rate) ^ Z.to_nat (r + 1)
             / (1 / replace_rate) ^ Z.to_nat r)%R).
  assert (Hm : (0 < m)%R).
  { unfold m. apply Rdiv_lt_0_compat; [apply pow_lt; exact Hx|exact Hyk]. }
  rewrite mttdl_divide_divisors. unfold mttdl_divisors.
  rewrite wrap32_small by (unfold UINT_MAX; lia).
  rewrite for_up_fold by (unfold UINT_MAX; lia).
  rewrite fold_left_snoc_list. cbn [app].
  replace (Z.to_nat (r + 1)) with (Z.to_nat n + S (Z.to_nat (r - n)))%nat by lia.
  rewrite upto_app. cbn [upto]. rewrite map_app. cbn [map].
  rewrite fold_left_app. cbn [fold_left].
  replace (Fin m) with (Fin (m / IZR 1)) by (f_equal; field).
  rewrite fold_left_ediv; [| |lia].
  - assert (HP : 1 <= fold_left Z.mul
                        (map (fun i => wrap32 (n - i)) (upto 0 (Z.to_nat n))) 1).
    { apply fold_left_mul_pos; [|lia].
      apply Forall_forall. intros d Hd. apply in_map_iff in Hd as (k & <- & Hk).
      apply upto_range in Hk. rewrite wrap32_small by (unfold UINT_MAX; lia). lia. }
    set (P := fold_left Z.mul (map (fun i => wrap32 (n - i)) (upto 0 (Z.to_nat n))) 1)
      in *.
    replace (0 + Z.of_nat (Z.to_nat n)) with n by lia.
    replace (wrap32 (n - n)) with 0 by (rewrite Z.sub_diag; reflexivity).
    assert (Hinf : (Fin (m / IZR P) / d_of_uint 0)%D = PInf).
    { cbn [ddiv d_of_uint ereal_arith ediv].
      destruct (Req_dec_T 0 0) as [_|Hne]; [|contradiction].
      unfold inf_of_sign.
      destruct (Rlt_dec 0 (m / IZR P)) as [_|Hnp]; [reflexivity|].
      exfalso. apply Hnp. apply Rdiv_lt_0_compat; [exact Hm|]. apply IZR_lt. lia. }
    rewrite Hinf. rewrite fold_left_ediv_PInf.
    + cbn [ediv]. rewrite poisson_prob_one_or_more_fin. f_equal.
      rewrite Ropp_0, exp_0. lra.
    + apply Forall_forall. intros d Hd. apply in_map_iff in Hd as (k & <- & _).
      unfold wrap32. apply Z.mod_pos_bound. lia.
  - apply Forall_forall. intros d Hd. apply in_map_iff in Hd as (k & <- & Hk).
    apply upto_range in Hk. rewrite wrap32_small by (unfold UINT_MAX; lia). lia.
Qed.





(** ** Printing a probability *)

Section Printing.

Local Open Scope string_scope.

Lemma plain_app (s t : string) : plain s -> plain t -> plain (s ++ t).
Proof.
  induction s as [|c s IH]; simpl; [auto|]. intros [Hc Hs] Ht. split; auto.
Qed.

Lemma plain_spaces (k : nat) : plain (spaces k).
Proof. induction k as [|k IH]; simpl; [exact I|]. split; [discriminate|exact IH]. Qed.

Lemma digit_char_plain (z : Z) : digit_char (z mod 10) <> "%"%char.
Proof.
  unfold digit_char.
  assert (H : (Z.to_nat (z mod 10) < 10)%nat).
  { pose proof (Z.mod_pos_bound z 10 ltac:(lia)). lia. }
  destruct (Z.to_nat (z mod 10)) as [|k]; [discriminate|].
  do 9 (destruct k as [|k]; [discriminate|]). lia.
Qed.

Lemma plain_dec_digits (fuel : nat) :
  forall z acc, plain acc -> plain (dec_digits fuel z acc).
Proof.
  induction fuel as [|fuel IH]; intros z acc Hacc; simpl; [exact Hacc|].
  assert (Hnew : plain (String (digit_char (z mod 10)) acc)).
  { split; [apply digit_char_plain|exact Hacc]. }
  destruct (z <? 10)%Z; [exact Hnew|]. apply IH. exact Hnew.
Qed.

Lemma plain_frac_digits (p : nat) :
  forall z acc, plain acc -> plain (frac_digits p z acc).
Proof.
  induction p as [|p IH]; intros z acc Hacc; simpl; [exact Hacc|].
  apply IH. split; [apply digit_char_plain|exact Hacc].
Qed.

Lemma frac_digits_length (p : nat) :
  forall z acc, String.length (frac_digits p z acc) = (p + String.length acc)%nat.
Proof.
  induction p as [|p IH]; intros z acc; simpl; [reflexivity|].
  rewrite IH. simpl. lia.
Qed.

Lemma plain_fixed_digits (m e : Z) (p : nat) : plain (fixed_digits m e p).
Proof.
  unfold fixed_digits. destruct p as [|p].
  - apply plain_dec_digits. exact I.
  - apply plain_app; [apply plain_dec_digits; exact I|].
    apply plain_app; [split; [discriminate|exact I]|].
    apply plain_frac_digits. exact I.
Qed.

Lemma plain_sign_string (s : bool) : plain (sign_string s).
Proof. destruct s; simpl; [split; [discriminate|exact I]|exact I]. Qed.

(** The conversion [%w.pf] never writes a percent sign. *)
Lemma plain_format_f (w p : nat) (v : float) (num : string) :
  format_f w p v = Some num -> plain num.
Proof.
  unfold format_f. destruct (Prim2SF v) as [s|s| |s m e]; intros [= <-];
    unfold pad_left; apply plain_app; try apply plain_spaces;
    apply plain_app; try apply plain_sign_string; try apply plain_fixed_digits.
  simpl. repeat split; discriminate.
Qed.

(** Printed as a format, a text without percent sign followed by [" %%"] is
    the text followed by [" %"]. *)
Lemma printf_text_percent (s : string) :
  plain s -> printf_text (s ++ " %%") = Some (s ++ " %").
Proof.
  induction s as [|c s IH]; [reflexivity|].
  intros [Hc Hs]. specialize (IH Hs).
  change ((String c s) ++ " %%") with (String c (s ++ " %%")).
  change ((String c s) ++ " %") with (String c (s ++ " %")).
  cbn [printf_text]. rewrite IH.
  destruct c as [[] [] [] [] [] [] [] []]; try reflexivity.
  exfalso. apply Hc. reflexivity.
Qed.

Lemma substring_all (s : string) :
  forall n, (String.length s <= n)%nat -> substring 0 n s = s.
Proof.
  induction s as [|c s IH]; intros n Hn.
  - destruct n; reflexivity.
  - destruct n as [|n]; simpl in Hn; [lia|]. simpl. rewrite IH by lia. reflexivity.
Qed.

Lemma append_assoc (s t u : string) : (s ++ t) ++ u = s ++ (t ++ u).
Proof. induction s as [|c s IH]; simpl; [reflexivity|]. rewrite IH. reflexivity. Qed.

Lemma append_length (s t : string) :
  String.length (s ++ t) = (String.length s + String.length t)%nat.
Proof. induction s as [|c s IH]; simpl; [reflexivity|]. rewrite IH. reflexivity. Qed.

Lemma spaces_length (k : nat) : String.length (spaces k) = k.
Proof. induction k as [|k IH]; simpl; [reflexivity|]. rewrite IH. reflexivity. Qed.

(** The padding loop appends [pad - len] spaces. *)
Lemma pad_loop_spaces (fuel : nat) :
  forall len pad out, (pad - len <= fuel)%nat ->
    pad_loop fuel len pad out = out ++ spaces (pad - len).
Proof.
  induction fuel as [|fuel IH]; intros len pad out Hfuel.
  - simpl. replace (pad - len)%nat with 0%nat by lia.
    simpl. clear. induction out as [|c out IH]; simpl; [reflexivity|].
    rewrite <- IH. reflexivity.
  - simpl. destruct (len <? pad)%nat eqn:E.
    + apply Nat.ltb_lt in E. rewrite IH by lia.
      replace (pad - len)%nat with (S (pad - S len)) by lia.
      rewrite append_assoc. reflexivity.
    + apply Nat.ltb_ge in E. replace (pad - len)%nat with 0%nat by lia.
      simpl. clear. induction out as [|c out IH]; simpl; [reflexivity|].
      rewrite <- IH. reflexivity.
Qed.

(** [printl] of a number followed by [" %%"]: the padding is counted on the
    text with its two percent signs, of which one is printed. *)
Lemma printl_percent (num : string) (pad : nat) :
  plain num ->
  printl (num ++ " %%") pad
  = Some (num ++ " %" ++ spaces (pad - (String.length num + 3))).
Proof.
  intros Hplain. unfold printl. rewrite printf_text_percent by exact Hplain.
  rewrite bind_some. rewrite pad_loop_spaces by lia.
  rewrite append_length. simpl String.length.
  rewrite append_assoc. reflexivity.
Qed.

(** The nested tests of [printp] choose the row of the table. *)
Lemma printp_format_decimals (v : float) :
  printp_format v
  = ((decimals_of decimals_table v + 3)%nat, decimals_of decimals_table v).
Proof.
  cbv [printp_format decimals_of decimals_table].
  repeat (match goal with
          | |- context [PrimFloat.ltb ?t v] => destruct (PrimFloat.ltb t v)
          end; [reflexivity|]).
  reflexivity.
Qed.

Lemma printp_text (v : float) (pad : nat) (num : string) :
  format_f (decimals_of decimals_table v + 3) (decimals_of decimals_table v) v
    = Some num ->
  (String.length num + 3 <= 63)%nat ->
  printp v pad = Some (num ++ " %" ++ spaces (pad - (String.length num + 3))).
Proof.
  intros Hnum Hlen. unfold printp. rewrite printp_format_decimals.
  unfold snprintf_f. rewrite Hnum. rewrite !bind_some.
  rewrite substring_all by (rewrite append_length; simpl; lia).
  apply printl_percent. eapply plain_format_f. exact Hnum.
Qed.

End Printing.

(** ** What the report prints through [printp] *)

Ltac printf_all :=
  repeat (constructor;
          [repeat match goal with
                  | |- context [if ?b then _ else _] => destruct b
                  end; exact I|]);
  try constructor.

Section Printed.

Context {D : Type} {arith : Arith D} {libm : LibM D}.
Variables (SMART_UNASSIGNED SMART_ERROR SMART_SIZE : Z) (PRIu64 : string).

Lemma printp_calls_app (t1 t2 : list (event D)) :
  printp_calls (t1 ++ t2) = printp_calls t1 ++ printp_calls t2.
Proof.
  induction t1 as [|e t1 IH]; [reflexivity|].
  destruct e; simpl; rewrite IH; reflexivity.
Qed.

Lemma printf_or_printl_calls (t : list (event D)) :
  Forall printf_or_printl t -> printp_calls t = [].
Proof.
  induction 1 as [|e t He _ IH]; [reflexivity|].
  destruct e; simpl in *; auto; contradiction.
Qed.

Lemma smart_row_printf (device_pad serial_pad : nat) (d : devinfo) (afr : D) :
  Forall printf_or_printl
    (smart_row SMART_UNASSIGNED SMART_ERROR SMART_SIZE PRIu64
       device_pad serial_pad d afr).
Proof. unfold smart_row. printf_all. Qed.

(** The rows of the devices: they are printed by [printf] and [printl]; the
    row of a device holds its AFP, printed by [printf] with [%5.0f]. *)
Lemma smart_rows_printed (device_pad serial_pad : nat) (low : list devinfo) :
  forall (acc : D) (rows : list (event D)) (total : D),
    smart_rows SMART_UNASSIGNED SMART_ERROR SMART_SIZE PRIu64
      device_pad serial_pad low acc = Some (rows, total) ->
    Forall printf_or_printl rows /\
    (forall d afr,
       In d low -> smart_afr SMART_UNASSIGNED (smart d) = Some afr ->
       In (Printf "%5.0f"
             [ADouble (poisson_prob_n_or_more_failures afr 1 * d_of_uint 100)%D])
          rows) /\
    exists rates,
      logical_rates SMART_UNASSIGNED low = Some rates /\
      total = fold_left dadd rates acc.
Proof.
  induction low as [|d low IH]; intros acc rows total Hrows.
  - cbn [smart_rows] in Hrows. injection Hrows as <- <-.
    split; [constructor|]. split; [intros d afr []|].
    exists []. split; reflexivity.
  - cbn [smart_rows logical_rates] in *.
    destruct (smart_afr SMART_UNASSIGNED (smart d)) as [afr|] eqn:Eafr;
      [|discriminate Hrows].
    rewrite bind_some in Hrows. rewrite bind_some.
    destruct (smart_rows SMART_UNASSIGNED SMART_ERROR SMART_SIZE PRIu64
                device_pad serial_pad low
                match parent d with
                | Some _ => (acc + afr)%D
                | None => acc
                end) as [[rows' total']|] eqn:Erest; [|discriminate Hrows].
    rewrite bind_some in Hrows. cbn [fst snd] in Hrows.
    remember (smart_row SMART_UNASSIGNED SMART_ERROR SMART_SIZE PRIu64
                device_pad serial_pad d afr) as row eqn:Hrow.
    injection Hrows as <- <-.
    destruct (IH _ _ _ Erest) as (Hpr & Hafp & rates & Hrates & Htotal).
    split.
    { apply Forall_app. split; [rewrite Hrow; apply smart_row_printf|exact Hpr]. }
    split.
    + intros d' afr' [<-|Hin] Hafr'.
      * rewrite Eafr in Hafr'. injection Hafr' as <-.
        apply in_or_app. left. rewrite Hrow. unfold smart_row. cbn [In].
        do 3 right. left. reflexivity.
      * apply in_or_app. right. apply (Hafp d' afr' Hin Hafr').
    + rewrite Hrates, bind_some. destruct (parent d).
      * exists (afr :: rates). split; [reflexivity|exact Htotal].
      * exists rates. split; [reflexivity|exact Htotal].
Qed.

Lemma loss_table_printp (a : D) (n : Z) (js : list Z) :
  forall out : list (event D),
    printp_calls (fold_left (fun out j => out ++ loss_row a n j) js out)
    = printp_calls out
      ++ flat_map (fun j => printp_calls_of a n (wrap32 (j + 1))) js.
Proof.
  induction js as [|j js IH]; intros out; simpl.
  - rewrite app_nil_r. reflexivity.
  - rewrite IH. rewrite printp_calls_app. rewrite <- app_assoc. reflexivity.
Qed.

(** The report: the values it prints through [printp] are the cells of the
    table of the data loss, 3 for each redundancy from 1 to
    [RAID_PARITY_MAX]; the AFP of each device and the probability of the
    summary are printed by [printf], with [%5.0f] and [%.0f %%]. *)
Lemma state_smart_printed (n : Z) (low : list devinfo) (report : list (event D)) :
  state_smart SMART_UNASSIGNED SMART_ERROR SMART_SIZE PRIu64 n low = Some report ->
  exists rates,
    logical_rates SMART_UNASSIGNED low = Some rates /\
    printp_calls report
    = flat_map
        (fun j => printp_calls_of (fold_left dadd rates (d_of_uint 0)) n (j + 1))
        (upto 0 (Z.to_nat RAID_PARITY_MAX)) /\
    (forall d afr,
       In d low -> smart_afr SMART_UNASSIGNED (smart d) = Some afr ->
       In (Printf "%5.0f"
             [ADouble (poisson_prob_n_or_more_failures afr 1 * d_of_uint 100)%D])
          report) /\
    In (Printf ("Probability of at least one disk failure in the next year is: %.0f %%"
                ++ nl)%string
          [ADouble (poisson_prob_n_or_more_failures
                      (fold_left dadd rates (d_of_uint 0)) 1 * d_of_uint 100)%D])
       report.
Proof.
  unfold state_smart.
  destruct (smart_rows SMART_UNASSIGNED SMART_ERROR SMART_SIZE PRIu64
              (max_length file low) (max_length smart_serial low) low
              (d_of_uint 0)) as [[rows total]|] eqn:Erows; [|discriminate].
  rewrite bind_some. cbn [fst snd]. cbv zeta.
  destruct (smart_rows_printed _ _ _ _ _ _ Erows)
    as (Hpr & Hafp & rates & Hrates & ->).
  rewrite for_up_fold by (unfold RAID_PARITY_MAX, UINT_MAX; simpl; lia).
  cbv beta.
  match goal with
  | |- Some (?h ++ rows ++ ?s ++ ?t ++ ?f) = Some report -> _ =>
      set (header := h); set (summary := s); set (table := t); set (footer := f)
  end.
  intros Hreport.
  assert (Hrep : report = header ++ rows ++ summary ++ table ++ footer)
    by congruence.
  clear Hreport. subst report.
  exists rates. split; [exact Hrates|].
  assert (Hh : Forall printf_or_printl header) by (unfold header; printf_all).
  assert (Hs : Forall printf_or_printl summary) by (unfold summary; printf_all).
  assert (Hf : Forall printf_or_printl footer) by (unfold footer; printf_all).
  split; [|split].
  - rewrite !printp_calls_app.
    rewrite (printf_or_printl_calls header Hh), (printf_or_printl_calls rows Hpr),
      (printf_or_printl_calls summary Hs), (printf_or_printl_calls footer Hf).
    unfold table. rewrite loss_table_printp. cbn [printp_calls app].
    rewrite app_nil_r. reflexivity.
  - intros d afr Hd Hafr. apply in_or_app. right. apply in_or_app. left.
    exact (Hafp d afr Hd Hafr).
  - apply in_or_app. right. apply in_or_app. right. apply in_or_app. left.
    unfold summary. cbn [In]. do 4 right. left. reflexivity.
Qed.

End Printed.

(** C8 (amended).  [printp] chooses the number of decimals by the table, with
    strict comparisons: the value 0.1 gets 3 decimals, the value 0 gets 14, the
    value 50 gets 2.  For a value that is a number, whose text [num] in the
    conversion of [decimals + 3] characters and [decimals] decimals leaves room
    in the buffer, the output is [num], a space, a percent sign, and
    [pad - (length num + 3)] spaces: the padding stops one column before
    [pad], because it is counted on the text with the percent sign doubled.
    Of the probabilities of the report, [printp] prints the cells of the table
    of the data loss only, 3 for each redundancy; the AFP of each device and
    the probability of the summary are printed by [printf], with the formats
    [%5.0f] and [%.0f %%]. *)
Theorem printp_output (v : float) (pad : nat) (num : string) :
  format_f (decimals_of decimals_table v + 3) (decimals_of decimals_table v) v
    = Some num ->
  (String.length num + 3 <= 63)%nat ->
  printp_format v
    = ((decimals_of decimals_table v + 3)%nat, decimals_of decimals_table v) /\
  printp v pad
    = Some (num ++ " %" ++ spaces (pad - (String.length num + 3)))%string /\
  decimals_of decimals_table (dlit 1 1) = 3%nat /\
  decimals_of decimals_table (float_of_Z 0) = 14%nat /\
  decimals_of decimals_table (float_of_Z 50) = 2%nat /\
  (forall (libm : LibM float) (SMART_UNASSIGNED SMART_ERROR SMART_SIZE : Z)
          (PRIu64 : string) (n : Z) (low : list devinfo)
          (report : list (event float)),
     state_smart SMART_UNASSIGNED SMART_ERROR SMART_SIZE PRIu64 n low
     = Some report ->
     exists rates,
       logical_rates SMART_UNASSIGNED low = Some rates /\
       printp_calls report
       = flat_map
           (fun j => printp_calls_of (fold_left dadd rates (d_of_uint 0)) n (j + 1))
           (upto 0 (Z.to_nat RAID_PARITY_MAX)) /\
       (forall d afr,
          In d low -> smart_afr SMART_UNASSIGNED (smart d) = Some afr ->
          In (Printf "%5.0f"
                [ADouble (poisson_prob_n_or_more_failures afr 1 * d_of_uint 100)%D])
             report) /\
       In (Printf ("Probability of at least one disk failure in the next year is: %.0f %%"
                   ++ nl)%string
             [ADouble (poisson_prob_n_or_more_failures
                         (fold_left dadd rates (d_of_uint 0)) 1 * d_of_uint 100)%D])
          report).
Proof.
  intros Hnum Hlen.
  split; [apply printp_format_decimals|].
  split; [apply printp_text; assumption|].
  split; [vm_compute; reflexivity|].
  split; [vm_compute; reflexivity|].
  split; [vm_compute; reflexivity|].
  intros libm SMART_UNASSIGNED SMART_ERROR SMART_SIZE PRIu64 n low report Hreport.
  exact (state_smart_printed SMART_UNASSIGNED SMART_ERROR SMART_SIZE PRIu64
           n low report Hreport).
Qed.

(** The theorem for the value 50 and the column width 20. *)
Lemma printp_output_witness :
  printp (float_of_Z 50) 20
  = Some ("50.00" ++ " %" ++ spaces (20 - (String.length "50.00" + 3)))%string.
Proof.
  assert (Hnum : format_f (decimals_of decimals_table (float_of_Z 50) + 3)
                   (decimals_of decimals_table (float_of_Z 50)) (float_of_Z 50)
                 = Some "50.00"%string) by (vm_compute; reflexivity).
  assert (Hlen : (String.length "50.00" + 3 <= 63)%nat) by (vm_compute; lia).
  exact (proj1 (proj2 (printp_output (float_of_Z 50) 20 "50.00" Hnum Hlen))).
Defined.

(** C8, as stated, fails on the text of the output: for the value 50 and the
    column width 20 the output is "50.00 %" and 12 spaces, 19 characters: a
    space stands between the number and the percent sign, and the text is not
    padded to the 20 columns. *)
Lemma printp_50_output :
  printp (float_of_Z 50) 20 = Some "50.00 %            "%string /\
  printp (float_of_Z 50) 20 <> Some ("50.00%" ++ spaces 14)%string /\
  (forall out, printp (float_of_Z 50) 20 = Some out -> String.length out <> 20%nat).
Proof.
  assert (E : printp (float_of_Z 50) 20 = Some "50.00 %            "%string)
    by (vm_compute; reflexivity).
  split; [exact E|]. split.
  - rewrite E. vm_compute. discriminate.
  - intros out Hout. rewrite E in Hout. injection Hout as <-. vm_compute. discriminate.
Qed.

(** ** The lookup is defined on the compiled-in tables *)

Section Total.

Context {D : Type} {arith : Arith D}.

(** In a table that holds a sentinel at the index [k], the scan stops at or
    before [k]. *)
Lemma afr_scan_total (tab : list (afr_point D)) (val : Z) (k : nat) (s : afr_point D) :
  nth_error tab k = Some s -> value s = 0 ->
  forall fuel i, (i <= k)%nat -> (k - i < fuel)%nat ->
    exists j, afr_scan fuel tab val i = Some j /\ (i <= j <= k)%nat.
Proof.
  intros Hk Hs. induction fuel as [|fuel IH]; intros i Hik Hfuel; [lia|].
  cbn [afr_scan].
  destruct (nth_error tab i) as [p|] eqn:Hi.
  2:{ apply nth_error_None in Hi.
      assert (k < List.length tab)%nat by (apply nth_error_Some; congruence). lia. }
  rewrite bind_some.
  destruct (negb (value p =? 0) && (value p <? val)) eqn:Hc.
  - assert (Hne : i <> k).
    { intros ->. rewrite Hk in Hi. injection Hi as <-.
      rewrite Hs in Hc. discriminate Hc. }
    destruct (IH (S i)) as (j & Hj & Hr); [lia|lia|].
    exists j. split; [exact Hj|lia].
  - exists i. split; [reflexivity|lia].
Qed.

Lemma smart_afr_value_total (tab : list (afr_point D)) (k : nat) (s : afr_point D) :
  (1 <= k)%nat -> nth_error tab k = Some s -> value s = 0 ->
  forall val, exists x, smart_afr_value tab val = Some x.
Proof.
  intros Hk1 Hk Hs val. unfold smart_afr_value.
  destruct (val =? 0); [eexists; reflexivity|].
  assert (Hlen : (k < List.length tab)%nat) by (apply nth_error_Some; congruence).
  destruct (afr_scan_total tab val k s Hk Hs (S (List.length tab)) 1%nat)
    as (j & Hj & Hr); [lia|lia|].
  rewrite Hj, bind_some.
  destruct (nth_error tab j) as [tj|] eqn:Htj.
  2:{ apply nth_error_None in Htj. lia. }
  destruct (nth_error tab (j - 1)) as [tj1|] eqn:Htj1.
  2:{ apply nth_error_None in Htj1. lia. }
  rewrite !bind_some.
  destruct (value tj =? 0); [eexists; reflexivity|].
  destruct (value tj =? val); eexists; reflexivity.
Qed.

Lemma compiled_tables_total (tab : list (afr_point D)) (val : Z) :
  In tab [AFR_5; AFR_187; AFR_188; AFR_193; AFR_197; AFR_198] ->
  exists x, smart_afr_value tab val = Some x.
Proof.
  simpl. intros [<-|[<-|[<-|[<-|[<-|[<-|[]]]]]]].
  - apply (smart_afr_value_total AFR_5 9 (pt0 0 0)); [lia|reflexivity|reflexivity].
  - apply (smart_afr_value_total AFR_187 7 (pt0 0 0)); [lia|reflexivity|reflexivity].
  - apply (smart_afr_value_total AFR_188 4 (pt0 0 0)); [lia|reflexivity|reflexivity].
  - apply (smart_afr_value_total AFR_193 5 (pt0 0 0)); [lia|reflexivity|reflexivity].
  - apply (smart_afr_value_total AFR_197 7 (pt0 0 0)); [lia|reflexivity|reflexivity].
  - apply (smart_afr_value_total AFR_198 6 (pt0 0 0)); [lia|reflexivity|reflexivity].
Qed.

Lemma add_attr_total (UNASSIGNED : Z) (smart : Z -> Z) (tab : list (afr_point D))
    (id : Z) (acc : D) :
  In tab [AFR_5; AFR_187; AFR_188; AFR_193; AFR_197; AFR_198] ->
  exists x, add_attr UNASSIGNED smart tab id acc = Some x.
Proof.
  intros Htab. unfold add_attr.
  destruct (smart id =? UNASSIGNED); [eexists; reflexivity|].
  destruct (compiled_tables_total tab (smart id) Htab) as (x & Hx).
  rewrite Hx, bind_some. eexists; reflexivity.
Qed.

(** [smart_afr] returns a rate for every set of attributes. *)
Lemma smart_afr_total (UNASSIGNED : Z) (smart : Z -> Z) :
  exists a, smart_afr UNASSIGNED smart = Some a.
Proof.
  unfold smart_afr. rewrite bind_some.
  destruct (add_attr_total UNASSIGNED smart AFR_5 5 (d_of_uint 0)) as (a1 & E1);
    [simpl; tauto|]. rewrite E1, bind_some.
  destruct (add_attr_total UNASSIGNED smart AFR_187 187 a1) as (a2 & E2);
    [simpl; tauto|]. rewrite E2, bind_some.
  destruct (add_attr_total UNASSIGNED smart AFR_188 188 a2) as (a3 & E3);
    [simpl; tauto|]. rewrite E3, bind_some.
  destruct (add_attr_total UNASSIGNED smart AFR_193 193 a3) as (a4 & E4);
    [simpl; tauto|]. rewrite E4, bind_some.
  destruct (add_attr_total UNASSIGNED smart AFR_197 197 a4) as (a5 & E5);
    [simpl; tauto|]. rewrite E5, bind_some.
  apply add_attr_total. simpl; tauto.
Qed.

End Total.

(** ** The report and the dispatcher *)

Lemma loss_calls_app {D : Type} (t1 t2 : list (event D)) :
  loss_calls (t1 ++ t2) = loss_calls t1 ++ loss_calls t2.
Proof.
  induction t1 as [|e t1 IH]; [reflexivity|].
  destruct e; simpl; rewrite IH; reflexivity.
Qed.

Lemma stderr_calls_app {D : Type} (t1 t2 : list (event D)) :
  stderr_calls (t1 ++ t2) = stderr_calls t1 ++ stderr_calls t2.
Proof.
  induction t1 as [|e t1 IH]; [reflexivity|].
  destruct e; simpl; rewrite IH; reflexivity.
Qed.

Lemma stdout_events_app {D : Type} (t1 t2 : list (event D)) :
  stdout_events (t1 ++ t2) = stdout_events t1 ++ stdout_events t2.
Proof.
  induction t1 as [|e t1 IH]; [reflexivity|].
  destruct e; simpl; rewrite IH; reflexivity.
Qed.

Lemma prints_loss_calls {D : Type} (t : list (event D)) :
  Forall prints t -> loss_calls t = [].
Proof.
  induction 1 as [|e t He _ IH]; [reflexivity|].
  destruct e; simpl in *; auto; contradiction.
Qed.

Lemma prints_stderr_calls {D : Type} (t : list (event D)) :
  Forall prints t -> stderr_calls t = [].
Proof.
  induction 1 as [|e t He _ IH]; [reflexivity|].
  destruct e; simpl in *; auto; contradiction.
Qed.

Lemma prints_stdout_events {D : Type} (t : list (event D)) :
  Forall prints t -> stdout_events t = t.
Proof.
  induction 1 as [|e t He _ IH]; [reflexivity|].
  destruct e; simpl in *; try contradiction; rewrite IH; reflexivity.
Qed.

Lemma flat_map_ext_in {A B : Type} (f g : A -> list B) (l : list A) :
  (forall a, In a l -> f a = g a) -> flat_map f l = flat_map g l.
Proof.
  induction l as [|a l IH]; intros H; simpl; [reflexivity|].
  rewrite (H a) by (left; reflexivity). rewrite IH; [reflexivity|].
  intros b Hb. apply H. right. exact Hb.
Qed.

Ltac prints_all :=
  repeat (constructor;
          [repeat match goal with
                  | |- context [if ?b then _ else _] => destruct b
                  end; exact I|]);
  try constructor.

Section Report.

Context {D : Type} {arith : Arith D} {libm : LibM D}.
Variables (SMART_UNASSIGNED SMART_ERROR SMART_SIZE : Z) (PRIu64 : string).

Lemma smart_row_prints (device_pad serial_pad : nat) (d : devinfo) (afr : D) :
  Forall prints (smart_row SMART_UNASSIGNED SMART_ERROR SMART_SIZE PRIu64
                   device_pad serial_pad d afr).
Proof. unfold smart_row. prints_all. Qed.

(** The loop over the devices prints only, and leaves in [array_failure_rate]
    the rates of the logical records added, in the order of the list, to its
    value before the loop. *)
Lemma smart_rows_rate (device_pad serial_pad : nat) (low : list devinfo) :
  forall acc : D,
  exists rows rates,
    smart_rows SMART_UNASSIGNED SMART_ERROR SMART_SIZE PRIu64
      device_pad serial_pad low acc = Some (rows, fold_left dadd rates acc) /\
    logical_rates SMART_UNASSIGNED low = Some rates /\
    Forall prints rows /\
    List.length rates
      = List.length (filter is_logical low) /\
    (low = [] -> rows = []).
Proof.
  induction low as [|d low IH]; intros acc.
  - exists [], []. repeat split; constructor.
  - cbn [smart_rows logical_rates].
    destruct (smart_afr_total SMART_UNASSIGNED (smart d)) as (afr & Eafr).
    rewrite Eafr, !bind_some.
    destruct (parent d) as [p|] eqn:Hp.
    + destruct (IH (acc + afr)%D) as (rows & rates & Hrows & Hrates & Hpr & Hlen & _).
      rewrite Hrows, Hrates, !bind_some.
      exists (smart_row SMART_UNASSIGNED SMART_ERROR SMART_SIZE PRIu64
                device_pad serial_pad d afr ++ rows), (afr :: rates).
      split; [reflexivity|]. split; [reflexivity|]. split; [|split].
      * apply Forall_app. split; [apply smart_row_prints|exact Hpr].
      * cbn [filter]. unfold is_logical at 1. rewrite Hp. simpl. rewrite Hlen. reflexivity.
      * discriminate.
    + destruct (IH acc) as (rows & rates & Hrows & Hrates & Hpr & Hlen & _).
      rewrite Hrows, Hrates, !bind_some.
      exists (smart_row SMART_UNASSIGNED SMART_ERROR SMART_SIZE PRIu64
                device_pad serial_pad d afr ++ rows), rates.
      split; [reflexivity|]. split; [reflexivity|]. split; [|split].
      * apply Forall_app. split; [apply smart_row_prints|exact Hpr].
      * cbn [filter]. unfold is_logical at 1. rewrite Hp. exact Hlen.
      * discriminate.
Qed.

(** The calls of the model in the table of the data loss. *)
Lemma loss_table_calls (a : D) (n : Z) (js : list Z) :
  forall out : list (event D),
    loss_calls (fold_left (fun out j => out ++ loss_row a n j) js out)
    = loss_calls out ++ flat_map (fun j => loss_calls_of a n (wrap32 (j + 1))) js.
Proof.
  induction js as [|j js IH]; intros out; simpl.
  - rewrite app_nil_r. reflexivity.
  - rewrite IH. rewrite loss_calls_app. rewrite <- app_assoc. reflexivity.
Qed.

Lemma loss_table_stderr (a : D) (n : Z) (js : list Z) :
  forall out : list (event D),
    stderr_calls (fold_left (fun out j => out ++ loss_row a n j) js out)
    = stderr_calls out.
Proof.
  induction js as [|j js IH]; intros out; simpl; [reflexivity|].
  rewrite IH. rewrite stderr_calls_app. simpl. apply app_nil_r.
Qed.

(** The report: it is defined for every list; it starts with its title; it
    writes nothing to the standard error; it calls the model for the
    redundancies 1 to [RAID_PARITY_MAX], three times each, with the number of
    members it was given and the sum of the rates of the logical records. *)
Lemma state_smart_calls (n : Z) (low : list devinfo) :
  exists report rest rates,
    state_smart SMART_UNASSIGNED SMART_ERROR SMART_SIZE PRIu64 n low = Some report /\
    report = Printf ("SnapRAID SMART report:" ++ nl)%string [] :: rest /\
    logical_rates SMART_UNASSIGNED low = Some rates /\
    List.length rates
      = List.length (filter is_logical low) /\
    stderr_calls report = [] /\
    loss_calls report
    = flat_map (fun j => loss_calls_of (fold_left dadd rates (d_of_uint 0)) n (j + 1))
        (upto 0 (Z.to_nat RAID_PARITY_MAX)).
Proof.
  unfold state_smart.
  destruct (smart_rows_rate (max_length file low) (max_length smart_serial low) low
              (d_of_uint 0)) as (rows & rates & Hrows & Hrates & Hpr & Hlen & _).
  rewrite Hrows, bind_some. cbn [fst snd]. cbv zeta.
  rewrite for_up_fold by (unfold RAID_PARITY_MAX, UINT_MAX; simpl; lia).
  cbv beta.
  match goal with
  | |- context [Some (?h ++ rows ++ ?s ++ ?t ++ ?f)] =>
      set (header := h); set (summary := s); set (table := t); set (footer := f)
  end.
  exists (header ++ rows ++ summary ++ table ++ footer).
  exists (tl header ++ rows ++ summary ++ table ++ footer), rates.
  split; [reflexivity|]. split; [reflexivity|]. split; [exact Hrates|].
  split; [exact Hlen|].
  assert (Hh : Forall prints header) by (unfold header; prints_all).
  assert (Hs : Forall prints summary) by (unfold summary; prints_all).
  assert (Hf : Forall prints footer) by (unfold footer; prints_all).
  split.
  - rewrite !stderr_calls_app.
    rewrite (prints_stderr_calls _ Hh), (prints_stderr_calls _ Hpr),
      (prints_stderr_calls _ Hs), (prints_stderr_calls _ Hf).
    unfold table. rewrite loss_table_stderr. reflexivity.
  - rewrite !loss_calls_app.
    rewrite (prints_loss_calls _ Hh), (prints_loss_calls _ Hpr),
      (prints_loss_calls _ Hs), (prints_loss_calls _ Hf).
    unfold table. rewrite loss_table_calls.
    cbn [loss_calls app]. rewrite app_nil_r.
    apply flat_map_ext_in. intros j Hj. apply upto_range in Hj.
    rewrite wrap32_small; [reflexivity|].
    unfold RAID_PARITY_MAX, UINT_MAX in *. simpl in Hj. lia.
Qed.

End Report.

Lemma member_count_fold (disks : list snapraid_disk) :
  forall count, 0 <= count ->
    count + Z.of_nat (List.length disks) <= UINT_MAX ->
    fold_left (fun count _ => wrap32 (count + 1)) disks count
    = count + Z.of_nat (List.length disks).
Proof.
  induction disks as [|d disks IH]; intros count H0 Hmax; simpl fold_left.
  - simpl. lia.
  - simpl List.length in *. rewrite wrap32_small by lia.
    rewrite IH by lia. lia.
Qed.

(** The number of members is the parity level plus the number of disks, as
    long as the sum fits [unsigned]. *)
Lemma member_count_sum (state : snapraid_state) :
  0 <= level state ->
  level state + Z.of_nat (List.length (disklist state)) <= UINT_MAX ->
  member_count state = level state + Z.of_nat (List.length (disklist state)).
Proof. intros H0 Hmax. apply member_count_fold; assumption. Qed.

Section Dispatch.

Context {D : Type} {arith : Arith D} {libm : LibM D}.
Variables (SMART_UNASSIGNED SMART_ERROR SMART_SIZE : Z) (PRIu64 : string).
Variables (major minor : Z -> Z).
Variables (lev_config_name : Z -> string) (pathcpy pathcut : string -> string).
Variable devquery : list devinfo -> operation -> Z * list devinfo.
Variable WIN32 : bool.

Let run := state_device SMART_UNASSIGNED SMART_ERROR SMART_SIZE PRIu64 major minor
             lev_config_name pathcpy pathcut devquery WIN32.

Let high := high_list lev_config_name pathcpy pathcut.

(** The SMART operation: the diagnostic, if any, then the report for the
    resolved list and the number of members. *)
Lemma state_device_smart (state : snapraid_state) :
  exists report,
    state_smart SMART_UNASSIGNED SMART_ERROR SMART_SIZE PRIu64
      (member_count state) (snd (devquery (high state) DEVICE_SMART)) = Some report /\
    run state DEVICE_SMART
    = Some (diagnostic_of DEVICE_SMART (fst (devquery (high state) DEVICE_SMART))
            ++ report).
Proof.
  destruct (state_smart_calls SMART_UNASSIGNED SMART_ERROR SMART_SIZE PRIu64
              (member_count state) (snd (devquery (high state) DEVICE_SMART)))
    as (report & _ & _ & Hreport & _).
  exists report. split; [exact Hreport|].
  unfold run, state_device. fold high.
  destruct (devquery (high state) DEVICE_SMART) as [rc low]. cbn [fst snd] in *.
  destruct WIN32; cbn [negb]; rewrite bind_some, Hreport, bind_some; reflexivity.
Qed.

(** The calls of the model in a run of the SMART operation. *)
Lemma state_device_smart_calls (state : snapraid_state) :
  exists trace rates,
    run state DEVICE_SMART = Some trace /\
    logical_rates SMART_UNASSIGNED (snd (devquery (high state) DEVICE_SMART))
      = Some rates /\
    List.length rates
      = List.length (filter is_logical (snd (devquery (high state) DEVICE_SMART))) /\
    loss_calls trace
    = flat_map (fun j => loss_calls_of (fold_left dadd rates (d_of_uint 0))
                           (member_count state) (j + 1))
        (upto 0 (Z.to_nat RAID_PARITY_MAX)).
Proof.
  destruct (state_device_smart state) as (report & Hreport & Hrun).
  destruct (state_smart_calls SMART_UNASSIGNED SMART_ERROR SMART_SIZE PRIu64
              (member_count state) (snd (devquery (high state) DEVICE_SMART)))
    as (report' & _ & rates & Hreport' & _ & Hrates & Hlen & _ & Hcalls).
  rewrite Hreport in Hreport'. injection Hreport' as <-.
  eexists. exists rates. split; [exact Hrun|]. split; [exact Hrates|].
  split; [exact Hlen|].
  rewrite loss_calls_app. rewrite Hcalls.
  unfold diagnostic_of. destruct (negb _); reflexivity.
Qed.

(** A run on a platform without support for the operation. *)
Lemma state_device_unsupported (state : snapraid_state) (op : operation) (rc : Z) :
  devquery (high state) op = (rc, []) -> rc <> 0 ->
  exists report,
    match op with
    | DEVICE_SMART =>
        state_smart SMART_UNASSIGNED SMART_ERROR SMART_SIZE PRIu64
          (member_count state) [] = Some report
    | _ => report = []
    end /\
    run state op
    = Some (match op with
            | DEVICE_UP => [ Printf ("Spinup..." ++ nl)%string [] ]
            | DEVICE_DOWN => [ Printf ("Spindown..." ++ nl)%string [] ]
            | _ => []
            end
            ++ [ FprintfStderr (operation_name op) [];
                 FprintfStderr (" unsupported in this platform." ++ nl)%string [] ]
            ++ report).
Proof.
  intros Hq Hrc. apply Z.eqb_neq in Hrc.
  unfold run, state_device. fold high. rewrite Hq. rewrite Hrc. cbn [negb].
  destruct op.
  - exists []. split; [reflexivity|]. destruct WIN32; reflexivity.
  - exists []. split; [reflexivity|]. destruct WIN32; reflexivity.
  - exists []. split; [reflexivity|]. destruct WIN32; reflexivity.
  - destruct (state_smart_calls SMART_UNASSIGNED SMART_ERROR SMART_SIZE PRIu64
                (member_count state) []) as (report & _ & _ & Hreport & _).
    exists report. split; [exact Hreport|].
    destruct WIN32; cbn [negb]; rewrite bind_some, Hreport, bind_some; reflexivity.
Qed.

End Dispatch.

(** C7.  In every run of the SMART operation, whatever the platform resolves:
    every call of the model of the data loss gets, as array failure rate, the
    sum (from 0, in the order of the resolved list) of [smart_afr] over the
    records whose parent is set, one term for each of them, and, as number of
    members, the count [member_count], that is the parity level plus the number
    of disks, which does not depend on the resolved list. *)
Theorem array_rate_sums_logical_records
    {D : Type} {arith : Arith D} {libm : LibM D}
    (SMART_UNASSIGNED SMART_ERROR SMART_SIZE : Z) (PRIu64 : string)
    (major minor : Z -> Z)
    (lev_config_name : Z -> string) (pathcpy pathcut : string -> string)
    (devquery : list devinfo -> operation -> Z * list devinfo) (WIN32 : bool)
    (state : snapraid_state) :
  0 <= level state ->
  level state + Z.of_nat (List.length (disklist state)) <= UINT_MAX ->
  let low :=
    snd (devquery (high_list lev_config_name pathcpy pathcut state) DEVICE_SMART) in
  exists trace rates,
    state_device SMART_UNASSIGNED SMART_ERROR SMART_SIZE PRIu64 major minor
      lev_config_name pathcpy pathcut devquery WIN32 state DEVICE_SMART
      = Some trace /\
    logical_rates SMART_UNASSIGNED low = Some rates /\
    List.length rates = List.length (filter is_logical low) /\
    loss_calls trace <> [] /\
    forall a rr n r,
      In (a, rr, n, r) (loss_calls trace) ->
      a = fold_left dadd rates (d_of_uint 0) /\
      n = level state + Z.of_nat (List.length (disklist state)).
Proof.
  intros H0 Hmax low.
  destruct (state_device_smart_calls SMART_UNASSIGNED SMART_ERROR SMART_SIZE PRIu64
              major minor lev_config_name pathcpy pathcut devquery WIN32 state)
    as (trace & rates & Hrun & Hrates & Hlen & Hcalls).
  exists trace, rates.
  split; [exact Hrun|]. split; [exact Hrates|]. split; [exact Hlen|].
  rewrite Hcalls. rewrite member_count_sum by assumption. split.
  - unfold RAID_PARITY_MAX. simpl. discriminate.
  - intros a rr n r Hin. apply in_flat_map in Hin as (j & _ & Hin).
    unfold loss_calls_of in Hin. simpl in Hin.
    destruct Hin as [E|[E|[E|[]]]]; injection E as <- _ <- _; split; reflexivity.
Qed.

(** The theorem on the sample array, resolved to one physical and one logical
    record: one rate is summed, and the model is called for 2 members. *)
Lemma array_rate_sums_logical_records_witness :
  exists trace rates,
    sample_run sample_query DEVICE_SMART = Some trace /\
    logical_rates (D := ereal) UINT64_MAX [sample_physical; sample_logical]
      = Some rates /\
    List.length rates = 1%nat /\
    forall a rr n r,
      In (a, rr, n, r) (loss_calls trace) ->
      a = fold_left dadd rates (d_of_uint 0) /\ n = 2.
Proof.
  assert (H0 : 0 <= level sample_state) by (simpl; lia).
  assert (Hmax : level sample_state
                 + Z.of_nat (List.length (disklist sample_state)) <= UINT_MAX)
    by (unfold UINT_MAX; simpl; lia).
  destruct (array_rate_sums_logical_records (D := ereal) UINT64_MAX 256 257 "lu"
              (fun d => d / 256) (fun d => d mod 256)
              (fun _ => "parity"%string) (fun s => s) (fun s => s)
              sample_query false sample_state H0 Hmax)
    as (trace & rates & Hrun & Hrates & Hlen & _ & Hcalls).
  exists trace, rates.
  split; [exact Hrun|]. split; [exact Hrates|]. split; [exact Hlen|exact Hcalls].
Defined.

(** C3 (amended).  [state_device] does not compare the redundancy with the
    number of members: in every run of the SMART operation the model is called
    three times for each redundancy from 1 to [RAID_PARITY_MAX], with the
    number of members [member_count] of the array.  Hence every call has its
    redundancy below the number of members if and only if the array has more
    than [RAID_PARITY_MAX] members. *)
Theorem loss_model_calls
    {D : Type} {arith : Arith D} {libm : LibM D}
    (SMART_UNASSIGNED SMART_ERROR SMART_SIZE : Z) (PRIu64 : string)
    (major minor : Z -> Z)
    (lev_config_name : Z -> string) (pathcpy pathcut : string -> string)
    (devquery : list devinfo -> operation -> Z * list devinfo) (WIN32 : bool)
    (state : snapraid_state) :
  exists trace,
    state_device SMART_UNASSIGNED SMART_ERROR SMART_SIZE PRIu64 major minor
      lev_config_name pathcpy pathcut devquery WIN32 state DEVICE_SMART
      = Some trace /\
    map (fun c => (snd (fst c), snd c)) (loss_calls trace)
    = flat_map (fun j => [ (member_count state, j + 1);
                           (member_count state, j + 1);
                           (member_count state, j + 1) ])
        (upto 0 (Z.to_nat RAID_PARITY_MAX)) /\
    (Forall (fun c => snd c < snd (fst c)) (loss_calls trace)
     <-> RAID_PARITY_MAX < member_count state).
Proof.
  destruct (state_device_smart_calls SMART_UNASSIGNED SMART_ERROR SMART_SIZE PRIu64
              major minor lev_config_name pathcpy pathcut devquery WIN32 state)
    as (trace & rates & Hrun & _ & _ & Hcalls).
  exists trace. split; [exact Hrun|]. rewrite Hcalls.
  generalize (fold_left dadd rates (d_of_uint 0)) as a.
  generalize (member_count state) as n. intros n a.
  unfold RAID_PARITY_MAX. split; [reflexivity|].
  simpl. unfold loss_calls_of. split.
  - intros H. rewrite Forall_forall in H.
    specialize (H (a, (dlit 3650 1 / d_of_uint 7)%D, n, 0 + 1 + 1 + 1 + 1 + 1 + 1)).
    simpl in H. apply H. tauto.
  - intros H. repeat (constructor; [simpl; lia|]). constructor.
Qed.

(** C3, as stated, fails.  On the sample array of one disk and one parity, 2
    members, resolved by the platform, the SMART operation calls the model
    with the redundancy 2, which is not below the number of members. *)
Lemma loss_model_called_beyond_member_count :
  exists trace a rr,
    sample_run sample_query DEVICE_SMART = Some trace /\
    In (a, rr, 2, 2) (loss_calls trace).
Proof.
  destruct (state_device_smart_calls (D := ereal) UINT64_MAX 256 257 "lu"
              (fun d => d / 256) (fun d => d mod 256)
              (fun _ => "parity"%string) (fun s => s) (fun s => s)
              sample_query false sample_state)
    as (trace & rates & Hrun & _ & _ & Hcalls).
  exists trace, (fold_left dadd rates (d_of_uint 0)), (dlit 3650 1 / d_of_uint 7)%D.
  split; [exact Hrun|]. rewrite Hcalls.
  apply in_flat_map. exists 1. split.
  - unfold RAID_PARITY_MAX. simpl. tauto.
  - left. reflexivity.
Qed.

(** C9 (amended).  When the device query reports the operation as not
    supported and resolves nothing, the run does not fail, and writes one
    diagnostic to the standard error, the name of the operation followed by
    " unsupported in this platform.".  The spin-up and the spin-down print
    their status line only, the list prints nothing.  The SMART operation
    still prints its report for the empty list: the title and the headers, no
    row, and the table of the data loss, for which it calls the model with the
    array failure rate 0. *)
Theorem unsupported_operation
    {D : Type} {arith : Arith D} {libm : LibM D}
    (SMART_UNASSIGNED SMART_ERROR SMART_SIZE : Z) (PRIu64 : string)
    (major minor : Z -> Z)
    (lev_config_name : Z -> string) (pathcpy pathcut : string -> string)
    (devquery : list devinfo -> operation -> Z * list devinfo) (WIN32 : bool)
    (state : snapraid_state) (op : operation) (rc : Z) :
  devquery (high_list lev_config_name pathcpy pathcut state) op = (rc, []) ->
  rc <> 0 ->
  exists trace,
    state_device SMART_UNASSIGNED SMART_ERROR SMART_SIZE PRIu64 major minor
      lev_config_name pathcpy pathcut devquery WIN32 state op = Some trace /\
    stderr_calls trace
    = [ (operation_name op, []);
        (" unsupported in this platform." ++ nl, [])%string ] /\
    match op with
    | DEVICE_UP => stdout_events trace = [ Printf ("Spinup..." ++ nl)%string [] ]
    | DEVICE_DOWN => stdout_events trace = [ Printf ("Spindown..." ++ nl)%string [] ]
    | DEVICE_LIST => stdout_events trace = []
    | DEVICE_SMART =>
        exists report rest,
          state_smart SMART_UNASSIGNED SMART_ERROR SMART_SIZE PRIu64
            (member_count state) [] = Some report /\
          stdout_events trace = stdout_events report /\
          report = Printf ("SnapRAID SMART report:" ++ nl)%string [] :: rest /\
          loss_calls trace
          = flat_map (fun j => loss_calls_of (d_of_uint 0) (member_count state) (j + 1))
              (upto 0 (Z.to_nat RAID_PARITY_MAX))
    end.
Proof.
  intros Hq Hrc.
  destruct (state_device_unsupported SMART_UNASSIGNED SMART_ERROR SMART_SIZE PRIu64
              major minor lev_config_name pathcpy pathcut devquery WIN32
              state op rc Hq Hrc) as (report & Hreport & Hrun).
  eexists. split; [exact Hrun|].
  destruct op.
  - subst report. split; reflexivity.
  - subst report. split; reflexivity.
  - subst report. split; reflexivity.
  - destruct (state_smart_calls SMART_UNASSIGNED SMART_ERROR SMART_SIZE PRIu64
                (member_count state) [])
      as (report' & rest & rates & Hreport' & Hshape & Hrates & _ & Herr & Hcalls).
    rewrite Hreport in Hreport'. injection Hreport' as <-.
    simpl in Hrates. injection Hrates as <-.
    split.
    + cbn [app stderr_calls]. rewrite Herr. reflexivity.
    + exists report, rest. split; [exact Hreport|]. split; [reflexivity|].
      split; [exact Hshape|]. exact Hcalls.
Qed.

(** The theorem on the sample array, for the list of the devices on a platform
    without support: the diagnostic names the operation, nothing is printed. *)
Lemma unsupported_operation_witness :
  exists trace,
    sample_run unsupported_query DEVICE_LIST = Some trace /\
    stderr_calls trace
    = [ ("List"%string, []); (" unsupported in this platform." ++ nl, [])%string ] /\
    stdout_events trace = [].
Proof.
  assert (Hq : unsupported_query
                 (high_list (fun _ => "parity"%string) (fun s => s) (fun s => s)
                    sample_state) DEVICE_LIST = (-1, [])) by reflexivity.
  assert (Hrc : -1 <> 0) by lia.
  exact (unsupported_operation (D := ereal) UINT64_MAX 256 257 "lu"
           (fun d => d / 256) (fun d => d mod 256)
           (fun _ => "parity"%string) (fun s => s) (fun s => s)
           unsupported_query false sample_state DEVICE_LIST (-1) Hq Hrc).
Defined.

(** C9, as stated, fails for the SMART operation.  On the sample array and a
    platform without support, the report is not skipped: the run prints the
    title of the report and calls the model of the data loss. *)
Lemma unsupported_smart_prints_report :
  exists trace rest,
    sample_run unsupported_query DEVICE_SMART = Some trace /\
    stdout_events trace = Printf ("SnapRAID SMART report:" ++ nl)%string [] :: rest /\
    loss_calls trace <> [].
Proof.
  assert (Hq : unsupported_query
                 (high_list (fun _ => "parity"%string) (fun s => s) (fun s => s)
                    sample_state) DEVICE_SMART = (-1, [])) by reflexivity.
  assert (Hrc : -1 <> 0) by lia.
  destruct (state_device_unsupported (D := ereal) UINT64_MAX 256 257 "lu"
              (fun d => d / 256) (fun d => d mod 256)
              (fun _ => "parity"%string) (fun s => s) (fun s => s)
              unsupported_query false sample_state DEVICE_SMART (-1) Hq Hrc)
    as (report & Hreport & Hrun).
  destruct (state_smart_calls (D := ereal) UINT64_MAX 256 257 "lu"
              (member_count sample_state) [])
    as (report' & rest & rates & Hreport' & Hshape & _ & _ & _ & Hcalls).
  rewrite Hreport in Hreport'. injection Hreport' as <-.
  exists ([ FprintfStderr (operation_name DEVICE_SMART) [];
            FprintfStderr (" unsupported in this platform." ++ nl)%string [] ]
          ++ report), (stdout_events rest).
  split; [exact Hrun|]. split.
  - rewrite Hshape. reflexivity.
  - rewrite loss_calls_app, Hcalls. unfold RAID_PARITY_MAX. simpl. discriminate.
Qed.

(** * Further properties of the report *)

(** ** The rate of a device *)

(** X1.  [smart_afr] reads the six attributes 5, 187, 188, 193, 197 and 198
    and no other: two arrays that agree on them get the same rate, and an array
    where the six are unassigned gets the rate 0, whatever the other
    attributes.  This holds for every arithmetic of [double]. *)
Theorem smart_afr_reads_monitored_attributes {D : Type} {arith : Arith D}
    (UNASSIGNED : Z) (smart1 smart2 : Z -> Z) :
  (forall id, In id monitored_attributes -> smart1 id = smart2 id) ->
  smart_afr UNASSIGNED smart1 = smart_afr (D := D) UNASSIGNED smart2 /\
  ((forall id, In id monitored_attributes -> smart1 id = UNASSIGNED) ->
   smart_afr (D := D) UNASSIGNED smart1 = Some (d_of_uint 0)).
Proof.
  intros Hsame. split.
  - unfold smart_afr, add_attr.
    rewrite (Hsame 5), (Hsame 187), (Hsame 188), (Hsame 193), (Hsame 197),
      (Hsame 198) by (unfold monitored_attributes; simpl; tauto).
    reflexivity.
  - intros Hun. unfold smart_afr, add_attr.
    rewrite (Hun 5), (Hun 187), (Hun 188), (Hun 193), (Hun 197), (Hun 198)
      by (unfold monitored_attributes; simpl; tauto).
    rewrite Z.eqb_refl. reflexivity.
Qed.

(** The theorem for a device that reports a temperature and a size only, in
    binary64: its rate is 0. *)
Lemma smart_afr_reads_monitored_attributes_witness :
  smart_afr (D := float) UINT64_MAX
    (fun id => if id =? 194 then 35 else if id =? 257 then 4000787030016
               else UINT64_MAX)
  = Some (float_of_Z 0).
Proof.
  assert (Hsame : forall id, In id monitored_attributes ->
            (fun id => if id =? 194 then 35 else if id =? 257 then 4000787030016
                       else UINT64_MAX) id
            = (fun _ : Z => UINT64_MAX) id).
  { intros id Hin. unfold monitored_attributes in Hin. simpl in Hin.
    destruct Hin as [<-|[<-|[<-|[<-|[<-|[<-|[]]]]]]]; reflexivity. }
  destruct (smart_afr_reads_monitored_attributes (D := float) UINT64_MAX _ _ Hsame)
    as [Heq _].
  rewrite Heq.
  destruct (smart_afr_reads_monitored_attributes (D := float) UINT64_MAX
              (fun _ : Z => UINT64_MAX) (fun _ : Z => UINT64_MAX)
              (fun id _ => eq_refl)) as [_ Hzero].
  apply Hzero. intros id _. reflexivity.
Defined.

(** ** Bounds of the rates *)

Lemma interpolation_within (vlo vhi val : Z) (rlo rhi lo hi : R) :
  vlo < val < vhi -> (lo <= rlo <= hi)%R -> (lo <= rhi <= hi)%R ->
  (lo <= rlo + IZR (val - vlo) * (rhi - rlo) / IZR (vhi - vlo) <= hi)%R.
Proof.
  intros [Hl Hh] Hrlo Hrhi.
  assert (Hd : (0 < IZR (vhi - vlo))%R) by (apply IZR_lt; lia).
  assert (Ht0 : (0 <= IZR (val - vlo))%R) by (apply IZR_le; lia).
  assert (Ht1 : (IZR (val - vlo) <= IZR (vhi - vlo))%R) by (apply IZR_le; lia).
  set (t := IZR (val - vlo)) in *. set (d := IZR (vhi - vlo)) in *.
  assert (Hq : (0 <= t / d <= 1)%R).
  { split.
    - apply Rmult_le_pos; [exact Ht0|]. apply Rlt_le, Rinv_0_lt_compat, Hd.
    - apply Rmult_le_reg_r with d; [exact Hd|].
      unfold Rdiv. rewrite Rmult_assoc, Rinv_l by lra. lra. }
  replace (t * (rhi - rlo) / d)%R with (t / d * (rhi - rlo))%R by (field; lra).
  set (q := (t / d)%R) in *. nra.
Qed.

(** On a table whose values satisfy the invariant and whose rates lie in an
    interval that holds 0, the rate looked up lies in the interval. *)
Lemma smart_afr_value_within (p0 : afr_point ereal) (body : list (afr_point ereal))
    (s : afr_point ereal) (lo hi : R) (val : Z) :
  monotone_table p0 body s -> rates_within lo hi (p0 :: body) ->
  (lo <= 0 <= hi)%R -> 0 <= val ->
  exists x, smart_afr_value (table p0 body s) val = Some (Fin x) /\ (lo <= x <= hi)%R.
Proof.
  intros Hwf Hrates H0 Hval. unfold rates_within in Hrates.
  rewrite Forall_forall in Hrates.
  destruct (Z.eq_dec val 0) as [->|Hnz].
  { exists 0%R. split; [reflexivity|exact H0]. }
  assert (Hp0 : value p0 < val) by (destruct Hwf as (Hv0 & _); lia).
  destruct (locate_value val body p0 Hp0)
    as [Habove|[(q & Hin & Hq)|(pre & lo' & hi' & post & Hsplit & Hb)]].
  - assert (Hlast : In (last body p0) (p0 :: body)).
    { pose proof (nth_error_last body p0) as Hl. eapply nth_error_In; eauto. }
    destruct (Hrates _ Hlast) as (r & Er & Hr).
    exists r. split; [|exact Hr].
    rewrite (smart_afr_value_above p0 body s Hwf val Habove). rewrite Er. reflexivity.
  - destruct (Hrates q (or_intror Hin)) as (r & Er & Hr).
    exists r. split; [|exact Hr].
    rewrite <- Hq. rewrite (smart_afr_value_exact p0 body s Hwf q Hin).
    rewrite Er. reflexivity.
  - assert (Hlo : In lo' (p0 :: body)).
    { rewrite Hsplit. apply in_or_app. right. left. reflexivity. }
    assert (Hhi : In hi' (p0 :: body)).
    { rewrite Hsplit. apply in_or_app. right. right. left. reflexivity. }
    destruct (Hrates _ Hlo) as (rlo & Erlo & Hrlo).
    destruct (Hrates _ Hhi) as (rhi & Erhi & Hrhi).
    exists (rlo + IZR (val - value lo') * (rhi - rlo) / IZR (value hi' - value lo'))%R.
    split.
    + rewrite (smart_afr_value_between p0 body s Hwf pre post lo' hi' val Hsplit Hb).
      rewrite Erlo, Erhi. rewrite interpolation_finite by lia. reflexivity.
    + apply interpolation_within; assumption.
Qed.

Ltac rates_within_table :=
  unfold rates_within;
  repeat (constructor;
          [eexists; split; [reflexivity|]; eval_pow10;
           try change (IZR 0 / IZR 1)%R with (0 / 1)%R; lra|]);
  constructor.

(** The rates of the six compiled-in tables: from 0 to the largest rate of
    the table. *)
Lemma compiled_tables_within :
  rates_within 0 (20659987547404763 / 10000000000000000)
    (pt0 0 0 :: breakpoints AFR_5) /\
  rates_within 0 (16190935390549661 / 10000000000000000)
    (pt0 0 0 :: breakpoints AFR_187) /\
  rates_within 0 (36724705400842445 / 100000000000000000)
    (pt0 0 0 :: breakpoints AFR_188) /\
  rates_within 0 (2673688205712117 / 10000000000000000)
    (pt0 0 0 :: breakpoints AFR_193) /\
  rates_within 0 (33203378817413904 / 10000000000000000)
    (pt0 0 0 :: breakpoints AFR_197) /\
  rates_within 0 (26449275362318843 / 10000000000000000)
    (pt0 0 0 :: breakpoints AFR_198).
Proof.
  repeat split; rates_within_table.
Qed.

Lemma add_attr_within (UNASSIGNED : Z) (smart : Z -> Z)
    (tab : list (afr_point ereal)) (M : R) (id : Z) (acc : R) :
  In tab [AFR_5; AFR_187; AFR_188; AFR_193; AFR_197; AFR_198] ->
  rates_within 0 M (pt0 0 0 :: breakpoints tab) -> (0 <= M)%R ->
  0 <= smart id ->
  exists acc',
    add_attr UNASSIGNED smart tab id (Fin acc) = Some (Fin acc') /\
    (acc <= acc' <= acc + M)%R.
Proof.
  intros Htab Hrates HM Hval. unfold add_attr.
  destruct (smart id =? UNASSIGNED).
  - exists acc. split; [reflexivity|lra].
  - destruct (smart_afr_value_within _ _ _ 0 M (smart id)
                (compiled_tables_monotone tab Htab) Hrates ltac:(lra) Hval)
      as (x & Hx & Hb).
    rewrite <- (compiled_tables_shape tab Htab) in Hx.
    rewrite Hx, bind_some. exists (acc + x)%R. split; [reflexivity|lra].
Qed.

(** Over the extended reals the rate of a device is finite, not negative and
    at most the sum of the largest rates of the tables. *)
Lemma smart_afr_range (UNASSIGNED : Z) (smart : Z -> Z) :
  (forall id, 0 <= smart id) ->
  exists a, smart_afr UNASSIGNED smart = Some (Fin a) /\ (0 <= a <= AFR_MAX)%R.
Proof.
  intros Hpos.
  destruct compiled_tables_within as (H5 & H187 & H188 & H193 & H197 & H198).
  unfold smart_afr. rewrite bind_some. rewrite d_of_uint_fin.
  destruct (add_attr_within UNASSIGNED smart AFR_5 _ 5 0 ltac:(simpl; tauto) H5
              ltac:(lra) (Hpos 5)) as (a1 & E1 & B1).
  rewrite E1, bind_some.
  destruct (add_attr_within UNASSIGNED smart AFR_187 _ 187 a1 ltac:(simpl; tauto) H187
              ltac:(lra) (Hpos 187)) as (a2 & E2 & B2).
  rewrite E2, bind_some.
  destruct (add_attr_within UNASSIGNED smart AFR_188 _ 188 a2 ltac:(simpl; tauto) H188
              ltac:(lra) (Hpos 188)) as (a3 & E3 & B3).
  rewrite E3, bind_some.
  destruct (add_attr_within UNASSIGNED smart AFR_193 _ 193 a3 ltac:(simpl; tauto) H193
              ltac:(lra) (Hpos 193)) as (a4 & E4 & B4).
  rewrite E4, bind_some.
  destruct (add_attr_within UNASSIGNED smart AFR_197 _ 197 a4 ltac:(simpl; tauto) H197
              ltac:(lra) (Hpos 197)) as (a5 & E5 & B5).
  rewrite E5, bind_some.
  destruct (add_attr_within UNASSIGNED smart AFR_198 _ 198 a5 ltac:(simpl; tauto) H198
              ltac:(lra) (Hpos 198)) as (a6 & E6 & B6).
  exists a6. split; [exact E6|]. unfold AFR_MAX. lra.
Qed.

Lemma one_minus_exp_range (x : R) : (0 <= x)%R -> (0 <= 1 - exp (- x) < 1)%R.
Proof.
  intros Hx. pose proof (exp_pos (- x)) as Hexp.
  assert (Hle : (exp (- x) <= 1)%R).
  { rewrite <- exp_0. destruct Hx as [Hlt|<-].
    - left. apply exp_increasing. lra.
    - rewrite Ropp_0. lra. }
  lra.
Qed.

(** X2.  Over the extended reals: whatever the values of the attributes of
    a device, its rate is finite, not negative and at most 10.29, above the
    sum of the largest rates of the six tables; and the row of the device
    hands to [printf("%5.0f")], for the column AFP, the value
    [100 * (1 - e^(-afr))], which is at least 0 and below 100.  (The column
    shows this value rounded to a whole number, which can read 100.) *)
Theorem smart_afr_bounds (SMART_UNASSIGNED SMART_ERROR SMART_SIZE : Z)
    (PRIu64 : string) (device_pad serial_pad : nat) (d : devinfo) :
  (forall id, 0 <= smart d id) ->
  exists a p,
    smart_afr SMART_UNASSIGNED (smart d) = Some (Fin a) /\
    (0 <= a <= AFR_MAX)%R /\
    In (Printf "%5.0f" [ADouble (Fin p)])
       (smart_row SMART_UNASSIGNED SMART_ERROR SMART_SIZE PRIu64
          device_pad serial_pad d (Fin a)) /\
    p = ((1 - exp (- a)) * 100)%R /\
    (0 <= p < 100)%R.
Proof.
  intros Hpos.
  destruct (smart_afr_range SMART_UNASSIGNED (smart d) Hpos) as (a & Ea & Ha).
  exists a, ((1 - exp (- a)) * 100)%R.
  split; [exact Ea|]. split; [exact Ha|]. split; [|split; [reflexivity|]].
  - unfold smart_row. cbn [In]. do 3 right. left.
    rewrite poisson_prob_one_or_more_fin. reflexivity.
  - pose proof (one_minus_exp_range a ltac:(lra)). lra.
Qed.

(** The theorem for the logical record of the sample list, which has 16
    reallocated sectors. *)
Lemma smart_afr_bounds_witness :
  exists a p,
    smart_afr (D := ereal) UINT64_MAX (smart sample_logical) = Some (Fin a) /\
    (0 <= a <= AFR_MAX)%R /\
    In (Printf "%5.0f" [ADouble (Fin p)])
       (smart_row UINT64_MAX 256 257 "lu" 9 2 sample_logical (Fin a)) /\
    p = ((1 - exp (- a)) * 100)%R /\
    (0 <= p < 100)%R.
Proof.
  apply (smart_afr_bounds UINT64_MAX 256 257 "lu" 9 2 sample_logical).
  intros id. cbn [smart sample_logical].
  destruct (id =? 5); vm_compute; discriminate.
Defined.

(** ** The Poisson tail is a probability *)

Lemma Rsum_sum_f_R0 (f : nat -> R) (n : nat) : Rsum f (S n) = sum_f_R0 f n.
Proof.
  induction n as [|n IH].
  - simpl. lra.
  - change (Rsum f (S (S n))) with (Rsum f (S n) + f (S n))%R.
    rewrite IH. reflexivity.
Qed.

(** The partial sums of the series of the exponential are below it, for an
    argument that is not negative. *)
Lemma exp_partial_sum (x : R) (n : nat) :
  (0 <= x)%R -> (Rsum (fun k => / INR (Factorial.fact k) * x ^ k) n <= exp x)%R.
Proof.
  intros Hx. destruct n as [|n].
  - simpl. left. apply exp_pos.
  - rewrite Rsum_sum_f_R0. apply sum_incr.
    + exact (proj2_sig (exist_exp x)).
    + intros k. apply Rmult_le_pos.
      * left. apply Rinv_0_lt_compat. apply INR_fact_lt_0.
      * apply pow_le. exact Hx.
Qed.

Lemma Rsum_scale (f g : nat -> R) (c : R) (n : nat) :
  (forall k, f k = c * g k)%R -> Rsum f n = (c * Rsum g n)%R.
Proof.
  intros H. induction n as [|n IH]; simpl; [lra|]. rewrite IH, H. lra.
Qed.

Lemma poisson_pmf_nonneg (rate : R) (k : nat) : (0 <= rate)%R -> (0 <= poisson_pmf rate k)%R.
Proof.
  intros Hr. unfold poisson_pmf.
  apply Rmult_le_pos; [apply Rmult_le_pos|].
  - apply pow_le. exact Hr.
  - left. apply exp_pos.
  - left. apply Rinv_0_lt_compat. apply INR_fact_lt_0.
Qed.

Lemma poisson_pmf_sum_le_1 (rate : R) (n : nat) :
  (0 <= rate)%R -> (Rsum (poisson_pmf rate) n <= 1)%R.
Proof.
  intros Hr.
  rewrite (Rsum_scale _ (fun k => / INR (Factorial.fact k) * rate ^ k)%R (exp (- rate))).
  - pose proof (exp_partial_sum rate n Hr) as Hs.
    pose proof (exp_pos (- rate)) as Hp.
    assert (Hone : (exp (- rate) * exp rate = 1)%R).
    { rewrite <- exp_plus. replace (- rate + rate)%R with 0%R by lra. apply exp_0. }
    rewrite <- Hone. apply Rmult_le_compat_l; [lra|exact Hs].
  - intros k. unfold poisson_pmf. unfold Rdiv. ring.
Qed.

(** X3.  Over the extended reals, for a rate that is not negative: the tail of
    the Poisson distribution is a probability, between 0 and 1, and the
    probability of [n + 1] or more events is not above the probability of [n]
    or more. *)
Theorem poisson_tail_is_probability (rate : R) (n : nat) :
  (0 <= rate)%R -> Z.of_nat (S n) <= UINT_MAX ->
  exists p q,
    poisson_prob_n_or_more_failures (Fin rate) (Z.of_nat n) = Fin p /\
    poisson_prob_n_or_more_failures (Fin rate) (Z.of_nat (S n)) = Fin q /\
    (0 <= q <= p)%R /\ (p <= 1)%R.
Proof.
  intros Hr Hn.
  exists (poisson_tail rate n), (poisson_tail rate (S n)).
  split; [apply poisson_prob_n_or_more_failures_fin; lia|].
  split; [apply poisson_prob_n_or_more_failures_fin; lia|].
  unfold poisson_tail.
  pose proof (poisson_pmf_sum_le_1 rate (S n) Hr) as H1.
  pose proof (poisson_pmf_nonneg rate n Hr) as H2.
  assert (H3 : (0 <= Rsum (poisson_pmf rate) n)%R).
  { clear - Hr. induction n as [|n IH]; simpl; [lra|].
    pose proof (poisson_pmf_nonneg rate n Hr). lra. }
  simpl in H1 |- *. lra.
Qed.

(** The theorem for the rate 1/2 and the counts 2 and 3. *)
Lemma poisson_tail_is_probability_witness :
  exists p q,
    poisson_prob_n_or_more_failures (Fin (1 / 2)) 2 = Fin p /\
    poisson_prob_n_or_more_failures (Fin (1 / 2)) 3 = Fin q /\
    (0 <= q <= p)%R /\ (p <= 1)%R.
Proof.
  assert (Hr : (0 <= 1 / 2)%R) by lra.
  assert (Hn : Z.of_nat 3 <= UINT_MAX) by (unfold UINT_MAX; simpl; lia).
  exact (poisson_tail_is_probability (1 / 2) 2 Hr Hn).
Defined.

(** ** Bounds and variation of the estimate of the data loss *)

(** X4.  Over the extended reals, for a finite positive array failure rate and
    repair rate and [0 <= r < n]: the estimate is a probability, between 0 and
    1, and it does not decrease when the array failure rate grows.  (The
    comparisons are not strict in the program: in binary64 an estimate too
    small to change 1 is returned as 0.) *)
Theorem raid_prob_bounds_and_growth (array_failure_rate higher replace_rate : R)
    (n r : Z) :
  (0 < array_failure_rate < higher)%R -> (0 < replace_rate)%R ->
  0 <= r < n -> n <= UINT_MAX ->
  exists p q,
    raid_prob_of_one_or_more_failures (Fin array_failure_rate) (Fin replace_rate) n r
      = Fin p /\
    raid_prob_of_one_or_more_failures (Fin higher) (Fin replace_rate) n r = Fin q /\
    (0 <= p <= q)%R /\ (q <= 1)%R.
Proof.
  intros [Hafr Hlt] Hrr Hr Hn.
  assert (Hhigher : (0 < higher)%R) by lra.
  rewrite (raid_prob_value array_failure_rate replace_rate n r Hafr Hrr Hr Hn).
  rewrite (raid_prob_value higher replace_rate n r Hhigher Hrr Hr Hn).
  eexists. eexists. split; [reflexivity|]. split; [reflexivity|].
  pose proof (MTTDL_formula_pos _ _ n r Hafr Hrr Hr) as Hlow.
  pose proof (MTTDL_formula_pos _ _ n r Hhigher Hrr Hr) as Hhigh.
  assert (HM : (MTTDL_formula higher replace_rate n r
                < MTTDL_formula array_failure_rate replace_rate n r)%R).
  { unfold MTTDL_formula in *.
    pose proof (falling_product_pos n r Hr) as HF.
    assert (HF0 : (0 < / IZR (falling_product n r))%R).
    { apply Rinv_0_lt_compat, IZR_lt. lia. }
    assert (Hy : (0 < / (1 / replace_rate) ^ Z.to_nat r)%R).
    { apply Rinv_0_lt_compat, pow_lt, MTTR_pos. exact Hrr. }
    assert (Hn0 : (0 < IZR n)%R) by (apply IZR_lt; lia).
    assert (Hx : (0 < IZR n / higher < IZR n / array_failure_rate)%R).
    { split; [apply Rdiv_lt_0_compat; lra|].
      unfold Rdiv. apply Rmult_lt_compat_l; [exact Hn0|].
      apply Rinv_lt_contravar; [nra|exact Hlt]. }
    pose proof (pow_lt_strict _ _ (S (Z.to_nat r)) Hx ltac:(lia)) as Hpow.
    unfold Rdiv at 1 3. unfold Rdiv at 1 4.
    apply Rmult_lt_compat_r; [exact HF0|].
    apply Rmult_lt_compat_r; [exact Hy|]. exact Hpow. }
  assert (Hrate : (0 < 1 / MTTDL_formula array_failure_rate replace_rate n r
                   < 1 / MTTDL_formula higher replace_rate n r)%R).
  { split; [apply Rdiv_lt_0_compat; lra|].
    unfold Rdiv. rewrite !Rmult_1_l. apply Rinv_lt_contravar; [nra|exact HM]. }
  set (x := (1 / MTTDL_formula array_failure_rate replace_rate n r)%R) in *.
  set (y := (1 / MTTDL_formula higher replace_rate n r)%R) in *.
  assert (H1 : (exp (- x) < 1)%R).
  { rewrite <- exp_0. apply exp_increasing. lra. }
  assert (H2 : (exp (- y) < exp (- x))%R) by (apply exp_increasing; lra).
  pose proof (exp_pos (- y)) as H3.
  lra.
Qed.

(** The theorem for 4 members and 2 parities, a repair a week, and the array
    failure rates 0.02 and 0.04. *)
Lemma raid_prob_bounds_and_growth_witness :
  exists p q,
    raid_prob_of_one_or_more_failures (Fin (2 / 100)) (Fin (365 / 7)) 4 2 = Fin p /\
    raid_prob_of_one_or_more_failures (Fin (4 / 100)) (Fin (365 / 7)) 4 2 = Fin q /\
    (0 <= p <= q)%R /\ (q <= 1)%R.
Proof.
  assert (Hafr : (0 < 2 / 100 < 4 / 100)%R) by lra.
  assert (Hrr : (0 < 365 / 7)%R) by lra.
  assert (Hr : 0 <= 2 < 4) by lia.
  assert (Hn : 4 <= UINT_MAX) by (unfold UINT_MAX; lia).
  exact (raid_prob_bounds_and_growth _ _ _ 4 2 Hafr Hrr Hr Hn).
Defined.

(** The divisors of the loop, in general: the loop runs [redundancy + 1]
    times, and [n - i] is taken modulo 2^32. *)
Lemma mttdl_divisors_wrap (n redundancy : Z) :
  0 <= redundancy < UINT_MAX ->
  mttdl_divisors n redundancy
  = map (fun i => wrap32 (n - i)) (upto 0 (S (Z.to_nat redundancy))).
Proof.
  intros Hr. unfold mttdl_divisors. unfold UINT_MAX in Hr.
  rewrite wrap32_small by (unfold UINT_MAX; lia).
  rewrite for_up_fold by (unfold UINT_MAX; lia).
  rewrite fold_left_snoc_list. simpl app.
  replace (Z.to_nat (redundancy + 1)) with (S (Z.to_nat redundancy)) by lia.
  reflexivity.
Qed.

Lemma upto_In (count : nat) :
  forall i k, i <= k < i + Z.of_nat count -> In k (upto i count).
Proof.
  induction count as [|c IH]; intros i k Hk; [lia|].
  simpl. destruct (Z.eq_dec i k) as [->|Hne]; [left; reflexivity|].
  right. apply IH. lia.
Qed.

(** X5.  The precondition of the model is needed: the loop of
    [raid_prob_of_one_or_more_failures] divides by zero if and only if the
    redundancy is not below the number of members.  When it does, over the
    extended reals and for positive finite rates, the mean time to data loss
    becomes infinite and the estimate is 0. *)
Theorem mttdl_divides_by_zero_iff (array_failure_rate replace_rate : R) (n r : Z) :
  (0 < array_failure_rate)%R -> (0 < replace_rate)%R ->
  1 <= n <= UINT_MAX -> 0 <= r < UINT_MAX ->
  (In 0 (mttdl_divisors n r) <-> n <= r) /\
  (n <= r ->
   raid_prob_of_one_or_more_failures (Fin array_failure_rate) (Fin replace_rate) n r
   = Fin 0).
Proof.
  intros Hafr Hrr Hn Hr. split.
  - rewrite mttdl_divisors_wrap by exact Hr. unfold UINT_MAX in *. split.
    + intros Hin. apply in_map_iff in Hin as (i & Hi & Hrange).
      apply upto_range in Hrange. unfold wrap32 in Hi.
      apply Z.mod_divide in Hi; [|lia]. destruct Hi as [k Hk].
      change (2 ^ 32) with 4294967296 in *. lia.
    + intros Hle. apply in_map_iff. exists n. split.
      * rewrite Z.sub_diag. reflexivity.
      * apply upto_In. lia.
  - intros Hle. apply raid_prob_redundancy_ge_members; (assumption || lia).
Qed.

(** The theorem for the sample array of 2 members and the redundancy 2, which
    the report shows: the divisors are 2, 1 and 0. *)
Lemma mttdl_divides_by_zero_iff_witness :
  In 0 (mttdl_divisors 2 2) /\
  raid_prob_of_one_or_more_failures (Fin (2 / 100)) (Fin (365 / 7)) 2 2 = Fin 0.
Proof.
  assert (Hafr : (0 < 2 / 100)%R) by lra.
  assert (Hrr : (0 < 365 / 7)%R) by lra.
  assert (Hn : 1 <= 2 <= UINT_MAX) by (unfold UINT_MAX; lia).
  assert (Hr : 0 <= 2 < UINT_MAX) by (unfold UINT_MAX; lia).
  destruct (mttdl_divides_by_zero_iff _ _ 2 2 Hafr Hrr Hn Hr) as [[_ Hin] Hzero].
  split; [apply Hin; lia|apply Hzero; lia].
Defined.

(** ** Printing with padding *)

Section Padding.

Local Open Scope string_scope.

Lemma printf_text_plain (s : string) : plain s -> printf_text s = Some s.
Proof.
  induction s as [|c s IH]; [reflexivity|].
  intros [Hc Hs]. specialize (IH Hs). cbn [printf_text]. rewrite IH.
  destruct c as [[] [] [] [] [] [] [] []]; try reflexivity.
  exfalso. apply Hc. reflexivity.
Qed.

(** What [printf] writes for a format without argument is never longer than
    the format. *)
Lemma printf_text_length (fuel : nat) :
  forall s out, (String.length s <= fuel)%nat ->
    printf_text s = Some out -> (String.length out <= String.length s)%nat.
Proof.
  induction fuel as [|fuel IH]; intros s out Hfuel Hout.
  - destruct s; simpl in Hfuel; [|lia]. injection Hout as <-. simpl. lia.
  - destruct s as [|c s]; [injection Hout as <-; simpl; lia|].
    simpl in Hfuel.
    destruct (ascii_dec c "%") as [->|Hc].
    + destruct s as [|c' s]; [discriminate Hout|].
      destruct (ascii_dec c' "%") as [->|Hc'].
      * cbn [printf_text] in Hout.
        destruct (printf_text s) as [out'|] eqn:E; [|discriminate Hout].
        rewrite bind_some in Hout. injection Hout as <-.
        simpl in Hfuel. pose proof (IH s out' ltac:(lia) E). simpl. lia.
      * exfalso. cbn [printf_text] in Hout.
        destruct c' as [[] [] [] [] [] [] [] []]; try discriminate Hout.
        apply Hc'. reflexivity.
    + assert (Hstep : printf_text (String c s)
                      = (out' <- printf_text s ;; Some (String c out'))).
      { cbn [printf_text].
        destruct c as [[] [] [] [] [] [] [] []]; try reflexivity.
        exfalso. apply Hc. reflexivity. }
      rewrite Hstep in Hout.
      destruct (printf_text s) as [out'|] eqn:E; [|discriminate Hout].
      rewrite bind_some in Hout. injection Hout as <-.
      pose proof (IH s out' ltac:(lia) E). simpl. lia.
Qed.

(** A text is printed as it is only when it holds no percent sign. *)
Lemma printf_text_verbatim (s : string) : printf_text s = Some s -> plain s.
Proof.
  induction s as [|c s IH]; [intros _; exact I|].
  intros Hout. destruct (ascii_dec c "%") as [->|Hc].
  - exfalso. destruct s as [|c' s]; [discriminate Hout|].
    destruct (ascii_dec c' "%") as [->|Hc'].
    + cbn [printf_text] in Hout.
      destruct (printf_text s) as [out'|] eqn:E; [|discriminate Hout].
      rewrite bind_some in Hout. injection Hout as Hout.
      pose proof (printf_text_length (String.length s) s out' (le_n _) E) as Hlen.
      rewrite Hout in Hlen. simpl in Hlen. lia.
    + cbn [printf_text] in Hout.
      destruct c' as [[] [] [] [] [] [] [] []]; try discriminate Hout.
      apply Hc'. reflexivity.
  - assert (Hstep : printf_text (String c s)
                    = (out' <- printf_text s ;; Some (String c out'))).
    { cbn [printf_text].
      destruct c as [[] [] [] [] [] [] [] []]; try reflexivity.
      exfalso. apply Hc. reflexivity. }
    rewrite Hstep in Hout.
    destruct (printf_text s) as [out'|] eqn:E; [|discriminate Hout].
    rewrite bind_some in Hout. injection Hout as Hout.
    split; [exact Hc|]. apply IH. rewrite Hout. reflexivity.
Qed.

Lemma append_inv_head (out str pad_text : string) :
  out ++ pad_text = str ++ pad_text -> out = str.
Proof.
  revert str. induction out as [|c out IH]; intros str H.
  - destruct str as [|c' str]; [reflexivity|].
    exfalso. apply (f_equal String.length) in H.
    simpl in H. rewrite append_length in H. lia.
  - destruct str as [|c' str].
    + exfalso. apply (f_equal String.length) in H.
      simpl in H. rewrite append_length in H. lia.
    + simpl in H. injection H as -> H. f_equal. apply IH. exact H.
Qed.

Lemma printl_plain (str : string) (pad : nat) :
  plain str ->
  printl str pad = Some (str ++ spaces (pad - String.length str)) /\
  String.length (str ++ spaces (pad - String.length str))
  = Nat.max (String.length str) pad.
Proof.
  intros Hplain. split.
  - unfold printl. rewrite printf_text_plain by exact Hplain.
    rewrite bind_some. rewrite pad_loop_spaces by lia. reflexivity.
  - rewrite append_length, spaces_length. lia.
Qed.

(** X6.  [printl] prints a text without percent sign as it is, followed by
    spaces up to [pad] columns, never cut: the output has
    [max (length str) pad] characters.  It is the only case where the text
    comes out as it is: [printl] passes its argument to [printf] as the
    format, so a text with a percent sign is printed altered or not at
    all. *)
Theorem printl_pads_plain_text (str : string) (pad : nat) :
  (plain str ->
   printl str pad = Some (str ++ spaces (pad - String.length str)) /\
   String.length (str ++ spaces (pad - String.length str))
   = Nat.max (String.length str) pad) /\
  (printl str pad = Some (str ++ spaces (pad - String.length str)) -> plain str).
Proof.
  split.
  - apply printl_plain.
  - unfold printl. intros H.
    destruct (printf_text str) as [out|] eqn:E; [|discriminate H].
    rewrite bind_some in H. rewrite pad_loop_spaces in H by lia.
    injection H as H. apply append_inv_head in H. subst out.
    apply printf_text_verbatim. exact E.
Qed.

(** The theorem for a device path and the column width 12. *)
Lemma printl_pads_plain_text_witness :
  printl "/dev/sda" 12 = Some ("/dev/sda" ++ spaces (12 - String.length "/dev/sda")).
Proof.
  destruct (printl_pads_plain_text "/dev/sda" 12) as [Hplain _].
  apply Hplain. simpl. repeat split; discriminate.
Defined.

End Padding.

(** ** The columns of the report *)

Lemma max_length_fold (field : devinfo -> string) (low : list devinfo) :
  forall pad : nat,
    let result :=
      fold_left
        (fun pad devinfo =>
           let len := String.length (field devinfo) in
           if (pad <? len)%nat then len else pad)
        low pad in
    (pad <= result)%nat /\
    (forall d, In d low -> (String.length (field d) <= result)%nat) /\
    (result = pad \/ exists d, In d low /\ String.length (field d) = result).
Proof.
  induction low as [|d low IH]; intros pad; cbn zeta.
  - simpl. split; [lia|]. split; [tauto|]. left; reflexivity.
  - cbn [fold_left].
    destruct (IH (if (pad <? String.length (field d))%nat
                  then String.length (field d) else pad)) as (Hge & Hall & Hatt).
    cbn zeta in Hge, Hall, Hatt.
    destruct (pad <? String.length (field d))%nat eqn:E.
    + apply Nat.ltb_lt in E. split; [lia|]. split.
      * intros d' [<-|Hin]; [exact Hge|apply Hall; exact Hin].
      * right. destruct Hatt as [Heq|(d' & Hin & Hd')].
        -- exists d. split; [left; reflexivity|]. symmetry. exact Heq.
        -- exists d'. split; [right; exact Hin|exact Hd'].
    + apply Nat.ltb_ge in E. split; [lia|]. split.
      * intros d' [<-|Hin]; [lia|apply Hall; exact Hin].
      * destruct Hatt as [Heq|(d' & Hin & Hd')]; [left; exact Heq|].
        right. exists d'. split; [right; exact Hin|exact Hd'].
Qed.

(** The padding of a column is the largest length of the field over the
    list. *)
Lemma max_length_spec (field : devinfo -> string) (low : list devinfo) :
  (forall d, In d low -> (String.length (field d) <= max_length field low)%nat) /\
  (low <> [] -> exists d, In d low /\ String.length (field d) = max_length field low) /\
  (low = [] -> max_length field low = 0%nat).
Proof.
  destruct (max_length_fold field low 0%nat) as (_ & Hall & Hatt).
  cbn zeta in Hall, Hatt. fold (max_length field low) in Hall, Hatt.
  split; [exact Hall|]. split.
  - intros Hne. destruct Hatt as [Heq|Hex]; [|exact Hex].
    destruct low as [|d low]; [congruence|].
    exists d. split; [left; reflexivity|].
    pose proof (Hall d (or_introl eq_refl)). lia.
  - intros ->. reflexivity.
Qed.

(** X7.  The columns of the serial numbers and of the device files are
    aligned over the rows of the report: in the row of every device of the
    list, each of the two calls of [printl], for a text without percent sign,
    writes exactly [max 1 pad] characters, where [pad] is the largest length of
    the field over the list.  (The headers "Serial" and "Device" take
    [max 6 pad] characters.) *)
Theorem report_columns_aligned {D : Type} {arith : Arith D} {libm : LibM D}
    (SMART_UNASSIGNED SMART_ERROR SMART_SIZE : Z) (PRIu64 : string)
    (low : list devinfo) (d : devinfo) (afr : D) (str : string) (pad : nat) :
  In d low ->
  In (Printl str pad)
     (smart_row SMART_UNASSIGNED SMART_ERROR SMART_SIZE PRIu64
        (max_length file low) (max_length smart_serial low) d afr) ->
  plain str ->
  (pad = max_length smart_serial low \/ pad = max_length file low) /\
  exists text,
    printl str pad = Some text /\ String.length text = Nat.max 1 pad.
Proof.
  intros Hd Hin Hplain.
  destruct (max_length_spec file low) as (Hfile & _ & _).
  destruct (max_length_spec smart_serial low) as (Hserial & _ & _).
  specialize (Hfile d Hd). specialize (Hserial d Hd).
  assert (Hcases :
    (pad = max_length smart_serial low /\
     (str = smart_serial d /\ str <> ""%string \/ str = "-"%string)) \/
    (pad = max_length file low /\
     (str = file d /\ str <> ""%string \/ str = "-"%string))).
  { unfold smart_row in Hin. cbn [In] in Hin.
    repeat match type of Hin with
           | _ \/ _ => destruct Hin as [Hin|Hin]
           | False => contradiction
           end;
      try (repeat match type of Hin with
                  | context [if ?b then _ else _] => destruct b
                  end; discriminate Hin).
    - left. destruct (smart_serial d =? "")%string eqn:E; cbn [negb] in Hin;
        injection Hin as <- <-.
      + split; [reflexivity|]. right; reflexivity.
      + split; [reflexivity|]. left. split; [reflexivity|].
        apply String.eqb_neq. exact E.
    - right. destruct (file d =? "")%string eqn:E; cbn [negb] in Hin;
        injection Hin as <- <-.
      + split; [reflexivity|]. right; reflexivity.
      + split; [reflexivity|]. left. split; [reflexivity|].
        apply String.eqb_neq. exact E. }
  destruct (printl_plain str pad Hplain) as [Hout Hlen].
  split; [tauto|].
  eexists. split; [exact Hout|]. rewrite Hlen.
  destruct Hcases as [[-> [[-> Hne] | ->]] | [-> [[-> Hne] | ->]]].
  - assert (1 <= String.length (smart_serial d))%nat
      by (destruct (smart_serial d); [congruence|simpl; lia]).
    lia.
  - simpl. lia.
  - assert (1 <= String.length (file d))%nat
      by (destruct (file d); [congruence|simpl; lia]).
    lia.
  - simpl. lia.
Qed.

(** The theorem for the logical record of the sample list, and its device
    file. *)
Lemma report_columns_aligned_witness :
  exists text,
    printl "/dev/sda1" 9 = Some text /\ String.length text = Nat.max 1 9.
Proof.
  assert (Hd : In sample_logical [sample_physical; sample_logical])
    by (right; left; reflexivity).
  assert (Hin : In (Printl "/dev/sda1" 9)
                  (smart_row (D := ereal) UINT64_MAX 256 257 "lu"
                     (max_length file [sample_physical; sample_logical])
                     (max_length smart_serial [sample_physical; sample_logical])
                     sample_logical (Fin 0))).
  { unfold smart_row. cbn [In]. do 8 right. left. vm_compute. reflexivity. }
  assert (Hplain : plain "/dev/sda1") by (simpl; repeat split; discriminate).
  exact (proj2 (report_columns_aligned (D := ereal) UINT64_MAX 256 257 "lu"
                  [sample_physical; sample_logical] sample_logical (Fin 0)
                  "/dev/sda1" 9 Hd Hin Hplain)).
Defined.

(** ** The requested list and the other operations *)

Section Requests.

Variables (lev_config_name : Z -> string) (pathcpy pathcut : string -> string).

(** X8.  The requested list holds one entry for each disk, in the order of the
    configuration, then one entry for each parity level from 0 to [level - 1]:
    its length is the number of disks plus the level, which is the number of
    members given to the report; no entry has a parent. *)
Theorem high_list_members (state : snapraid_state) :
  0 <= level state ->
  level state + Z.of_nat (List.length (disklist state)) <= UINT_MAX ->
  high_list lev_config_name pathcpy pathcut state
  = map (fun disk =>
           high_entry (disk_device disk) (pathcpy (disk_name disk))
             (pathcpy (disk_dir disk)))
        (disklist state)
    ++ map (fun j =>
              high_entry (parity_device (parity state j))
                (pathcpy (lev_config_name j))
                (pathcut (pathcpy (parity_path (parity state j)))))
         (upto 0 (Z.to_nat (level state))) /\
  Z.of_nat (List.length (high_list lev_config_name pathcpy pathcut state))
  = member_count state /\
  Forall (fun entry => parent entry = None)
    (high_list lev_config_name pathcpy pathcut state).
Proof.
  intros H0 Hmax.
  assert (E : high_list lev_config_name pathcpy pathcut state
              = map (fun disk =>
                       high_entry (disk_device disk) (pathcpy (disk_name disk))
                         (pathcpy (disk_dir disk)))
                    (disklist state)
                ++ map (fun j =>
                          high_entry (parity_device (parity state j))
                            (pathcpy (lev_config_name j))
                            (pathcut (pathcpy (parity_path (parity state j)))))
                     (upto 0 (Z.to_nat (level state)))).
  { unfold high_list. rewrite for_up_fold by lia.
    apply (fold_left_snoc_list
             (fun j => high_entry (parity_device (parity state j))
                         (pathcpy (lev_config_name j))
                         (pathcut (pathcpy (parity_path (parity state j)))))). }
  split; [exact E|]. split.
  - rewrite E, length_app, !length_map, upto_length.
    rewrite member_count_sum by assumption. lia.
  - rewrite E. apply Forall_app. split; apply Forall_forall; intros entry Hin;
      apply in_map_iff in Hin as (x & <- & _); reflexivity.
Qed.

End Requests.

(** The theorem for the sample array: a disk, then a parity. *)
Lemma high_list_members_witness :
  map name (high_list (fun _ => "parity"%string) (fun s => s) (fun s => s) sample_state)
  = [ "d1"%string; "parity"%string ] /\
  member_count sample_state = 2.
Proof.
  assert (H0 : 0 <= level sample_state) by (simpl; lia).
  assert (Hmax : level sample_state
                 + Z.of_nat (List.length (disklist sample_state)) <= UINT_MAX)
    by (unfold UINT_MAX; simpl; lia).
  destruct (high_list_members (fun _ => "parity"%string) (fun s => s) (fun s => s)
              sample_state H0 Hmax) as (E & Hlen & _).
  split.
  - rewrite E. reflexivity.
  - rewrite <- Hlen. rewrite E. reflexivity.
Defined.

(** The lines of the list are defined when every record has a parent, and
    only then; there is one line for each record. *)
Lemma list_lines_some {D : Type} (major minor : Z -> Z) (low : list devinfo) :
  Forall (fun d => parent d <> None) low ->
  exists lines : list (event D), list_lines major minor low = Some lines.
Proof.
  induction 1 as [|d low Hd _ IH].
  - exists []. reflexivity.
  - destruct IH as (rest & Hrest). cbn [list_lines]. unfold list_line.
    destruct (parent d) as [p|]; [|congruence].
    rewrite !bind_some, Hrest, bind_some. eexists. reflexivity.
Qed.

Lemma list_lines_inv {D : Type} (major minor : Z -> Z) (low : list devinfo) :
  forall lines : list (event D),
    list_lines major minor low = Some lines ->
    Forall (fun d => parent d <> None) low /\
    List.length lines = List.length low /\
    Forall prints lines.
Proof.
  induction low as [|d low IH]; intros lines Hlines.
  - injection Hlines as <-. repeat split; constructor.
  - cbn [list_lines] in Hlines. unfold list_line in Hlines.
    destruct (parent d) as [p|] eqn:Hp; [|discriminate Hlines].
    rewrite !bind_some in Hlines.
    destruct (list_lines major minor low) as [rest|] eqn:Hrest;
      [|discriminate Hlines].
    rewrite bind_some in Hlines. injection Hlines as <-.
    destruct (IH rest eq_refl) as (Hall & Hlen & Hpr).
    split; [constructor; [congruence|exact Hall]|].
    split; [simpl; rewrite Hlen; reflexivity|].
    constructor; [exact I|exact Hpr].
Qed.

Lemma diagnostic_of_stderr {D : Type} (op : operation) (rc : Z) :
  stderr_calls (diagnostic_of (D := D) op rc)
  = if rc =? 0 then []
    else [ (operation_name op, []);
           (" unsupported in this platform." ++ nl, [])%string ].
Proof. unfold diagnostic_of. destruct (rc =? 0); reflexivity. Qed.

Lemma diagnostic_of_stdout {D : Type} (op : operation) (rc : Z) :
  stdout_events (diagnostic_of (D := D) op rc) = [] /\
  loss_calls (diagnostic_of (D := D) op rc) = [].
Proof. unfold diagnostic_of. destruct (rc =? 0); split; reflexivity. Qed.

Section Operations.

Context {D : Type} {arith : Arith D} {libm : LibM D}.
Variables (SMART_UNASSIGNED SMART_ERROR SMART_SIZE : Z) (PRIu64 : string).
Variables (major minor : Z -> Z).
Variables (lev_config_name : Z -> string) (pathcpy pathcut : string -> string).
Variable devquery : list devinfo -> operation -> Z * list devinfo.
Variable WIN32 : bool.

Let run := state_device SMART_UNASSIGNED SMART_ERROR SMART_SIZE PRIu64 major minor
             lev_config_name pathcpy pathcut devquery WIN32.

Let high := high_list lev_config_name pathcpy pathcut.

(** The run of an operation, in its parts: the status line of a spin-up or a
    spin-down, the diagnostic, the lines of the list, the report. *)
Lemma state_device_parts (state : snapraid_state) (op : operation) :
  run state op
  = (listing <-
       (if negb WIN32
        then match op with
             | DEVICE_LIST => list_lines major minor (snd (devquery (high state) op))
             | _ => Some []
             end
        else Some []) ;;
     report <-
       (match op with
        | DEVICE_SMART =>
            state_smart SMART_UNASSIGNED SMART_ERROR SMART_SIZE PRIu64
              (member_count state) (snd (devquery (high state) op))
        | _ => Some []
        end) ;;
     Some (match op with
           | DEVICE_UP => [ Printf ("Spinup..." ++ nl)%string [] ]
           | DEVICE_DOWN => [ Printf ("Spindown..." ++ nl)%string [] ]
           | _ => []
           end
           ++ diagnostic_of op (fst (devquery (high state) op))
           ++ listing ++ report)).
Proof.
  unfold run, state_device. fold high.
  destruct (devquery (high state) op) as [rc low]. reflexivity.
Qed.

(** The list of the devices, in a build that is not for Windows. *)
Lemma state_device_list_posix (state : snapraid_state) :
  WIN32 = false ->
  ((exists trace, run state DEVICE_LIST = Some trace)
   <-> Forall (fun d => parent d <> None) (snd (devquery (high state) DEVICE_LIST))) /\
  (forall trace, run state DEVICE_LIST = Some trace ->
     list_lines major minor (snd (devquery (high state) DEVICE_LIST))
       = Some (stdout_events trace) /\
     List.length (stdout_events trace)
       = List.length (snd (devquery (high state) DEVICE_LIST))).
Proof.
  intros HW. rewrite state_device_parts. rewrite HW. cbn [negb].
  set (low := snd (devquery (high state) DEVICE_LIST)).
  set (rc := fst (devquery (high state) DEVICE_LIST)).
  split; [split|].
  - intros (trace & Htrace).
    destruct (list_lines major minor low) as [lines|] eqn:E; [|discriminate Htrace].
    apply (list_lines_inv (D := D) major minor low lines E).
  - intros Hall. destruct (list_lines_some (D := D) major minor low Hall) as (lines & E).
    rewrite E, !bind_some. eexists. reflexivity.
  - intros trace Htrace.
    destruct (list_lines major minor low) as [lines|] eqn:E; [|discriminate Htrace].
    rewrite !bind_some in Htrace. injection Htrace as <-.
    destruct (list_lines_inv (D := D) major minor low lines E) as (_ & Hlen & Hpr).
    cbn [app]. rewrite stdout_events_app.
    rewrite (proj1 (diagnostic_of_stdout DEVICE_LIST rc)).
    rewrite app_nil_r. cbn [app]. rewrite (prints_stdout_events lines Hpr).
    split; [reflexivity|exact Hlen].
Qed.

(** What every run keeps to: the standard error gets the diagnostic and
    nothing else, and the model of the data loss is called by the SMART
    operation only. *)
Lemma state_device_trace (state : snapraid_state) (op : operation)
    (trace : list (event D)) :
  run state op = Some trace ->
  stderr_calls trace
    = stderr_calls (diagnostic_of (D := D) op (fst (devquery (high state) op))) /\
  (op <> DEVICE_SMART -> loss_calls trace = []).
Proof.
  rewrite state_device_parts.
  set (low := snd (devquery (high state) op)).
  set (rc := fst (devquery (high state) op)).
  intros Hrun.
  assert (Hlisting : forall listing : list (event D),
            (if negb WIN32
             then match op with
                  | DEVICE_LIST => list_lines major minor low
                  | _ => Some []
                  end
             else Some []) = Some listing -> Forall prints listing).
  { intros listing H. destruct WIN32; cbn [negb] in H.
    - injection H as <-. constructor.
    - destruct op; try (injection H as <-; constructor).
      apply (list_lines_inv (D := D) major minor low listing H). }
  destruct (if negb WIN32
            then match op with
                 | DEVICE_LIST => list_lines major minor low
                 | _ => Some []
                 end
            else Some []) as [listing|]; [|discriminate Hrun].
  specialize (Hlisting listing eq_refl). rewrite bind_some in Hrun.
  destruct op.
  - rewrite bind_some in Hrun. injection Hrun as <-. split.
    + cbn [app stderr_calls]. rewrite !stderr_calls_app.
      rewrite (prints_stderr_calls _ Hlisting). rewrite !app_nil_r. reflexivity.
    + intros _. cbn [app loss_calls]. rewrite !loss_calls_app.
      rewrite (proj2 (diagnostic_of_stdout DEVICE_UP rc)).
      rewrite (prints_loss_calls _ Hlisting). reflexivity.
  - rewrite bind_some in Hrun. injection Hrun as <-. split.
    + cbn [app stderr_calls]. rewrite !stderr_calls_app.
      rewrite (prints_stderr_calls _ Hlisting). rewrite !app_nil_r. reflexivity.
    + intros _. cbn [app loss_calls]. rewrite !loss_calls_app.
      rewrite (proj2 (diagnostic_of_stdout DEVICE_DOWN rc)).
      rewrite (prints_loss_calls _ Hlisting). reflexivity.
  - rewrite bind_some in Hrun. injection Hrun as <-. split.
    + cbn [app stderr_calls]. rewrite !stderr_calls_app.
      rewrite (prints_stderr_calls _ Hlisting). rewrite !app_nil_r. reflexivity.
    + intros _. cbn [app loss_calls]. rewrite !loss_calls_app.
      rewrite (proj2 (diagnostic_of_stdout DEVICE_LIST rc)).
      rewrite (prints_loss_calls _ Hlisting). reflexivity.
  - destruct (state_smart_calls SMART_UNASSIGNED SMART_ERROR SMART_SIZE PRIu64
                (member_count state) low)
      as (report & rest & rates & Hreport & _ & _ & _ & Herr & _).
    rewrite Hreport, bind_some in Hrun. injection Hrun as Htrace.
    rewrite <- Htrace. split.
    + cbn [app]. rewrite !stderr_calls_app.
      rewrite (prints_stderr_calls _ Hlisting), Herr. rewrite !app_nil_r. reflexivity.
    + congruence.
Qed.

End Operations.

(** X9.  In a build that is not for Windows, the list of the devices reads
    the parent of every resolved record without a test: the run is defined if
    and only if every record of the resolved list has a parent, and it then
    prints exactly one line for each record, in the order of the list.  In a
    build for Windows the operation prints nothing. *)
Theorem device_list_needs_parents
    {D : Type} {arith : Arith D} {libm : LibM D}
    (SMART_UNASSIGNED SMART_ERROR SMART_SIZE : Z) (PRIu64 : string)
    (major minor : Z -> Z)
    (lev_config_name : Z -> string) (pathcpy pathcut : string -> string)
    (devquery : list devinfo -> operation -> Z * list devinfo) (WIN32 : bool)
    (state : snapraid_state) :
  let low :=
    snd (devquery (high_list lev_config_name pathcpy pathcut state) DEVICE_LIST) in
  let run :=
    state_device (D := D) SMART_UNASSIGNED SMART_ERROR SMART_SIZE PRIu64 major minor
      lev_config_name pathcpy pathcut devquery WIN32 state DEVICE_LIST in
  (WIN32 = false ->
   ((exists trace, run = Some trace) <-> Forall (fun d => parent d <> None) low) /\
   (forall trace, run = Some trace ->
      list_lines major minor low = Some (stdout_events trace) /\
      List.length (stdout_events trace) = List.length low)) /\
  (WIN32 = true ->
   exists trace, run = Some trace /\ stdout_events trace = []).
Proof.
  intros low run. split.
  - intros HW.
    apply (state_device_list_posix SMART_UNASSIGNED SMART_ERROR SMART_SIZE PRIu64
             major minor lev_config_name pathcpy pathcut devquery WIN32 state HW).
  - intros HW. unfold run. rewrite state_device_parts. rewrite HW. cbn [negb].
    rewrite !bind_some. eexists. split; [reflexivity|].
    cbn [app]. rewrite stdout_events_app.
    rewrite (proj1 (diagnostic_of_stdout DEVICE_LIST _)). reflexivity.
Qed.

(** The theorem on the sample array: the resolved list holds a physical
    record, which has no parent, and the list of the devices is not
    defined. *)
Lemma device_list_needs_parents_witness :
  ~ exists trace, sample_run sample_query DEVICE_LIST = Some trace.
Proof.
  destruct (device_list_needs_parents (D := ereal) UINT64_MAX 256 257 "lu"
              (fun d => d / 256) (fun d => d mod 256)
              (fun _ => "parity"%string) (fun s => s) (fun s => s)
              sample_query false sample_state) as [Hposix _].
  destruct (Hposix eq_refl) as [[Hdef _] _].
  intros Hex. apply Hdef in Hex.
  inversion Hex as [|? ? Hphys _]. apply Hphys. reflexivity.
Defined.

(** X10.  In every run that is defined: the standard error gets the
    diagnostic of the operation when the device query returns a code that is
    not 0, and nothing otherwise; the model of the data loss is called by the
    SMART operation only; and a spin-up or a spin-down prints its status line
    and nothing else, whatever the device query resolves. *)
Theorem operations_keep_to_their_output
    {D : Type} {arith : Arith D} {libm : LibM D}
    (SMART_UNASSIGNED SMART_ERROR SMART_SIZE : Z) (PRIu64 : string)
    (major minor : Z -> Z)
    (lev_config_name : Z -> string) (pathcpy pathcut : string -> string)
    (devquery : list devinfo -> operation -> Z * list devinfo) (WIN32 : bool)
    (state : snapraid_state) (op : operation) (trace : list (event D)) :
  state_device SMART_UNASSIGNED SMART_ERROR SMART_SIZE PRIu64 major minor
    lev_config_name pathcpy pathcut devquery WIN32 state op = Some trace ->
  let rc := fst (devquery (high_list lev_config_name pathcpy pathcut state) op) in
  stderr_calls trace
    = (if rc =? 0 then []
       else [ (operation_name op, []);
              (" unsupported in this platform." ++ nl, [])%string ]) /\
  (op <> DEVICE_SMART -> loss_calls trace = []) /\
  (op = DEVICE_UP -> stdout_events trace = [ Printf ("Spinup..." ++ nl)%string [] ]) /\
  (op = DEVICE_DOWN ->
   stdout_events trace = [ Printf ("Spindown..." ++ nl)%string [] ]).
Proof.
  intros Hrun rc.
  destruct (state_device_trace SMART_UNASSIGNED SMART_ERROR SMART_SIZE PRIu64
              major minor lev_config_name pathcpy pathcut devquery WIN32
              state op trace Hrun) as [Herr Hloss].
  split; [rewrite Herr; apply diagnostic_of_stderr|]. split; [exact Hloss|].
  rewrite state_device_parts in Hrun.
  split; intros ->; destruct WIN32; cbn [negb] in Hrun;
    rewrite !bind_some in Hrun; injection Hrun as <-;
    cbn [app stdout_events]; rewrite stdout_events_app;
    rewrite (proj1 (diagnostic_of_stdout _ _)); reflexivity.
Qed.

(** The theorem on the sample array, for a spin-up on a platform that
    supports it. *)
Lemma operations_keep_to_their_output_witness :
  sample_run sample_query DEVICE_UP = Some [ Printf ("Spinup..." ++ nl)%string [] ] /\
  stderr_calls (D := ereal) [ Printf ("Spinup..." ++ nl)%string [] ] = [] /\
  stdout_events (D := ereal) [ Printf ("Spinup..." ++ nl)%string [] ]
  = [ Printf ("Spinup..." ++ nl)%string [] ].
Proof.
  assert (Hrun : sample_run sample_query DEVICE_UP
                 = Some [ Printf ("Spinup..." ++ nl)%string [] ]) by reflexivity.
  destruct (operations_keep_to_their_output (D := ereal) UINT64_MAX 256 257 "lu"
              (fun d => d / 256) (fun d => d mod 256)
              (fun _ => "parity"%string) (fun s => s) (fun s => s)
              sample_query false sample_state DEVICE_UP _ Hrun)
    as (Herr & _ & Hup & _).
  split; [exact Hrun|]. split; [exact Herr|]. apply Hup. reflexivity.
Defined.

(** ** The summary of the report *)

(** The summary of the report prints the Poisson tail at 1 of the rate that
    is passed to the model of the data loss. *)
Lemma state_smart_summary {D : Type} {arith : Arith D} {libm : LibM D}
    (SMART_UNASSIGNED SMART_ERROR SMART_SIZE : Z) (PRIu64 : string)
    (n : Z) (low : list devinfo) :
  exists report before after rates,
    state_smart SMART_UNASSIGNED SMART_ERROR SMART_SIZE PRIu64 n low = Some report /\
    logical_rates SMART_UNASSIGNED low = Some rates /\
    report
    = before
      ++ Printf ("Probability of at least one disk failure in the next year is: %.0f %%"
                 ++ nl)%string
           [ADouble (poisson_prob_n_or_more_failures
                       (fold_left dadd rates (d_of_uint 0)) 1 * d_of_uint 100)%D]
         :: after.
Proof.
  unfold state_smart.
  destruct (smart_rows_rate SMART_UNASSIGNED SMART_ERROR SMART_SIZE PRIu64
              (max_length file low) (max_length smart_serial low) low
              (d_of_uint 0)) as (rows & rates & Hrows & Hrates & _).
  rewrite Hrows, bind_some. cbn [fst snd]. cbv zeta.
  match goal with
  | |- context [Some (?h ++ rows ++ ?s ++ ?t ++ ?f)] =>
      set (header := h); set (summary := s); set (table := t); set (footer := f)
  end.
  exists (header ++ rows ++ summary ++ table ++ footer).
  exists (header ++ rows ++ firstn 4 summary), (skipn 5 summary ++ table ++ footer).
  exists rates. split; [reflexivity|]. split; [exact Hrates|].
  rewrite <- !app_assoc. reflexivity.
Qed.

Lemma fold_left_eadd_fin (xs : list R) :
  forall acc : R,
    fold_left dadd (map Fin xs) (Fin acc) = Fin (fold_left Rplus xs acc).
Proof.
  induction xs as [|x xs IH]; intros acc; [reflexivity|].
  cbn [map fold_left dadd ereal_arith eadd]. apply IH.
Qed.

Lemma fold_left_Rplus_ge (xs : list R) :
  Forall (fun x => 0 <= x)%R xs ->
  forall acc : R,
    (acc <= fold_left Rplus xs acc)%R /\
    (forall x, In x xs -> (acc + x <= fold_left Rplus xs acc)%R).
Proof.
  induction 1 as [|y xs Hy _ IH]; intros acc; simpl.
  - split; [lra|tauto].
  - destruct (IH (acc + y)%R) as [Hge Hin]. split; [lra|].
    intros x [<-|Hx]; [exact Hge|]. specialize (Hin x Hx). lra.
Qed.

Lemma logical_rates_fin (UNASSIGNED : Z) (low : list devinfo) :
  (forall d id, In d low -> 0 <= smart d id) ->
  exists xs,
    logical_rates UNASSIGNED low = Some (map Fin xs) /\
    Forall (fun x => 0 <= x <= AFR_MAX)%R xs.
Proof.
  induction low as [|d low IH]; intros Hpos.
  - exists []. split; [reflexivity|constructor].
  - destruct IH as (xs & Hxs & Hall).
    { intros d' id Hin. apply Hpos. right. exact Hin. }
    destruct (smart_afr_range UNASSIGNED (smart d)) as (a & Ea & Ha).
    { intros id. apply Hpos. left. reflexivity. }
    cbn [logical_rates]. rewrite Ea, bind_some, Hxs, bind_some.
    destruct (parent d).
    + exists (a :: xs). split; [reflexivity|]. constructor; assumption.
    + exists xs. split; [reflexivity|exact Hall].
Qed.

(** X11.  Over the extended reals, for attributes that are valid [uint64_t]
    values: the value the summary hands to [printf], with the format
    [%.0f %%], as probability of at least one disk failure is
    [100 * (1 - e^(-total))], where [total] is the sum of the rates of the
    logical records, the rate passed to the model of the data loss; it is at
    most 100 and not below the value [100 * (1 - e^(-x))] of the column AFP
    of any logical record of rate [x].  (The line shows the value rounded to
    a whole number, which can read 100.) *)
Theorem summary_dominates_devices
    (SMART_UNASSIGNED SMART_ERROR SMART_SIZE : Z) (PRIu64 : string)
    (n : Z) (low : list devinfo) :
  (forall d id, In d low -> 0 <= smart d id) ->
  exists report before after xs total,
    state_smart (D := ereal) SMART_UNASSIGNED SMART_ERROR SMART_SIZE PRIu64 n low
      = Some report /\
    logical_rates SMART_UNASSIGNED low = Some (map Fin xs) /\
    fold_left dadd (map Fin xs) (d_of_uint 0) = Fin total /\
    report
    = before
      ++ Printf ("Probability of at least one disk failure in the next year is: %.0f %%"
                 ++ nl)%string
           [ADouble (Fin ((1 - exp (- total)) * 100))]
         :: after /\
    ((1 - exp (- total)) * 100 <= 100)%R /\
    forall x, In x xs ->
      (0 <= (1 - exp (- x)) * 100 <= (1 - exp (- total)) * 100)%R.
Proof.
  intros Hpos.
  destruct (state_smart_summary (D := ereal) SMART_UNASSIGNED SMART_ERROR SMART_SIZE
              PRIu64 n low) as (report & before & after & rates & Hrep & Hrates & Hshape).
  destruct (logical_rates_fin SMART_UNASSIGNED low Hpos) as (xs & Hxs & Hall).
  rewrite Hxs in Hrates. injection Hrates as <-.
  assert (Hnn : Forall (fun x => 0 <= x)%R xs).
  { eapply Forall_impl; [|exact Hall]. simpl. intros x Hx. lra. }
  destruct (fold_left_Rplus_ge xs Hnn 0%R) as [Hge Hin].
  exists report, before, after, xs, (fold_left Rplus xs 0%R).
  split; [exact Hrep|]. split; [exact Hxs|].
  split; [rewrite d_of_uint_fin; apply fold_left_eadd_fin|].
  split.
  - rewrite Hshape. rewrite d_of_uint_fin at 1. rewrite fold_left_eadd_fin.
    rewrite poisson_prob_one_or_more_fin. reflexivity.
  - split.
    + pose proof (one_minus_exp_range _ Hge). lra.
    + intros x Hx. specialize (Hin x Hx).
      rewrite Forall_forall in Hnn. specialize (Hnn x Hx).
      pose proof (one_minus_exp_range x Hnn) as Hr.
      assert (Hmono : (exp (- fold_left Rplus xs 0) <= exp (- x))%R).
      { destruct (Req_dec x (fold_left Rplus xs 0%R)) as [<-|Hne]; [lra|].
        left. apply exp_increasing. lra. }
      lra.
Qed.

(** The theorem for the resolved list of the sample array. *)
Lemma summary_dominates_devices_witness :
  exists report before after xs total,
    state_smart (D := ereal) UINT64_MAX 256 257 "lu" 2
      [sample_physical; sample_logical] = Some report /\
    logical_rates UINT64_MAX [sample_physical; sample_logical] = Some (map Fin xs) /\
    fold_left dadd (map Fin xs) (d_of_uint 0) = Fin total /\
    report
    = before
      ++ Printf ("Probability of at least one disk failure in the next year is: %.0f %%"
                 ++ nl)%string
           [ADouble (Fin ((1 - exp (- total)) * 100))]
         :: after /\
    ((1 - exp (- total)) * 100 <= 100)%R /\
    forall x, In x xs ->
      (0 <= (1 - exp (- x)) * 100 <= (1 - exp (- total)) * 100)%R.
Proof.
  apply (summary_dominates_devices UINT64_MAX 256 257 "lu" 2
           [sample_physical; sample_logical]).
  intros d id [<-|[<-|[]]]; cbn [smart sample_physical sample_logical].
  - vm_compute. discriminate.
  - destruct (id =? 5); vm_compute; discriminate.
Defined.

(** ** The conversion of names ([mingw.c]) *)

Lemma to_backslash_nonzero (w : wchar_t) :
  (w =? 0) = false -> (to_backslash w =? 0) = false.
Proof.
  intros Hw. unfold to_backslash. destruct (w =? L slash); [reflexivity|exact Hw].
Qed.

Lemma wcs_slash_loop (buffer : list wchar_t) :
  wcs (slash_loop buffer) = map to_backslash (wcs buffer).
Proof.
  induction buffer as [|w rest IH]; [reflexivity|].
  cbn [slash_loop wcs]. destruct (w =? 0) eqn:Hw.
  - cbn [wcs]. rewrite Hw. reflexivity.
  - change (if w =? L slash then L backslash else w) with (to_backslash w).
    cbn [wcs map]. rewrite (to_backslash_nonzero w Hw), IH. reflexivity.
Qed.

Lemma wcs_app_terminator (ws : list wchar_t) : wcs (ws ++ [0]) = wcs ws.
Proof.
  induction ws as [|w rest IH]; [reflexivity|].
  cbn [app wcs]. destruct (w =? 0); [reflexivity|]. rewrite IH. reflexivity.
Qed.

Lemma wcs_app (dst buffer : list wchar_t) :
  Forall (fun w => w <> 0) dst -> wcs (dst ++ buffer) = dst ++ wcs buffer.
Proof.
  induction 1 as [|w dst Hw _ IH]; [reflexivity|].
  cbn [app wcs]. apply Z.eqb_neq in Hw. rewrite Hw, IH. reflexivity.
Qed.

Lemma to_backslash_no_slash (ws : list wchar_t) :
  ~ In (L slash) (map to_backslash ws).
Proof.
  induction ws as [|w rest IH]; [simpl; tauto|].
  cbn [map In]. intros [H|H]; [|exact (IH H)].
  unfold to_backslash in H. destruct (w =? L slash) eqn:Hs.
  - discriminate H.
  - apply Z.eqb_neq in Hs. congruence.
Qed.

Lemma convert_prefix_cases (src : string) :
  (fst (convert_prefix src) = [] /\ snd (convert_prefix src) = src) \/
  (fst (convert_prefix src) = unc_prefix /\ snd (convert_prefix src) = advance 2 src) \/
  (fst (convert_prefix src) = long_prefix /\ snd (convert_prefix src) = src).
Proof.
  unfold convert_prefix.
  destruct (_ && _ && _ && _); [left; split; reflexivity|].
  destruct (_ && _); [right; left; split; reflexivity|].
  destruct (_ && _ && _); [right; right; split; reflexivity|].
  left. split; reflexivity.
Qed.

Lemma convert_prefix_plain (src : string) :
  Forall (fun w => w <> 0) (fst (convert_prefix src)) /\
  ~ In (L slash) (fst (convert_prefix src)) /\
  (0 <= Z.of_nat (List.length (fst (convert_prefix src))) <= 8).
Proof.
  destruct (convert_prefix_cases src) as [[-> _]|[[-> _]|[-> _]]].
  - split; [constructor|]. split; [simpl; tauto|simpl; lia].
  - split; [repeat constructor; discriminate|].
    split; [|simpl; lia].
    intros H. repeat (destruct H as [H|H]; [discriminate H|]). exact H.
  - split; [repeat constructor; discriminate|].
    split; [|simpl; lia].
    intros H. repeat (destruct H as [H|H]; [discriminate H|]). exact H.
Qed.

(** What a conversion that returns has done to the state. *)
Lemma convert_returns (PATH_MAX : Z)
    (MultiByteToWideChar : string -> Z -> option (list wchar_t))
    (src : string) (st st' : conv_state) (p : Z) :
  convert PATH_MAX MultiByteToWideChar src st = Returns (p, st') ->
  exists ws,
    MultiByteToWideChar (snd (convert_prefix src))
      (PATH_MAX - Z.of_nat (List.length (fst (convert_prefix src)))) = Some ws /\
    p = roll (conv_utf16 st) /\
    conv_utf16 st' = p /\
    conv_utf16_buffer st'
    = store (conv_utf16_buffer st) p
        (fst (convert_prefix src) ++ slash_loop (ws ++ [0])).
Proof.
  unfold convert. destruct (convert_prefix src) as [dst src']. cbn [fst snd].
  destruct (MultiByteToWideChar src' _) as [ws|]; [|discriminate].
  intros H. injection H as <- <-. exists ws. repeat split; reflexivity.
Qed.

Lemma u8tou16_returns (PATH_MAX : Z)
    (MultiByteToWideChar : string -> Z -> option (list wchar_t))
    (src : string) (st st' : conv_state) (p : Z) :
  u8tou16 PATH_MAX MultiByteToWideChar src st = Returns (p, st') ->
  exists ws,
    MultiByteToWideChar src PATH_MAX = Some ws /\
    p = roll (conv_utf16 st) /\
    conv_utf16 st' = p /\
    conv_utf16_buffer st' = store (conv_utf16_buffer st) p (ws ++ [0]).
Proof.
  unfold u8tou16.
  destruct (MultiByteToWideChar src PATH_MAX) as [ws|]; [|discriminate].
  intros H. injection H as <- <-. exists ws. repeat split; reflexivity.
Qed.

Lemma store_same (buffers : Z -> list wchar_t) (p : Z) (content : list wchar_t) :
  store buffers p content p = content.
Proof. unfold store. rewrite Z.eqb_refl. reflexivity. Qed.

Lemma store_other (buffers : Z -> list wchar_t) (p k : Z) (content : list wchar_t) :
  k <> p -> store buffers p content k = buffers k.
Proof. intros H. unfold store. apply Z.eqb_neq in H. rewrite H. reflexivity. Qed.

Lemma run_conversion_returns (PATH_MAX : Z)
    (MultiByteToWideChar : string -> Z -> option (list wchar_t))
    (c : conversion) (st st' : conv_state) (p : Z) :
  run_conversion PATH_MAX MultiByteToWideChar c st = Returns (p, st') ->
  p = roll (conv_utf16 st) /\
  conv_utf16 st' = p /\
  forall k, k <> p -> conv_utf16_buffer st' k = conv_utf16_buffer st k.
Proof.
  destruct c as [src|src]; cbn [run_conversion]; intros H.
  - destruct (convert_returns _ _ _ _ _ _ H) as (ws & _ & Hp & Hi & Hb).
    split; [exact Hp|]. split; [exact Hi|].
    intros k Hk. rewrite Hb. apply store_other. exact Hk.
  - destruct (u8tou16_returns _ _ _ _ _ _ H) as (ws & _ & Hp & Hi & Hb).
    split; [exact Hp|]. split; [exact Hi|].
    intros k Hk. rewrite Hb. apply store_other. exact Hk.
Qed.

Lemma roll_cases (index : Z) :
  0 <= index < CONV_ROLL ->
  (index = 0 /\ roll index = 1) \/ (index = 1 /\ roll index = 2) \/
  (index = 2 /\ roll index = 3) \/ (index = 3 /\ roll index = 0).
Proof.
  unfold CONV_ROLL. intros H.
  assert (Hc : index = 0 \/ index = 1 \/ index = 2 \/ index = 3) by lia.
  destruct Hc as [ -> | [ -> | [ -> | -> ]]]; vm_compute; tauto.
Qed.

Lemma roll_range (index : Z) :
  0 <= index < CONV_ROLL -> 0 <= roll index < CONV_ROLL.
Proof.
  intros H. unfold CONV_ROLL.
  destruct (roll_cases index H) as [[_ ->]|[[_ ->]|[[_ ->]|[_ ->]]]]; lia.
Qed.

Lemma roll_differs (index : Z) : roll index <> index.
Proof.
  unfold roll, wrap32, CONV_ROLL.
  destruct ((index + 1) mod 2 ^ 32 =? 4) eqn:H.
  - apply Z.eqb_eq in H. intros <-. 
    rewrite Z.mod_small in H by lia. discriminate H.
  - intros Heq.
    pose proof (Z.mod_pos_bound (index + 1) (2 ^ 32) ltac:(lia)) as Hb.
    assert (Hsmall : 0 <= index < 2 ^ 32) by lia.
    destruct (Z.eq_dec index (2 ^ 32 - 1)) as [->|Hne].
    + vm_compute in Heq. discriminate Heq.
    + rewrite Z.mod_small in Heq by lia. lia.
Qed.

(** X12.  A call of [convert] that returns leaves in the buffer it returns
    the prefix chosen from the first characters of the name ([\\?\UNC\] for a
    name that starts with two backslashes, [\\?\] for a disk designator,
    nothing otherwise) followed by what [MultiByteToWideChar] made of the
    name, with every [/] replaced by [\]; the string holds no [/], also where
    the conversion of Windows gave one. *)
Theorem convert_names (PATH_MAX : Z)
    (MultiByteToWideChar : string -> Z -> option (list wchar_t))
    (src : string) (st st' : conv_state) (p : Z) :
  convert PATH_MAX MultiByteToWideChar src st = Returns (p, st') ->
  exists ws,
    MultiByteToWideChar (snd (convert_prefix src))
      (PATH_MAX - Z.of_nat (List.length (fst (convert_prefix src)))) = Some ws /\
    wcs (conv_utf16_buffer st' p)
    = fst (convert_prefix src) ++ map to_backslash (wcs ws) /\
    ~ In (L slash) (wcs (conv_utf16_buffer st' p)).
Proof.
  intros H.
  destruct (convert_returns _ _ _ _ _ _ H) as (ws & Hws & _ & _ & Hb).
  destruct (convert_prefix_plain src) as (Hnz & Hns & _).
  assert (Hwcs : wcs (conv_utf16_buffer st' p)
                 = fst (convert_prefix src) ++ map to_backslash (wcs ws)).
  { rewrite Hb, store_same, wcs_app by exact Hnz.
    rewrite wcs_slash_loop, wcs_app_terminator. reflexivity. }
  exists ws. split; [exact Hws|]. split; [exact Hwcs|].
  rewrite Hwcs. intros Hin. apply in_app_or in Hin.
  destruct Hin as [Hin|Hin]; [exact (Hns Hin)|].
  exact (to_backslash_no_slash _ Hin).
Qed.

(** The theorem for the name [C:/data/a.txt], converted first in the
    process with buffers of 260 units. *)
Lemma convert_names_witness :
  exists ws,
    ascii_to_wide (snd (convert_prefix "C:/data/a.txt"))
      (260 - Z.of_nat (List.length (fst (convert_prefix "C:/data/a.txt"))))
      = Some ws /\
    wcs (conv_utf16_buffer
           (mk_conv 1
              (store (conv_utf16_buffer conv_init) 1
                 (map L (list_ascii_of_string "\\?\C:\data\a.txt") ++ [0]))) 1)
    = fst (convert_prefix "C:/data/a.txt") ++ map to_backslash (wcs ws) /\
    ~ In (L slash)
        (wcs (conv_utf16_buffer
                (mk_conv 1
                   (store (conv_utf16_buffer conv_init) 1
                      (map L (list_ascii_of_string "\\?\C:\data\a.txt") ++ [0]))) 1)).
Proof.
  apply (convert_names 260 ascii_to_wide "C:/data/a.txt" conv_init).
  reflexivity.
Defined.

(** X13.  The buffers of the conversions to UTF-16 are used in turn.  From a
    state whose index is in range, a conversion returns a buffer in range;
    the up to [CONV_ROLL - 1] conversions that follow return other buffers
    and leave the buffer as it is; the conversion after [CONV_ROLL - 1]
    others returns the same buffer again. *)
Theorem conversion_buffers_roll (PATH_MAX : Z)
    (MultiByteToWideChar : string -> Z -> option (list wchar_t))
    (c : conversion) (cs : list conversion)
    (st0 st1 st2 : conv_state) (p : Z) (ps : list Z) :
  0 <= conv_utf16 st0 < CONV_ROLL ->
  run_conversion PATH_MAX MultiByteToWideChar c st0 = Returns (p, st1) ->
  run_conversions PATH_MAX MultiByteToWideChar cs st1 = Returns (ps, st2) ->
  0 <= p < CONV_ROLL /\
  (Z.of_nat (List.length cs) < CONV_ROLL ->
   ~ In p ps /\ conv_utf16_buffer st2 p = conv_utf16_buffer st1 p) /\
  (Z.of_nat (List.length cs) = CONV_ROLL - 1 ->
   forall c' p' st3,
     run_conversion PATH_MAX MultiByteToWideChar c' st2 = Returns (p', st3) ->
     p' = p).
Proof.
  intros Hrange Hc Hcs.
  destruct (run_conversion_returns _ _ _ _ _ _ Hc) as (Hp & Hi & _).
  assert (Hpr : 0 <= p < CONV_ROLL) by (rewrite Hp; apply roll_range; exact Hrange).
  split; [exact Hpr|].
  assert (Hstep : forall c st st' q,
             run_conversion PATH_MAX MultiByteToWideChar c st = Returns (q, st') ->
             q = roll (conv_utf16 st) /\ conv_utf16 st' = q /\
             forall k, k <> q -> conv_utf16_buffer st' k = conv_utf16_buffer st k).
  { intros. eapply run_conversion_returns. eassumption. }
  unfold CONV_ROLL in *.
  destruct cs as [|c1 [|c2 [|c3 [|c4 cs]]]]; cbn [List.length run_conversions] in *.
  - injection Hcs as <- <-. split; [intros _; split; [simpl; tauto|reflexivity]|].
    intros Hlen. lia.
  - destruct (run_conversion _ _ c1 st1) as [[p1 s1]|] eqn:H1; [|discriminate].
    injection Hcs as <- <-.
    destruct (Hstep _ _ _ _ H1) as (E1 & I1 & B1). rewrite Hi in E1.
    destruct (roll_cases p Hpr) as [[Hp0 R1]|[[Hp0 R1]|[[Hp0 R1]|[Hp0 R1]]]];
      rewrite R1 in E1; subst p1.
    all: split; [intros _; split;
                 [intros [Hin|[]]; lia | apply B1; lia]
                | intros Hlen; lia].
  - destruct (run_conversion _ _ c1 st1) as [[p1 s1]|] eqn:H1; [|discriminate].
    destruct (run_conversion _ _ c2 s1) as [[p2 s2]|] eqn:H2; [|discriminate].
    injection Hcs as <- <-.
    destruct (Hstep _ _ _ _ H1) as (E1 & I1 & B1). rewrite Hi in E1.
    destruct (Hstep _ _ _ _ H2) as (E2 & I2 & B2). rewrite I1 in E2.
    destruct (roll_cases p Hpr) as [[Hp0 R1]|[[Hp0 R1]|[[Hp0 R1]|[Hp0 R1]]]];
      rewrite R1 in E1; subst p1;
      [ change (roll 1) with 2 in E2 | change (roll 2) with 3 in E2
      | change (roll 3) with 0 in E2 | change (roll 0) with 1 in E2 ]; subst p2.
    all: split; [intros _; split;
                 [intros [Hin|[Hin|[]]]; lia
                 | rewrite B2 by lia; apply B1; lia]
                | intros Hlen; lia].
  - destruct (run_conversion _ _ c1 st1) as [[p1 s1]|] eqn:H1; [|discriminate].
    destruct (run_conversion _ _ c2 s1) as [[p2 s2]|] eqn:H2; [|discriminate].
    destruct (run_conversion _ _ c3 s2) as [[p3 s3]|] eqn:H3; [|discriminate].
    injection Hcs as <- <-.
    destruct (Hstep _ _ _ _ H1) as (E1 & I1 & B1). rewrite Hi in E1.
    destruct (Hstep _ _ _ _ H2) as (E2 & I2 & B2). rewrite I1 in E2.
    destruct (Hstep _ _ _ _ H3) as (E3 & I3 & B3). rewrite I2 in E3.
    destruct (roll_cases p Hpr) as [[Hp0 R1]|[[Hp0 R1]|[[Hp0 R1]|[Hp0 R1]]]];
      rewrite R1 in E1; subst p1;
      [ change (roll 1) with 2 in E2 | change (roll 2) with 3 in E2
      | change (roll 3) with 0 in E2 | change (roll 0) with 1 in E2 ]; subst p2;
      [ change (roll 2) with 3 in E3 | change (roll 3) with 0 in E3
      | change (roll 0) with 1 in E3 | change (roll 1) with 2 in E3 ]; subst p3.
    all: split; [intros _; split;
                 [intros [Hin|[Hin|[Hin|[]]]]; lia
                 | rewrite B3 by lia; rewrite B2 by lia; apply B1; lia]
                |].
    all: intros _ c' p' st3 H4;
      destruct (Hstep _ _ _ _ H4) as (E4 & _ & _); rewrite I3 in E4;
      rewrite E4, Hp0; reflexivity.
  - split; [intros Hlen; lia|intros Hlen; lia].
Qed.

(** The theorem for the first five conversions of a process. *)
Lemma conversion_buffers_roll_witness :
  0 <= 1 < CONV_ROLL /\
  (Z.of_nat (List.length [U8tou16 "a"; Convert "b"; U8tou16 "c"]) < CONV_ROLL ->
   ~ In 1 [2; 3; 0] /\
   conv_utf16_buffer
     (snd (match run_conversions 260 ascii_to_wide
                   [Convert "C:/x"; U8tou16 "a"; Convert "b"; U8tou16 "c"] conv_init
           with Returns r => r | Exits _ => ([], conv_init) end)) 1
   = conv_utf16_buffer
       (snd (match run_conversions 260 ascii_to_wide [Convert "C:/x"] conv_init
             with Returns r => r | Exits _ => ([], conv_init) end)) 1) /\
  (Z.of_nat (List.length [U8tou16 "a"; Convert "b"; U8tou16 "c"]) = CONV_ROLL - 1 ->
   forall c' p' st3,
     run_conversion 260 ascii_to_wide c'
       (snd (match run_conversions 260 ascii_to_wide
                     [Convert "C:/x"; U8tou16 "a"; Convert "b"; U8tou16 "c"] conv_init
             with Returns r => r | Exits _ => ([], conv_init) end))
     = Returns (p', st3) ->
     p' = 1).
Proof.
  apply (conversion_buffers_roll 260 ascii_to_wide (Convert "C:/x")
           [U8tou16 "a"; Convert "b"; U8tou16 "c"] conv_init).
  - unfold CONV_ROLL. simpl. lia.
  - reflexivity.
  - reflexivity.
Defined.

(** X14.  Where [MultiByteToWideChar] writes no more units than the size it
    is given, a conversion writes no more than [PATH_MAX] units to its
    buffer, the prefix of [convert] and the terminator included: [convert]
    passes the size that is left after its prefix. *)
Theorem conversions_fit_buffer (PATH_MAX : Z)
    (MultiByteToWideChar : string -> Z -> option (list wchar_t))
    (c : conversion) (st st' : conv_state) (p : Z) :
  (forall src size ws,
     MultiByteToWideChar src size = Some ws ->
     Z.of_nat (List.length ws) + 1 <= size) ->
  run_conversion PATH_MAX MultiByteToWideChar c st = Returns (p, st') ->
  Z.of_nat (List.length (conv_utf16_buffer st' p)) <= PATH_MAX /\
  exists content, conv_utf16_buffer st' p = content ++ [0].
Proof.
  intros Hapi H.
  assert (Hloop : forall ws, exists content,
             slash_loop (ws ++ [0]) = content ++ [0] /\
             List.length content = List.length ws).
  { induction ws as [|w ws (content & IH & Hlen)].
    - exists []. split; reflexivity.
    - cbn [app slash_loop]. destruct (w =? 0) eqn:Hw.
      + exists (w :: ws). split; reflexivity.
      + exists ((if w =? L slash then L backslash else w) :: content).
        rewrite IH. split; [reflexivity|]. simpl. rewrite Hlen. reflexivity. }
  destruct c as [src|src]; cbn [run_conversion] in H.
  - destruct (convert_returns _ _ _ _ _ _ H) as (ws & Hws & _ & _ & Hb).
    rewrite Hb, store_same. apply Hapi in Hws.
    destruct (Hloop ws) as (content & -> & Hlen). split.
    + rewrite !length_app. cbn [List.length]. lia.
    + exists (fst (convert_prefix src) ++ content). rewrite app_assoc. reflexivity.
  - destruct (u8tou16_returns _ _ _ _ _ _ H) as (ws & Hws & _ & _ & Hb).
    rewrite Hb, store_same. apply Hapi in Hws. split.
    + rewrite length_app. cbn [List.length]. lia.
    + exists ws. reflexivity.
Qed.

(** The theorem for a name with a disk designator. *)
Lemma conversions_fit_buffer_witness :
  Z.of_nat (List.length
              (conv_utf16_buffer
                 (mk_conv 1
                    (store (conv_utf16_buffer conv_init) 1
                       (map L (list_ascii_of_string "\\?\C:\x") ++ [0]))) 1))
  <= 260 /\
  exists content,
    conv_utf16_buffer
      (mk_conv 1
         (store (conv_utf16_buffer conv_init) 1
            (map L (list_ascii_of_string "\\?\C:\x") ++ [0]))) 1
    = content ++ [0].
Proof.
  apply (conversions_fit_buffer 260 ascii_to_wide (Convert "C:/x") conv_init).
  - intros src size ws. unfold ascii_to_wide.
    destruct (Z.of_nat (String.length src) + 1 <=? size) eqn:Hfit; [|discriminate].
    intros Hws. injection Hws as <-. apply Z.leb_le in Hfit.
    rewrite length_map.
    assert (Hlen : forall s, List.length (list_ascii_of_string s) = String.length s).
    { induction s as [|a s IH]; [reflexivity|]. simpl. rewrite IH. reflexivity. }
    rewrite Hlen. exact Hfit.
  - reflexivity.
Defined.

(** X15.  [windows_rename] passes both names intact to [MoveFileExW], in
    whichever order the compiler evaluates the two conversions: the old name
    as [convert] gives it, the new name as [MultiByteToWideChar] gives it,
    without a prefix and with its [/] kept. *)
Theorem windows_rename_names_intact (PATH_MAX : Z)
    (MultiByteToWideChar : string -> Z -> option (list wchar_t))
    (convert_first : bool) (a b : string) (st : conv_state)
    (wa wb : list wchar_t) :
  MultiByteToWideChar (snd (convert_prefix a))
    (PATH_MAX - Z.of_nat (List.length (fst (convert_prefix a)))) = Some wa ->
  MultiByteToWideChar b PATH_MAX = Some wb ->
  exists st',
    windows_rename_names PATH_MAX MultiByteToWideChar convert_first a b st
    = Returns (fst (convert_prefix a) ++ map to_backslash (wcs wa), wcs wb, st').
Proof.
  intros Ha Hb.
  destruct (convert_prefix_plain a) as (Hnz & _ & _).
  assert (Hca : forall s, convert PATH_MAX MultiByteToWideChar a s
                = Returns (roll (conv_utf16 s),
                           mk_conv (roll (conv_utf16 s))
                             (store (conv_utf16_buffer s) (roll (conv_utf16 s))
                                (fst (convert_prefix a) ++ slash_loop (wa ++ [0]))))).
  { intros s. unfold convert. destruct (convert_prefix a) as [dst src'].
    cbn [fst snd] in *. rewrite Ha. reflexivity. }
  assert (Hcb : forall s, u8tou16 PATH_MAX MultiByteToWideChar b s
                = Returns (roll (conv_utf16 s),
                           mk_conv (roll (conv_utf16 s))
                             (store (conv_utf16_buffer s) (roll (conv_utf16 s))
                                (wb ++ [0])))).
  { intros s. unfold u8tou16. rewrite Hb. reflexivity. }
  unfold windows_rename_names. destruct convert_first.
  - rewrite Hca, Hcb. cbn [conv_utf16 conv_utf16_buffer].
    eexists. f_equal. f_equal. f_equal.
    + rewrite store_other by (intros E; exact (roll_differs _ (eq_sym E))).
      rewrite store_same, wcs_app by exact Hnz.
      rewrite wcs_slash_loop, wcs_app_terminator. reflexivity.
    + rewrite store_same, wcs_app_terminator. reflexivity.
  - rewrite Hcb, Hca. cbn [conv_utf16 conv_utf16_buffer].
    eexists. f_equal. f_equal. f_equal.
    + rewrite store_same, wcs_app by exact Hnz.
      rewrite wcs_slash_loop, wcs_app_terminator. reflexivity.
    + rewrite store_other by (intros E; exact (roll_differs _ (eq_sym E))).
      rewrite store_same, wcs_app_terminator. reflexivity.
Qed.

(** The theorem for the renaming of [C:/a/x.tmp] to [C:/a/x]. *)
Lemma windows_rename_names_intact_witness :
  exists st',
    windows_rename_names 260 ascii_to_wide false "C:/a/x.tmp" "C:/a/x" conv_init
    = Returns (fst (convert_prefix "C:/a/x.tmp")
               ++ map to_backslash
                    (wcs (map L (list_ascii_of_string "C:/a/x.tmp"))),
               wcs (map L (list_ascii_of_string "C:/a/x")), st').
Proof.
  apply (windows_rename_names_intact 260 ascii_to_wide false
           "C:/a/x.tmp" "C:/a/x" conv_init); reflexivity.
Defined.

(** ** Times and sizes ([mingw.c]) *)

Lemma shiftl_lor_add (high low : Z) :
  0 <= low < 2 ^ 32 ->
  Z.lor (Z.shiftl high 32) low = high * 2 ^ 32 + low.
Proof.
  intros Hlow.
  assert (Hland : Z.land (Z.shiftl high 32) low = 0).
  { apply Z.bits_inj'. intros n Hn. rewrite Z.land_spec, Z.bits_0.
    destruct (Z_lt_le_dec n 32) as [Hlt|Hge].
    - rewrite Z.shiftl_spec_low by exact Hlt. reflexivity.
    - destruct (Z.eq_dec low 0) as [->|Hnz].
      + rewrite Z.bits_0. apply andb_false_r.
      + rewrite (Z.bits_above_log2 low n); [apply andb_false_r|lia|].
        apply Z.log2_lt_pow2; [lia|].
        apply Z.lt_le_trans with (2 ^ 32); [lia|].
        apply Z.pow_le_mono_r; lia. }
  pose proof (Z.add_lor_land (Z.shiftl high 32) low) as Hadd.
  rewrite Hland, Z.shiftl_mul_pow2 in Hadd by lia.
  rewrite Z.shiftl_mul_pow2 by lia. lia.
Qed.

Lemma shift_or_value (high low : Z) :
  0 <= high < 2 ^ 31 -> 0 <= low < 2 ^ 32 ->
  shift_or high low = Some (high * 2 ^ 32 + low).
Proof.
  intros Hhigh Hlow. unfold shift_or.
  rewrite shiftl_lor_add by exact Hlow.
  rewrite Z.shiftl_mul_pow2 by lia.
  destruct (high * 2 ^ 32 <=? 2 ^ 63 - 1) eqn:Hle; [reflexivity|].
  apply Z.leb_gt in Hle. lia.
Qed.

Lemma shift_or_undefined (high low : Z) :
  2 ^ 31 <= high -> shift_or high low = None.
Proof.
  intros Hhigh. unfold shift_or. rewrite Z.shiftl_mul_pow2 by lia.
  destruct (high * 2 ^ 32 <=? 2 ^ 63 - 1) eqn:Hle; [|reflexivity].
  apply Z.leb_le in Hle. lia.
Qed.

(** The time of Windows that [windows_futimes] computes for a time of Unix
    from 1970 to the end of [long]. *)
Lemma futimes_filetime_value (tv0 : timeval) :
  0 <= tv_sec tv0 <= LONG_MAX -> 0 <= tv_usec tv0 < 1000000 ->
  exists ft,
    futimes_filetime tv0 = Some ft /\
    0 <= dwLowDateTime ft < 2 ^ 32 /\
    0 <= dwHighDateTime ft < 2 ^ 31 /\
    dwHighDateTime ft * 2 ^ 32 + dwLowDateTime ft
    = tv_sec tv0 * 10000000 + tv_usec tv0 * 10 + FILETIME_EPOCH.
Proof.
  unfold LONG_MAX. intros Hsec Husec. unfold futimes_filetime.
  assert (Hrange : (LONG_MIN <=? tv_usec tv0 * 10) && (tv_usec tv0 * 10 <=? LONG_MAX)
                   = true).
  { unfold LONG_MIN, LONG_MAX. apply andb_true_intro. split; apply Z.leb_le; lia. }
  rewrite Hrange. cbv zeta. unfold wrap64, wrap32, FILETIME_EPOCH.
  rewrite (Z.mod_small (tv_sec tv0)) by lia.
  rewrite (Z.mod_small (tv_sec tv0 * 10000000)) by lia.
  rewrite (Z.mod_small (tv_sec tv0 * 10000000 + tv_usec tv0 * 10)) by lia.
  rewrite (Z.mod_small (_ + 116444736000000000)) by lia.
  set (v := tv_sec tv0 * 10000000 + tv_usec tv0 * 10 + 116444736000000000).
  assert (Hv : 0 <= v < 2 ^ 63) by (unfold v; lia).
  eexists. split; [reflexivity|]. cbn [dwLowDateTime dwHighDateTime].
  rewrite Z.shiftr_div_pow2 by lia.
  assert (Hq : 0 <= v / 2 ^ 32 < 2 ^ 31).
  { split; [apply Z.div_pos; lia|]. apply Z.div_lt_upper_bound; lia. }
  rewrite (Z.mod_small (v / 2 ^ 32)) by lia.
  split; [apply Z.mod_pos_bound; lia|]. split; [exact Hq|].
  pose proof (Z.div_mod v (2 ^ 32) ltac:(lia)). lia.
Qed.

Lemma unix_time_of_filetime (sec usec : Z) :
  0 <= sec -> 0 <= usec < 1000000 ->
  unix_time (sec * 10000000 + usec * 10 + FILETIME_EPOCH) = sec.
Proof.
  intros Hsec Husec. unfold unix_time.
  replace (sec * 10000000 + usec * 10 + FILETIME_EPOCH - FILETIME_EPOCH)
    with (usec * 10 + sec * 10000000) by lia.
  rewrite Z.quot_div_nonneg by lia.
  rewrite Z.div_add by lia. rewrite Z.div_small by lia. lia.
Qed.

(** X16.  A time that [windows_futimes] sets is the time that the
    conversions to [struct windows_stat] read back, for the times of Unix
    from 1970 to the end of [long]: the time of Windows is
    [tv_sec * 10^7 + tv_usec * 10 + 116444736000000000] split in two halves of
    32 bits, and both [windows_info2stat] and [windows_finddata2stat] give
    [st_mtime = tv_sec] for it, the microseconds dropped. *)
Theorem futimes_stat_round_trip
    (FILE_ATTRIBUTE_DEVICE FILE_ATTRIBUTE_SYSTEM FILE_ATTRIBUTE_REPARSE_POINT
     FILE_ATTRIBUTE_OFFLINE FILE_ATTRIBUTE_TEMPORARY FILE_ATTRIBUTE_DIRECTORY
     FILE_ATTRIBUTE_HIDDEN : Z) (tv0 : timeval) :
  0 <= tv_sec tv0 <= LONG_MAX -> 0 <= tv_usec tv0 < 1000000 ->
  exists ft,
    futimes_filetime tv0 = Some ft /\
    dwHighDateTime ft * 2 ^ 32 + dwLowDateTime ft
    = tv_sec tv0 * 10000000 + tv_usec tv0 * 10 + FILETIME_EPOCH /\
    (forall info,
       ftLastWriteTime info = ft ->
       0 <= nFileSizeHigh info < 2 ^ 31 -> 0 <= nFileSizeLow info < 2 ^ 32 ->
       exists st,
         windows_info2stat FILE_ATTRIBUTE_DEVICE FILE_ATTRIBUTE_SYSTEM
           FILE_ATTRIBUTE_REPARSE_POINT FILE_ATTRIBUTE_OFFLINE
           FILE_ATTRIBUTE_TEMPORARY FILE_ATTRIBUTE_DIRECTORY
           FILE_ATTRIBUTE_HIDDEN info = Some st /\
         st_mtime st = tv_sec tv0) /\
    (forall info,
       fd_ftLastWriteTime info = ft ->
       0 <= fd_nFileSizeHigh info < 2 ^ 31 -> 0 <= fd_nFileSizeLow info < 2 ^ 32 ->
       exists st,
         windows_finddata2stat FILE_ATTRIBUTE_DEVICE FILE_ATTRIBUTE_SYSTEM
           FILE_ATTRIBUTE_REPARSE_POINT FILE_ATTRIBUTE_OFFLINE
           FILE_ATTRIBUTE_TEMPORARY FILE_ATTRIBUTE_DIRECTORY
           FILE_ATTRIBUTE_HIDDEN info = Some st /\
         st_mtime st = tv_sec tv0).
Proof.
  intros Hsec Husec.
  destruct (futimes_filetime_value tv0 Hsec Husec) as (ft & Hft & Hlow & Hhigh & Hv).
  exists ft. split; [exact Hft|]. split; [exact Hv|]. split.
  - intros info Hinfo Hsh Hsl. unfold windows_info2stat.
    destruct (special_attributes _ _ _ _ _ _ _) as [mode desc].
    rewrite (shift_or_value _ _ Hsh Hsl), bind_some.
    rewrite Hinfo, (shift_or_value _ _ Hhigh Hlow), bind_some.
    eexists. split; [reflexivity|]. cbn [st_mtime].
    rewrite Hv. apply unix_time_of_filetime; lia.
  - intros info Hinfo Hsh Hsl. unfold windows_finddata2stat.
    destruct (special_attributes _ _ _ _ _ _ _) as [mode desc].
    rewrite (shift_or_value _ _ Hsh Hsl), bind_some.
    rewrite Hinfo, (shift_or_value _ _ Hhigh Hlow), bind_some.
    eexists. split; [reflexivity|]. cbn [st_mtime].
    rewrite Hv. apply unix_time_of_filetime; lia.
Qed.

(** The theorem for the first second of 2001 and half a second more. *)
Lemma futimes_stat_round_trip_witness :
  exists ft,
    futimes_filetime (mk_timeval 978307200 500000) = Some ft /\
    dwHighDateTime ft * 2 ^ 32 + dwLowDateTime ft
    = tv_sec (mk_timeval 978307200 500000) * 10000000
      + tv_usec (mk_timeval 978307200 500000) * 10 + FILETIME_EPOCH /\
    (forall info,
       ftLastWriteTime info = ft ->
       0 <= nFileSizeHigh info < 2 ^ 31 -> 0 <= nFileSizeLow info < 2 ^ 32 ->
       exists st,
         windows_info2stat 64 4 1024 4096 256 16 2 info = Some st /\
         st_mtime st = tv_sec (mk_timeval 978307200 500000)) /\
    (forall info,
       fd_ftLastWriteTime info = ft ->
       0 <= fd_nFileSizeHigh info < 2 ^ 31 -> 0 <= fd_nFileSizeLow info < 2 ^ 32 ->
       exists st,
         windows_finddata2stat 64 4 1024 4096 256 16 2 info = Some st /\
         st_mtime st = tv_sec (mk_timeval 978307200 500000)).
Proof.
  apply (futimes_stat_round_trip 64 4 1024 4096 256 16 2
           (mk_timeval 978307200 500000));
    unfold LONG_MAX; simpl; lia.
Defined.

(** X17.  The conversions to [struct windows_stat] put the two halves of a
    size together without loss: for a size below 2^63 and a time below 2^63,
    [st_size] is [nFileSizeHigh * 2^32 + nFileSizeLow], so that files of 4 GiB
    and more have their full size, and [st_ino] of [windows_info2stat] is
    [nFileIndexHigh * 2^32 + nFileIndexLow]; [windows_finddata2stat] gives the
    same type, description, hidden flag, size and time, and 0 for the inode,
    the links and the device. *)
Theorem stat_halves_combined
    (FILE_ATTRIBUTE_DEVICE FILE_ATTRIBUTE_SYSTEM FILE_ATTRIBUTE_REPARSE_POINT
     FILE_ATTRIBUTE_OFFLINE FILE_ATTRIBUTE_TEMPORARY FILE_ATTRIBUTE_DIRECTORY
     FILE_ATTRIBUTE_HIDDEN : Z) (info : BY_HANDLE_FILE_INFORMATION)
    (name : list wchar_t) :
  0 <= nFileSizeHigh info < 2 ^ 31 -> 0 <= nFileSizeLow info < 2 ^ 32 ->
  0 <= dwHighDateTime (ftLastWriteTime info) < 2 ^ 31 ->
  0 <= dwLowDateTime (ftLastWriteTime info) < 2 ^ 32 ->
  0 <= nFileIndexHigh info < 2 ^ 32 -> 0 <= nFileIndexLow info < 2 ^ 32 ->
  exists st,
    windows_info2stat FILE_ATTRIBUTE_DEVICE FILE_ATTRIBUTE_SYSTEM
      FILE_ATTRIBUTE_REPARSE_POINT FILE_ATTRIBUTE_OFFLINE
      FILE_ATTRIBUTE_TEMPORARY FILE_ATTRIBUTE_DIRECTORY
      FILE_ATTRIBUTE_HIDDEN info = Some st /\
    st_size st = nFileSizeHigh info * 2 ^ 32 + nFileSizeLow info /\
    st_ino st = nFileIndexHigh info * 2 ^ 32 + nFileIndexLow info /\
    windows_finddata2stat FILE_ATTRIBUTE_DEVICE FILE_ATTRIBUTE_SYSTEM
      FILE_ATTRIBUTE_REPARSE_POINT FILE_ATTRIBUTE_OFFLINE
      FILE_ATTRIBUTE_TEMPORARY FILE_ATTRIBUTE_DIRECTORY
      FILE_ATTRIBUTE_HIDDEN
      (mk_finddata (dwFileAttributes info) (ftLastWriteTime info)
         (nFileSizeHigh info) (nFileSizeLow info) name)
    = Some (mk_stat (st_mode st) (st_desc st) (st_hidden st) (st_size st)
              (st_mtime st) 0 0 0).
Proof.
  intros Hsh Hsl Hth Htl Hih Hil.
  unfold windows_info2stat, windows_finddata2stat.
  cbn [fd_dwFileAttributes fd_ftLastWriteTime fd_nFileSizeHigh fd_nFileSizeLow].
  destruct (special_attributes _ _ _ _ _ _ _) as [mode desc].
  rewrite (shift_or_value _ _ Hsh Hsl), !bind_some.
  rewrite (shift_or_value _ _ Hth Htl), !bind_some.
  eexists. split; [reflexivity|].
  cbn [st_size st_ino st_mode st_desc st_hidden st_mtime].
  split; [reflexivity|]. split; [|reflexivity].
  unfold wrap64. rewrite <- (shiftl_lor_add _ _ Hil).
  f_equal. apply Z.mod_small. rewrite Z.shiftl_mul_pow2 by lia. lia.
Qed.

(** The theorem for a file of 5 GiB. *)
Lemma stat_halves_combined_witness :
  exists st,
    windows_info2stat 64 4 1024 4096 256 16 2
      (mk_info 32 (mk_filetime 3577643008 29389701) 7 1 1073741824 1 65536 42)
    = Some st /\
    st_size st = 1 * 2 ^ 32 + 1073741824 /\
    st_ino st = 65536 * 2 ^ 32 + 42 /\
    windows_finddata2stat 64 4 1024 4096 256 16 2
      (mk_finddata 32 (mk_filetime 3577643008 29389701) 1 1073741824
         (map L (list_ascii_of_string "big.iso")))
    = Some (mk_stat (st_mode st) (st_desc st) (st_hidden st) (st_size st)
              (st_mtime st) 0 0 0).
Proof.
  apply (stat_halves_combined 64 4 1024 4096 256 16 2
           (mk_info 32 (mk_filetime 3577643008 29389701) 7 1 1073741824 1 65536 42)
           (map L (list_ascii_of_string "big.iso")));
    simpl; lia.
Defined.

(** ** Directories ([mingw.c]) *)

Section DirectoryFacts.

Variables PATH_MAX D_NAME_SIZE : Z.
Variables ERROR_INVALID_HANDLE ERROR_FILE_NOT_FOUND ERROR_ACCESS_DENIED
          ERROR_BUFFER_OVERFLOW ERROR_NOT_ENOUGH_MEMORY ERROR_NO_MORE_FILES : Z.
Variables EBADF ENOENT EACCES ENAMETOOLONG ENOMEM EIO : Z.
Variable MultiByteToWideChar : string -> Z -> option (list wchar_t).
Variable WideCharToMultiByte : list wchar_t -> Z -> string -> Z * string.
Variable narrow : list wchar_t -> string.
Variable W : Type.
Variable malloc : W -> bool * W.
Variable FindFirstFileW : list wchar_t -> W -> (Z * WIN32_FIND_DATAW + Z) * W.
Variable FindNextFileW : option Z -> W -> (WIN32_FIND_DATAW + Z) * W.
Variable FindClose : Z -> W -> option Z * W.

Local Abbreviation finddata2dirent :=
  (windows_finddata2dirent PATH_MAX D_NAME_SIZE WideCharToMultiByte narrow).
Local Abbreviation opendir_with FirstFile :=
  (windows_opendir PATH_MAX D_NAME_SIZE ERROR_INVALID_HANDLE ERROR_FILE_NOT_FOUND
     ERROR_ACCESS_DENIED ERROR_BUFFER_OVERFLOW ERROR_NOT_ENOUGH_MEMORY
     EBADF ENOENT EACCES ENAMETOOLONG ENOMEM EIO
     MultiByteToWideChar WideCharToMultiByte narrow W malloc FirstFile).
Local Abbreviation opendir := (opendir_with FindFirstFileW).
Local Abbreviation readdir :=
  (windows_readdir PATH_MAX D_NAME_SIZE ERROR_INVALID_HANDLE ERROR_FILE_NOT_FOUND
     ERROR_ACCESS_DENIED ERROR_BUFFER_OVERFLOW ERROR_NOT_ENOUGH_MEMORY
     ERROR_NO_MORE_FILES EBADF ENOENT EACCES ENAMETOOLONG ENOMEM EIO
     WideCharToMultiByte narrow W FindNextFileW).
Local Abbreviation closedir :=
  (windows_closedir ERROR_INVALID_HANDLE ERROR_FILE_NOT_FOUND
     ERROR_ACCESS_DENIED ERROR_BUFFER_OVERFLOW ERROR_NOT_ENOUGH_MEMORY
     EBADF ENOENT EACCES ENAMETOOLONG ENOMEM EIO W FindClose).
Local Abbreviation entries :=
  (read_entries PATH_MAX D_NAME_SIZE ERROR_INVALID_HANDLE ERROR_FILE_NOT_FOUND
     ERROR_ACCESS_DENIED ERROR_BUFFER_OVERFLOW ERROR_NOT_ENOUGH_MEMORY
     ERROR_NO_MORE_FILES EBADF ENOENT EACCES ENAMETOOLONG ENOMEM EIO
     WideCharToMultiByte narrow W FindNextFileW).

Local Abbreviation converts :=
  (converts PATH_MAX D_NAME_SIZE WideCharToMultiByte).

Lemma finddata2dirent_converts (found : WIN32_FIND_DATAW) (name : string)
    (st : conv8_state) :
  converts found name ->
  exists st', finddata2dirent found st = Returns (mk_dirent name, st').
Proof.
  intros [Hconv Hfits]. unfold windows_finddata2dirent, u16tou8.
  destruct (Hconv (conv_utf8_buffer st (roll (conv_utf8 st)))) as (ret & Hret & ->).
  assert (Hneg : (ret <? 0) = false) by (apply Z.ltb_ge; exact Hret).
  rewrite Hneg. cbn [conv_utf8_buffer]. unfold store8. rewrite Z.eqb_refl.
  assert (Hlong : (Z.of_nat (String.length name) + 1 >=? D_NAME_SIZE) = false).
  { rewrite Z.geb_leb. apply Z.leb_gt. exact Hfits. }
  rewrite Hlong. eexists. reflexivity.
Qed.

Lemma finddata2dirent_returns (found : WIN32_FIND_DATAW) (first : windows_dirent)
    (st st' : conv8_state) :
  finddata2dirent found st = Returns (first, st') ->
  exists ret,
    WideCharToMultiByte (cFileName found) PATH_MAX
      (conv_utf8_buffer st (roll (conv_utf8 st))) = (ret, d_name first).
Proof.
  unfold windows_finddata2dirent, u16tou8.
  destruct (WideCharToMultiByte _ _ _) as [ret content].
  destruct (ret <? 0); [discriminate|].
  cbn [conv_utf8_buffer]. unfold store8. rewrite Z.eqb_refl.
  destruct (_ >=? _); [discriminate|].
  intros H. injection H as <- _. exists ret. reflexivity.
Qed.

(** The streams that [windows_opendir] returns. *)
Lemma opendir_returns (dir : string) (p p1 : process W) (dirstream : windows_dir) :
  opendir dir p = Some (Returns (Some dirstream, p1)) ->
  dirstream = mk_dir None (-1) None None \/
  exists handle found first st st',
    dirstream = mk_dir (Some handle) 1 (Some found) (Some first) /\
    finddata2dirent found st = Returns (first, st').
Proof.
  unfold windows_opendir.
  destruct (malloc (world p)) as [[|] w]; cbn [negb]; [|discriminate].
  destruct (convert _ _ _ _) as [[wdir st]|]; [|discriminate].
  destruct (opendir_pattern _ _) as [pattern|]; [|discriminate].
  cbv zeta. destruct (FindFirstFileW pattern w) as [[[handle found]|error] w'].
  - destruct (windows_finddata2dirent _ _ _ _ found _) as [[first st8]|] eqn:Hd;
      [|discriminate].
    intros H. injection H as <- _. right.
    exists handle, found, first. eexists. eexists. split; [reflexivity|exact Hd].
  - destruct (error =? ERROR_FILE_NOT_FOUND); [|discriminate].
    intros H. injection H as <- _. left. reflexivity.
Qed.

Lemma read_entries_step (fuel : nat) (dirstream : windows_dir) (p : process W) :
  entries (S fuel) dirstream p
  = match readdir dirstream p with
    | Exits message => Exits message
    | Returns (None, dirstream, p) => Returns ([], true, dirstream, p)
    | Returns (Some entry, dirstream, p) =>
        match entries fuel dirstream p with
        | Exits message => Exits message
        | Returns (entries, ended, dirstream, p) =>
            Returns (entry :: entries, ended, dirstream, p)
        end
    end.
Proof. reflexivity. Qed.

(** Reading a stream whose first entry has been returned. *)
Lemma read_entries_rest (name : WIN32_FIND_DATAW -> string) :
  forall (rest : list WIN32_FIND_DATAW) (handle : option Z)
         (found0 : option WIN32_FIND_DATAW) (entry0 : option windows_dirent)
         (p : process W),
    answers W FindNextFileW handle rest ERROR_NO_MORE_FILES (world p) ->
    (forall found, In found rest -> converts found (name found)) ->
    exists dirstream' p',
      entries (S (List.length rest)) (mk_dir handle 0 found0 entry0) p
      = Returns (map (fun found => mk_dirent (name found)) rest, true,
                 dirstream', p') /\
      errno p' = 0 /\ h dirstream' = handle.
Proof.
  induction rest as [|found rest IH]; intros handle found0 entry0 p Hans Hconv.
  - cbn [answers] in Hans. cbn [List.length map]. rewrite read_entries_step.
    unfold windows_readdir. cbn [flags h Z.eqb].
    destruct (FindNextFileW handle (world p)) as [answer w].
    cbn [fst] in Hans. subst answer. rewrite Z.eqb_refl.
    eexists. eexists. split; [reflexivity|]. split; reflexivity.
  - cbn [answers] in Hans. destruct Hans as [Hfirst Hans].
    cbn [List.length map]. rewrite read_entries_step.
    unfold windows_readdir. cbn [flags h Z.eqb].
    destruct (FindNextFileW handle (world p)) as [answer w].
    cbn [fst snd] in Hfirst, Hans. subst answer.
    destruct (finddata2dirent_converts found (name found)
                (utf8 (set_world w p))) as (st' & Hd).
    { apply Hconv. left. reflexivity. }
    cbv zeta. rewrite Hd.
    destruct (IH handle (Some found) (Some (mk_dirent (name found)))
                 (set_utf8 st' (set_world w p)))
      as (dirstream' & p' & Hread & Herrno & Hh).
    + exact Hans.
    + intros d Hd'. apply Hconv. right. exact Hd'.
    + rewrite Hread. exists dirstream', p'.
      split; [reflexivity|]. split; [exact Herrno|exact Hh].
Qed.

(** X18.  A directory is read entry by entry, each entry once.  When
    [windows_opendir] returns a stream with a handle, and Windows then
    answers [FindNextFileW] with the entries [rest] and after them with
    [ERROR_NO_MORE_FILES], the calls of [windows_readdir] return the entry
    that [windows_opendir] found, then the names of [rest] in order, then
    the null pointer with [errno] 0. *)
Theorem readdir_enumerates (name : WIN32_FIND_DATAW -> string)
    (dir : string) (p p1 : process W) (dirstream : windows_dir) (handle : Z)
    (rest : list WIN32_FIND_DATAW) :
  opendir dir p = Some (Returns (Some dirstream, p1)) ->
  h dirstream = Some handle ->
  answers W FindNextFileW (Some handle) rest ERROR_NO_MORE_FILES (world p1) ->
  (forall found, In found rest -> converts found (name found)) ->
  exists found first dirstream' p2,
    data dirstream = Some found /\
    buffer dirstream = Some first /\
    (forall name0, converts found name0 -> d_name first = name0) /\
    entries (S (S (List.length rest))) dirstream p1
    = Returns (first :: map (fun found => mk_dirent (name found)) rest, true,
               dirstream', p2) /\
    errno p2 = 0 /\
    h dirstream' = Some handle.
Proof.
  intros Hopen Hh Hans Hconv.
  destruct (opendir_returns dir p p1 dirstream Hopen)
    as [->|(handle' & found & first & st & st' & -> & Hd)]; [discriminate Hh|].
  cbn [h] in Hh. injection Hh as ->.
  destruct (read_entries_rest name rest (Some handle) (Some found) (Some first) p1
              Hans Hconv) as (dirstream' & p2 & Hread & Herrno & Hh').
  exists found, first, dirstream', p2.
  split; [reflexivity|]. split; [reflexivity|]. split.
  - intros name0 [Hconv0 _].
    destruct (finddata2dirent_returns found first st st' Hd) as (ret & Hret).
    destruct (Hconv0 (conv_utf8_buffer st (roll (conv_utf8 st)))) as (ret0 & _ & Hret0).
    rewrite Hret0 in Hret. injection Hret as _ ->. reflexivity.
  - split; [|split; [exact Herrno|exact Hh']].
    rewrite read_entries_step. unfold windows_readdir at 1.
    cbn [flags h data buffer Z.eqb Pos.eqb]. cbv zeta.
    cbn [flags h data buffer]. rewrite Hread. reflexivity.
Qed.

(** X19.  The stream of an empty directory: when [windows_opendir] returns a
    stream without a handle ([FindFirstFileW] failed with
    [ERROR_FILE_NOT_FOUND]), every [windows_readdir] returns the null pointer
    with [errno] 0, and [windows_closedir] returns 0; neither calls Windows
    nor changes anything else. *)
Theorem empty_directory_stream (dir : string) (p p1 : process W)
    (dirstream : windows_dir) :
  opendir dir p = Some (Returns (Some dirstream, p1)) ->
  h dirstream = None ->
  (forall p', readdir dirstream p' = Returns (None, dirstream, set_errno 0 p')) /\
  (forall p', closedir dirstream p' = (0, p')) /\
  (forall fuel p',
     entries (S fuel) dirstream p' = Returns ([], true, dirstream, set_errno 0 p')).
Proof.
  intros Hopen Hh.
  destruct (opendir_returns dir p p1 dirstream Hopen)
    as [->|(handle' & found & first & st & st' & -> & Hd)]; [|discriminate Hh].
  split; [|split].
  - intros p'. reflexivity.
  - intros p'. reflexivity.
  - intros fuel p'. reflexivity.
Qed.

Lemma opendir_pattern_room (wdir : list wchar_t) :
  (Z.of_nat (List.length wdir) + 3 <= PATH_MAX ->
   exists pattern, opendir_pattern PATH_MAX wdir = Some pattern) /\
  (PATH_MAX <= Z.of_nat (List.length wdir) + 1 ->
   opendir_pattern PATH_MAX wdir = None).
Proof.
  unfold opendir_pattern.
  destruct (negb (Z.of_nat (List.length wdir) =? 0)
            && negb (last wdir 0 =? L backslash));
    rewrite length_app; cbn [List.length]; split; intros Hroom.
  - destruct (_ <=? _) eqn:Hle; [eexists; reflexivity|]. apply Z.leb_gt in Hle. lia.
  - destruct (_ <=? _) eqn:Hle; [|reflexivity]. apply Z.leb_le in Hle. lia.
  - destruct (_ <=? _) eqn:Hle; [eexists; reflexivity|]. apply Z.leb_gt in Hle. lia.
  - destruct (_ <=? _) eqn:Hle; [|reflexivity]. apply Z.leb_le in Hle. lia.
Qed.

(** The pattern ends with one separator and [*]. *)
Lemma opendir_pattern_shape (wdir pattern : list wchar_t) :
  opendir_pattern PATH_MAX wdir = Some pattern ->
  (wdir = [] /\ pattern = [L "*"%char]) \/
  exists body,
    pattern = body ++ [L backslash; L "*"%char] /\
    (wdir = body /\ last wdir 0 <> L backslash \/ wdir = body ++ [L backslash]).
Proof.
  unfold opendir_pattern.
  destruct (Z.of_nat (List.length wdir) =? 0) eqn:Hlen.
  - apply Z.eqb_eq in Hlen. destruct wdir; [|discriminate Hlen].
    cbn [negb andb app]. destruct (_ <=? _); [|discriminate].
    intros H. injection H as <-. left. split; reflexivity.
  - cbn [negb andb]. destruct (last wdir 0 =? L backslash) eqn:Hlast; cbn [negb].
    + destruct (_ <=? _); [|discriminate]. intros H. injection H as <-. right.
      apply Z.eqb_eq in Hlast.
      destruct (exists_last (l := wdir)) as (body & w & Hw).
      { intros ->. discriminate Hlen. }
      subst wdir. rewrite last_last in Hlast. subst w.
      exists body. split; [rewrite <- app_assoc; reflexivity|].
      right. reflexivity.
    + destruct (_ <=? _); [|discriminate]. intros H. injection H as <-. right.
      apply Z.eqb_neq in Hlast. exists wdir. split; [reflexivity|].
      left. split; [reflexivity|exact Hlast].
Qed.

(** X20.  [windows_opendir] appends a separator, unless the converted name
    ends with one or is empty, then [*] and the terminator, in place in the
    buffer of [convert].  With room for three more units it is defined, and
    it consults [FindFirstFileW] for that pattern only; when the converted
    name and its terminator fill the buffer, which [convert] allows, it
    writes past the end of the buffer. *)
Theorem opendir_needs_room (dir : string) (p : process W) (w : W)
    (wdir : Z) (st : conv_state) :
  malloc (world p) = (true, w) ->
  convert PATH_MAX MultiByteToWideChar dir (utf16 p) = Returns (wdir, st) ->
  (Z.of_nat (List.length (wcs (conv_utf16_buffer st wdir))) + 3 <= PATH_MAX ->
   exists pattern,
     opendir_pattern PATH_MAX (wcs (conv_utf16_buffer st wdir)) = Some pattern /\
     ((wcs (conv_utf16_buffer st wdir) = [] /\ pattern = [L "*"%char]) \/
      exists body,
        pattern = body ++ [L backslash; L "*"%char] /\
        (wcs (conv_utf16_buffer st wdir) = body /\
         last (wcs (conv_utf16_buffer st wdir)) 0 <> L backslash \/
         wcs (conv_utf16_buffer st wdir) = body ++ [L backslash])) /\
     opendir dir p <> None /\
     forall FirstFile : list wchar_t -> W -> (Z * WIN32_FIND_DATAW + Z) * W,
       FirstFile pattern w = FindFirstFileW pattern w ->
       opendir_with FirstFile dir p = opendir dir p) /\
  (PATH_MAX <= Z.of_nat (List.length (wcs (conv_utf16_buffer st wdir))) + 1 ->
   opendir dir p = None).
Proof.
  intros Hmalloc Hconvert.
  destruct (opendir_pattern_room (wcs (conv_utf16_buffer st wdir))) as [Hroom Hfull].
  split.
  - intros Hlen. destruct (Hroom Hlen) as (pattern & Hpattern).
    exists pattern. split; [exact Hpattern|].
    split; [exact (opendir_pattern_shape _ _ Hpattern)|].
    split.
    + unfold windows_opendir. rewrite Hmalloc. cbn [negb].
      rewrite Hconvert, Hpattern. cbv zeta.
      destruct (FindFirstFileW pattern w) as [[[handle found]|error] w'].
      * destruct (windows_finddata2dirent _ _ _ _ _ _) as [[? ?]|]; discriminate.
      * destruct (error =? ERROR_FILE_NOT_FOUND); discriminate.
    + intros FirstFile Hsame. unfold windows_opendir. rewrite Hmalloc. cbn [negb].
      rewrite Hconvert, Hpattern. cbv zeta. rewrite Hsame. reflexivity.
  - intros Hlen. unfold windows_opendir. rewrite Hmalloc. cbn [negb].
    rewrite Hconvert, (Hfull Hlen). reflexivity.
Qed.

End DirectoryFacts.

(** The theorem for a directory of two entries. *)
Lemma readdir_enumerates_witness :
  exists found first dirstream' p2,
    data (mk_dir (Some 7) 1 (Some (sample_entry "a.txt")) (Some (mk_dirent "a.txt")))
    = Some found /\
    buffer (mk_dir (Some 7) 1 (Some (sample_entry "a.txt")) (Some (mk_dirent "a.txt")))
    = Some first /\
    (forall name0,
       converts 260 260 wide_to_ascii found name0 -> d_name first = name0) /\
    read_entries 260 260 6 2 5 111 8 18 9 2 13 38 12 5 wide_to_ascii
      (fun _ => EmptyString) sample_world sample_FindNextFileW
      (S (S (List.length [sample_entry "b.txt"])))
      (mk_dir (Some 7) 1 (Some (sample_entry "a.txt")) (Some (mk_dirent "a.txt")))
      (match sample_opendir "C:/data"
               (sample_process [sample_entry "a.txt"; sample_entry "b.txt"])
       with
       | Some (Returns (_, p1)) => p1
       | _ => sample_process []
       end)
    = Returns (first :: map (fun found => mk_dirent
                                (string_of_list_ascii
                                   (map (fun w => ascii_of_N (Z.to_N w))
                                      (cFileName found))))
                          [sample_entry "b.txt"],
               true, dirstream', p2) /\
    errno p2 = 0 /\
    h dirstream' = Some 7.
Proof.
  apply (readdir_enumerates 260 260 6 2 5 111 8 18 9 2 13 38 12 5
           ascii_to_wide wide_to_ascii (fun _ => EmptyString)
           sample_world sample_malloc sample_FindFirstFileW sample_FindNextFileW
           (fun found => string_of_list_ascii
                           (map (fun w => ascii_of_N (Z.to_N w)) (cFileName found)))
           "C:/data" (sample_process [sample_entry "a.txt"; sample_entry "b.txt"])).
  - reflexivity.
  - reflexivity.
  - simpl. split; reflexivity.
  - intros found [<-|[]]. split.
    + intros before. exists 6. split; [lia|reflexivity].
    + simpl. lia.
Defined.

(** The theorem for a directory without entries. *)
Lemma empty_directory_stream_witness :
  (forall p',
     windows_readdir 260 260 6 2 5 111 8 18 9 2 13 38 12 5 wide_to_ascii
       (fun _ => EmptyString) sample_world sample_FindNextFileW
       (mk_dir None (-1) None None) p'
     = Returns (None, mk_dir None (-1) None None, set_errno 0 p')) /\
  (forall p',
     windows_closedir 6 2 5 111 8 9 2 13 38 12 5 sample_world sample_FindClose
       (mk_dir None (-1) None None) p' = (0, p')) /\
  (forall fuel p',
     read_entries 260 260 6 2 5 111 8 18 9 2 13 38 12 5 wide_to_ascii
       (fun _ => EmptyString) sample_world sample_FindNextFileW
       (S fuel) (mk_dir None (-1) None None) p'
     = Returns ([], true, mk_dir None (-1) None None, set_errno 0 p')).
Proof.
  apply (empty_directory_stream 260 260 6 2 5 111 8 18 9 2 13 38 12 5
           ascii_to_wide wide_to_ascii (fun _ => EmptyString)
           sample_world sample_malloc sample_FindFirstFileW sample_FindNextFileW
           sample_FindClose "C:/" (sample_process [])
           (match sample_opendir "C:/" (sample_process []) with
            | Some (Returns (_, p1)) => p1
            | _ => sample_process []
            end)).
  - reflexivity.
  - reflexivity.
Defined.

(** The theorem for the directory [C:/data]. *)
Lemma opendir_needs_room_witness :
  (Z.of_nat (List.length (wcs (map L (list_ascii_of_string "\\?\C:\data") ++ [0])))
   + 3 <= 260 ->
   exists pattern,
     opendir_pattern 260 (wcs (map L (list_ascii_of_string "\\?\C:\data") ++ [0]))
     = Some pattern /\
     ((wcs (map L (list_ascii_of_string "\\?\C:\data") ++ [0]) = [] /\
       pattern = [L "*"%char]) \/
      exists body,
        pattern = body ++ [L backslash; L "*"%char] /\
        (wcs (map L (list_ascii_of_string "\\?\C:\data") ++ [0]) = body /\
         last (wcs (map L (list_ascii_of_string "\\?\C:\data") ++ [0])) 0
         <> L backslash \/
         wcs (map L (list_ascii_of_string "\\?\C:\data") ++ [0])
         = body ++ [L backslash])) /\
     sample_opendir "C:/data" (sample_process [sample_entry "a.txt"]) <> None /\
     forall FirstFile,
       FirstFile pattern [sample_entry "a.txt"]
       = sample_FindFirstFileW pattern [sample_entry "a.txt"] ->
       windows_opendir 260 260 6 2 5 111 8 9 2 13 38 12 5 ascii_to_wide
         wide_to_ascii (fun _ => EmptyString) sample_world sample_malloc
         FirstFile "C:/data" (sample_process [sample_entry "a.txt"])
       = sample_opendir "C:/data" (sample_process [sample_entry "a.txt"])) /\
  (260 <= Z.of_nat (List.length
                      (wcs (map L (list_ascii_of_string "\\?\C:\data") ++ [0]))) + 1 ->
   sample_opendir "C:/data" (sample_process [sample_entry "a.txt"]) = None).
Proof.
  apply (opendir_needs_room 260 260 6 2 5 111 8 9 2 13 38 12 5
           ascii_to_wide wide_to_ascii (fun _ => EmptyString)
           sample_world sample_malloc sample_FindFirstFileW
           "C:/data" (sample_process [sample_entry "a.txt"])
           [sample_entry "a.txt"] 1
           (mk_conv 1 (store (conv_utf16_buffer conv_init) 1
                         (map L (list_ascii_of_string "\\?\C:\data") ++ [0])))).
  - reflexivity.
  - reflexivity.
Defined.

(** ** A device without errors *)

Lemma smart_afr_value_0 {D : Type} {arith : Arith D} (tab : list (afr_point D)) :
  smart_afr_value tab 0 = Some (d_of_uint 0).
Proof. reflexivity. Qed.

Lemma interpolation_positive (vlo vhi val : Z) (rlo rhi : R) :
  vlo < val < vhi -> (0 <= rlo)%R -> (0 < rhi)%R ->
  (0 < rlo + IZR (val - vlo) * (rhi - rlo) / IZR (vhi - vlo))%R.
Proof.
  intros [Hl Hh] Hrlo Hrhi.
  assert (Hd : (0 < IZR (vhi - vlo))%R) by (apply IZR_lt; lia).
  assert (Ht0 : (0 < IZR (val - vlo))%R) by (apply IZR_lt; lia).
  assert (Ht1 : (IZR (val - vlo) < IZR (vhi - vlo))%R) by (apply IZR_lt; lia).
  set (t := IZR (val - vlo)) in *. set (d := IZR (vhi - vlo)) in *.
  assert (Hq : (0 < t / d < 1)%R).
  { split.
    - apply Rmult_lt_0_compat; [exact Ht0|]. apply Rinv_0_lt_compat, Hd.
    - apply Rmult_lt_reg_r with d; [exact Hd|].
      unfold Rdiv. rewrite Rmult_assoc, Rinv_l by lra. lra. }
  replace (t * (rhi - rlo) / d)%R with (t / d * (rhi - rlo))%R by (field; lra).
  set (q := (t / d)%R) in *. nra.
Qed.

Lemma last_in_body {A : Type} (body : list A) (d : A) :
  body <> [] -> In (last body d) body.
Proof.
  intros Hne. destruct (exists_last Hne) as (front & x & ->).
  rewrite last_last. apply in_or_app. right. left. reflexivity.
Qed.

(** On a table whose breakpoints have positive rates, every value above 0
    gets a positive rate. *)
Lemma smart_afr_value_positive (p0 : afr_point ereal) (body : list (afr_point ereal))
    (s : afr_point ereal) (c M : R) (val : Z) :
  monotone_table p0 body s -> afr p0 = Fin 0 -> body <> [] ->
  rates_within c M body -> (0 < c)%R -> 0 < val ->
  exists x, smart_afr_value (table p0 body s) val = Some (Fin x) /\ (0 < x)%R.
Proof.
  intros Hwf Hr0 Hne Hrates Hc Hval. unfold rates_within in Hrates.
  rewrite Forall_forall in Hrates.
  assert (Hp0 : value p0 < val) by (destruct Hwf as (Hv0 & _); lia).
  destruct (locate_value val body p0 Hp0)
    as [Habove|[(q & Hin & Hq)|(pre & lo & hi & post & Hsplit & Hb)]].
  - destruct (Hrates _ (last_in_body body p0 Hne)) as (r & Er & Hr).
    exists r. split; [|lra].
    rewrite (smart_afr_value_above p0 body s Hwf val Habove). rewrite Er. reflexivity.
  - destruct (Hrates q Hin) as (r & Er & Hr).
    exists r. split; [|lra].
    rewrite <- Hq. rewrite (smart_afr_value_exact p0 body s Hwf q Hin).
    rewrite Er. reflexivity.
  - assert (Hhi : In hi body).
    { destruct pre as [|p pre]; simpl in Hsplit; injection Hsplit as _ ->.
      - left. reflexivity.
      - apply in_or_app. right. right. left. reflexivity. }
    assert (Hlo : exists rlo, afr lo = Fin rlo /\ (0 <= rlo)%R).
    { destruct pre as [|p pre]; simpl in Hsplit; injection Hsplit as Hp Hbody.
      - subst lo. exists 0%R. split; [exact Hr0|lra].
      - destruct (Hrates lo) as (r & Er & Hr).
        { rewrite Hbody. apply in_or_app. right. left. reflexivity. }
        exists r. split; [exact Er|lra]. }
    destruct Hlo as (rlo & Erlo & Hrlo).
    destruct (Hrates _ Hhi) as (rhi & Erhi & Hrhi).
    exists (rlo + IZR (val - value lo) * (rhi - rlo) / IZR (value hi - value lo))%R.
    split.
    + rewrite (smart_afr_value_between p0 body s Hwf pre post lo hi val Hsplit Hb).
      rewrite Erlo, Erhi. rewrite interpolation_finite by lia. reflexivity.
    + apply interpolation_positive; [exact Hb|exact Hrlo|lra].
Qed.

(** The breakpoints of the six compiled-in tables have rates above 1/100. *)
Lemma compiled_breakpoints_positive (tab : list (afr_point ereal)) :
  In tab [AFR_5; AFR_187; AFR_188; AFR_193; AFR_197; AFR_198] ->
  rates_within (1 / 100) 4 (breakpoints tab) /\ breakpoints tab <> [].
Proof.
  simpl. intros [<-|[<-|[<-|[<-|[<-|[<-|[]]]]]]];
    (split; [rates_within_table|discriminate]).
Qed.

(** What one attribute adds to the rate. *)
Lemma add_attr_term (UNASSIGNED : Z) (smart : Z -> Z)
    (tab : list (afr_point ereal)) (id : Z) (acc : R) :
  In tab [AFR_5; AFR_187; AFR_188; AFR_193; AFR_197; AFR_198] ->
  0 <= smart id ->
  exists x,
    add_attr UNASSIGNED smart tab id (Fin acc) = Some (Fin (acc + x)) /\
    (0 <= x)%R /\
    (x = 0%R <-> smart id = 0 \/ smart id = UNASSIGNED).
Proof.
  intros Htab Hval. unfold add_attr.
  destruct (smart id =? UNASSIGNED) eqn:Hun.
  - apply Z.eqb_eq in Hun. exists 0%R. split; [rewrite Rplus_0_r; reflexivity|].
    split; [lra|]. split; [intros _; right; exact Hun|reflexivity].
  - apply Z.eqb_neq in Hun. destruct (Z.eq_dec (smart id) 0) as [Hz|Hnz].
    + rewrite Hz, smart_afr_value_0, bind_some. rewrite d_of_uint_fin.
      exists 0%R. split; [reflexivity|]. split; [lra|].
      split; [intros _; left; reflexivity|reflexivity].
    + destruct (compiled_breakpoints_positive tab Htab) as [Hrates Hne].
      destruct (smart_afr_value_positive (pt0 0 0) (breakpoints tab) (pt0 0 0)
                  (1 / 100) 4 (smart id)
                  (compiled_tables_monotone tab Htab) (d_of_uint_fin 0) Hne Hrates
                  ltac:(lra) ltac:(lia)) as (x & Hx & Hpos).
      rewrite <- (compiled_tables_shape tab Htab) in Hx.
      rewrite Hx, bind_some. exists x. split; [reflexivity|]. split; [lra|].
      split; [intros ->; lra|intros [H|H]; contradiction].
Qed.

Lemma add_attr_clean (UNASSIGNED : Z) (smart : Z -> Z)
    (tab : list (afr_point float)) (id : Z) :
  smart id = 0 \/ smart id = UNASSIGNED ->
  add_attr UNASSIGNED smart tab id (d_of_uint 0) = Some (d_of_uint 0).
Proof.
  intros H. unfold add_attr.
  destruct (smart id =? UNASSIGNED) eqn:Hun; [reflexivity|].
  destruct H as [Hz|Hu]; [|apply Z.eqb_neq in Hun; contradiction].
  rewrite Hz, smart_afr_value_0, bind_some. reflexivity.
Qed.

(** X21.  A device has the rate 0 exactly when it shows no error: over the
    extended reals, for valid attribute values, [smart_afr] is 0 if and only
    if each of the six attributes it reads is 0 or not assigned; and in
    binary64 the rate of such a device is exactly 0. *)
Theorem rate_zero_iff_no_errors (UNASSIGNED : Z) (smart : Z -> Z) :
  (forall id, 0 <= smart id) ->
  (smart_afr (D := ereal) UNASSIGNED smart = Some (Fin 0) <->
   forall id, In id monitored_attributes ->
              smart id = 0 \/ smart id = UNASSIGNED) /\
  ((forall id, In id monitored_attributes ->
               smart id = 0 \/ smart id = UNASSIGNED) ->
   smart_afr (D := float) UNASSIGNED smart = Some (d_of_uint 0)).
Proof.
  intros Hpos. split.
  - unfold smart_afr. rewrite bind_some, d_of_uint_fin.
    destruct (add_attr_term UNASSIGNED smart AFR_5 5 0 ltac:(simpl; tauto) (Hpos 5))
      as (x1 & E1 & P1 & Z1).
    rewrite E1, bind_some.
    destruct (add_attr_term UNASSIGNED smart AFR_187 187 (0 + x1)
                ltac:(simpl; tauto) (Hpos 187)) as (x2 & E2 & P2 & Z2).
    rewrite E2, bind_some.
    destruct (add_attr_term UNASSIGNED smart AFR_188 188 (0 + x1 + x2)
                ltac:(simpl; tauto) (Hpos 188)) as (x3 & E3 & P3 & Z3).
    rewrite E3, bind_some.
    destruct (add_attr_term UNASSIGNED smart AFR_193 193 (0 + x1 + x2 + x3)
                ltac:(simpl; tauto) (Hpos 193)) as (x4 & E4 & P4 & Z4).
    rewrite E4, bind_some.
    destruct (add_attr_term UNASSIGNED smart AFR_197 197 (0 + x1 + x2 + x3 + x4)
                ltac:(simpl; tauto) (Hpos 197)) as (x5 & E5 & P5 & Z5).
    rewrite E5, bind_some.
    destruct (add_attr_term UNASSIGNED smart AFR_198 198 (0 + x1 + x2 + x3 + x4 + x5)
                ltac:(simpl; tauto) (Hpos 198)) as (x6 & E6 & P6 & Z6).
    rewrite E6. split.
    + intros Hsum. injection Hsum as Hsum.
      assert (H1 : x1 = 0%R) by lra. assert (H2 : x2 = 0%R) by lra.
      assert (H3 : x3 = 0%R) by lra. assert (H4 : x4 = 0%R) by lra.
      assert (H5 : x5 = 0%R) by lra. assert (H6 : x6 = 0%R) by lra.
      intros id Hid. simpl in Hid.
      destruct Hid as [<-|[<-|[<-|[<-|[<-|[<-|[]]]]]]]; tauto.
    + intros Hall.
      assert (H1 : x1 = 0%R) by (apply Z1, Hall; simpl; tauto).
      assert (H2 : x2 = 0%R) by (apply Z2, Hall; simpl; tauto).
      assert (H3 : x3 = 0%R) by (apply Z3, Hall; simpl; tauto).
      assert (H4 : x4 = 0%R) by (apply Z4, Hall; simpl; tauto).
      assert (H5 : x5 = 0%R) by (apply Z5, Hall; simpl; tauto).
      assert (H6 : x6 = 0%R) by (apply Z6, Hall; simpl; tauto).
      do 2 f_equal. lra.
  - intros Hall. unfold smart_afr. rewrite bind_some.
    rewrite (add_attr_clean _ _ AFR_5 5) by (apply Hall; simpl; tauto).
    rewrite bind_some.
    rewrite (add_attr_clean _ _ AFR_187 187) by (apply Hall; simpl; tauto).
    rewrite bind_some.
    rewrite (add_attr_clean _ _ AFR_188 188) by (apply Hall; simpl; tauto).
    rewrite bind_some.
    rewrite (add_attr_clean _ _ AFR_193 193) by (apply Hall; simpl; tauto).
    rewrite bind_some.
    rewrite (add_attr_clean _ _ AFR_197 197) by (apply Hall; simpl; tauto).
    rewrite bind_some.
    apply (add_attr_clean _ _ AFR_198 198). apply Hall. simpl. tauto.
Qed.

(** The theorem for the logical record of the sample array, which has 16
    reallocated sectors. *)
Lemma rate_zero_iff_no_errors_witness :
  (smart_afr (D := ereal) UINT64_MAX (smart sample_logical) = Some (Fin 0) <->
   forall id, In id monitored_attributes ->
              smart sample_logical id = 0 \/ smart sample_logical id = UINT64_MAX) /\
  ((forall id, In id monitored_attributes ->
               smart sample_logical id = 0 \/ smart sample_logical id = UINT64_MAX) ->
   smart_afr (D := float) UINT64_MAX (smart sample_logical) = Some (d_of_uint 0)).
Proof.
  apply (rate_zero_iff_no_errors UINT64_MAX (smart sample_logical)).
  intros id. cbn [smart sample_logical].
  destruct (id =? 5); vm_compute; discriminate.
Defined.

